(** * BaseRunner: the simulation tick of [LevelManager]

    A shallow embedding of [src/components/World/LevelManager.tsx] (the
    [useFrame] callback that moves, collides, purges and spawns the game
    objects) together with the constants of the types module and the store
    of [src/store.ts], and the properties of the specification that concern
    them.

    Numbers.  JavaScript numbers are IEEE-754 doubles.  They are modelled by
    exact rationals [Q]: every comparison, branch and update of the source is
    kept, rounding is not modelled.  [level], [laneCount] and the letter
    indices only ever hold integers in the store and are modelled by [Z].

    Effects.  The callbacks into the store, the DOM events and the audio cues
    are collected, in program order, in a list of [Event]s.  [Math.random] is
    a stream of rolls read through a cursor, [uuidv4] a counter of fresh
    handles. *)

From Stdlib Require Import QArith Qminmax Qabs Qround Qreals.
From Stdlib Require Import Reals Lra Lqa Lia ZArith List String Bool DecimalString.
From Stdlib Require Import Permutation.
Import ListNotations.

Local Open Scope Q_scope.

(** ** Numbers *)

Module Num.

(** [a < b] on numbers, as a boolean. *)
Definition ltb (a b : Q) : bool :=
  match a ?= b with Lt => true | _ => false end.

(** [a > b]. *)
Definition gtb (a b : Q) : bool := ltb b a.

(** [a >= b]. *)
Definition geb (a b : Q) : bool := negb (ltb a b).

(** [a <= b]. *)
Definition leb (a b : Q) : bool := negb (ltb b a).

(** [v || d] on an optional number: [undefined] and [0] are falsy. *)
Definition orDefault (v : option Q) (d : Q) : Q :=
  match v with
  | Some q => if Qeq_bool q 0 then d else q
  | None => d
  end.

(** [THREE.MathUtils.lerp (x, y, t) = (1 - t) * x + t * y]. *)
Definition lerp (x y t : Q) : Q := (1 - t) * x + t * y.

(** [Math.sqrt (s) < r] for [r >= 0]: decided on the squares, which is the
    same test over the reals (lemma [sqrt_lt_squares] below). *)
Definition sqrt_ltb (s r : Q) : bool := ltb s (r * r).

(** [Math.min (...l)] of a non-empty array given by head and tail. *)
Definition minList (h : Q) (t : list Q) : Q := fold_left Qmin t h.

End Num.

Infix "<?" := Num.ltb (at level 70, no associativity) : Q_scope.
Infix ">?" := Num.gtb (at level 70, no associativity) : Q_scope.
Infix ">=?" := Num.geb (at level 70, no associativity) : Q_scope.
Infix "<=?" := Num.leb (at level 70, no associativity) : Q_scope.

(** ** The types module *)

Inductive GameStatus := MENU | PLAYING | SHOP | GAME_OVER | VICTORY.

Inductive ObjectType :=
  | OBSTACLE | GEM | LETTER | SHOP_PORTAL | ALIEN | MISSILE | MAGNET | SHIELD
  | DRONE | LASER_GATE | BARRIER | SPIKE_FLOOR | TURRET | JUMP_PAD | SPEED_BOOST.

Scheme Equality for GameStatus.
Scheme Equality for ObjectType.

Declare Scope obj_scope.
Delimit Scope obj_scope with obj.
Infix "=?" := ObjectType_beq (at level 70, no associativity) : obj_scope.

(** [position: [number, number, number]]: lane axis, vertical axis, forward
    axis. *)
Record Triple := mkTriple { at0 : Q; at1 : Q; at2 : Q }.

(** [THREE.Vector3]. *)
Record Vector3 := mkVector3 { vx : Q; vy : Q; vz : Q }.

Record GameObject := mkGameObject {
  id : nat;
  type : ObjectType;
  position : Triple;
  active : bool;
  value : option string;
  color : option string;
  targetIndex : option Z;
  points : option Q;
  hasFired : option bool;
  moveDirection : option Q;
  moveSpeed : option Q;
  laserActive : option bool
}.

Definition LANE_WIDTH : Q := 2.2.
Definition SPAWN_DISTANCE : Q := 120.
Definition REMOVE_DISTANCE : Q := 20.

Definition GEMINI_COLORS : list string :=
  ["#2979ff"; "#ff1744"; "#ffea00"; "#2979ff"; "#00e676"; "#ff1744"]%string.

(** In-place updates of one field of an object. *)
Definition setPosition (o : GameObject) (p : Triple) : GameObject :=
  mkGameObject (id o) (type o) p (active o) (value o) (color o) (targetIndex o)
    (points o) (hasFired o) (moveDirection o) (moveSpeed o) (laserActive o).

Definition setActive (o : GameObject) (b : bool) : GameObject :=
  mkGameObject (id o) (type o) (position o) b (value o) (color o)
    (targetIndex o) (points o) (hasFired o) (moveDirection o) (moveSpeed o)
    (laserActive o).

Definition setHasFired (o : GameObject) (b : bool) : GameObject :=
  mkGameObject (id o) (type o) (position o) (active o) (value o) (color o)
    (targetIndex o) (points o) (Some b) (moveDirection o) (moveSpeed o)
    (laserActive o).

Definition setMoveDirection (o : GameObject) (d : Q) : GameObject :=
  mkGameObject (id o) (type o) (position o) (active o) (value o) (color o)
    (targetIndex o) (points o) (hasFired o) (Some d) (moveSpeed o)
    (laserActive o).

Definition set0 (o : GameObject) (q : Q) : GameObject :=
  setPosition o (mkTriple q (at1 (position o)) (at2 (position o))).

Definition set1 (o : GameObject) (q : Q) : GameObject :=
  setPosition o (mkTriple (at0 (position o)) q (at2 (position o))).

Definition set2 (o : GameObject) (q : Q) : GameObject :=
  setPosition o (mkTriple (at0 (position o)) (at1 (position o)) q).

(** [!obj.hasFired]: an absent flag is falsy. *)
Definition notFired (o : GameObject) : bool :=
  match hasFired o with Some true => false | _ => true end.

(** An object literal with the optional fields left out. *)
Definition literal (i : nat) (t : ObjectType) (p : Triple) (c : string)
  : GameObject :=
  mkGameObject i t p true None (Some c) None None None None None None.

(** ** Constants and difficulty of LevelManager *)

Definition OBSTACLE_HEIGHT : Q := 1.6.
Definition BASE_LETTER_INTERVAL : Q := 200.
Definition MISSILE_SPEED : Q := 30.

Definition getLetterInterval (level : Z) : Q :=
  BASE_LETTER_INTERVAL * (1 + (inject_Z level - 1) * 0.4).

Record DifficultyConfig := mkDifficultyConfig {
  obstacleChance : Q;
  multiObstacleChance : Q;
  tripleObstacleChance : Q;
  droneChance : Q;
  alienChance : Q;
  gapChance : Q;
  gemBaseValue : Q;
  gemBonusValue : Q;
  minGap : Q;
  powerupChance : Q
}.

Definition getDifficultyConfig (level : Z) : DifficultyConfig :=
  let l := inject_Z level in
  {| obstacleChance := Qmin (0.20 + l * 0.05) 0.50;
     multiObstacleChance := Qmin (0.50 + l * 0.05) 0.85;
     tripleObstacleChance := Qmin (0.80 + l * 0.02) 0.95;
     droneChance := if (level >=? 2)%Z then Qmin (0.10 + (l - 2) * 0.03) 0.25 else 0;
     alienChance := if (level >=? 2)%Z then Qmin (0.15 + (l - 2) * 0.04) 0.35 else 0;
     gapChance := if (level >=? 4)%Z then Qmin (0.05 + (l - 4) * 0.02) 0.15 else 0;
     gemBaseValue := 50 + (l - 1) * 10;
     gemBonusValue := 100 + (l - 1) * 25;
     minGap := Qmax 10 (14 - l * 0.5);
     powerupChance := Qmin (0.05 + l * 0.01) 0.12 |}.

(** ** Effects and inputs of a tick *)

Inductive Event :=
  | ParticleBurst (pos : Triple) (col : string)
      (* window.dispatchEvent (new CustomEvent ('particle-burst', ...)) *)
  | PlayerHit     (* window.dispatchEvent (new Event ('player-hit')) *)
  | OpenShop      (* openShop () *)
  | CollectGem (pts : Q)      (* collectGem (obj.points || 50) *)
  | CollectLetter (idx : Z)   (* collectLetter (obj.targetIndex) *)
  | ActivateMagnet            (* activateMagnet () *)
  | ActivateShield            (* activateShield () *)
  | PlayGemCollect            (* audio.playGemCollect () *)
  | PlayLetterCollect.        (* audio.playLetterCollect () *)

(** What one call of the frame callback reads: the store snapshot of the
    render, the frame clock, the player object if it has been resolved, and
    the host's sources of randomness. *)
Record Frame := mkFrame {
  status : GameStatus;
  speed : Q;
  laneCount : Z;
  level : Z;
  collectedLetters : list Z;
  magnetEndTime : Q;
  now : Q;                          (* Date.now () *)
  delta : Q;
  playerObj : option Vector3;       (* playerObjRef.current, world position *)
  random : nat -> Q;                (* the successive Math.random () *)
  sortRandom : list Z -> nat -> list Z * nat
    (* lanes.sort (() => Math.random () - 0.5): the resulting order is left to
       the engine; it maps the array and the roll cursor to the sorted array
       and the cursor after the comparisons *)
}.

(** The refs that survive between two calls. *)
Record Refs := mkRefs {
  objectsRef : list GameObject;
  distanceTraveled : Q;
  nextLetterDistance : Q;
  uuidNext : nat                    (* the next handle uuidv4 () returns *)
}.

(** ** The per-object loop body, block by block *)

Section LoopBody.

Variable laneCount_ : Z.
Variable dist safeDelta : Q.
Variable playerPos : Vector3.
Variable isMagnetActive : bool.

(** Standard movement, missiles faster than the world. *)
Definition moveAmount (obj : GameObject) : Q :=
  if (type obj =? MISSILE)%obj then dist + MISSILE_SPEED * safeDelta else dist.

Definition standardMovement (obj : GameObject) : GameObject :=
  set2 obj (at2 (position obj) + moveAmount obj).

(** MAGNET LOGIC *)
Definition magnetLogic (obj : GameObject) : GameObject :=
  if isMagnetActive && (type obj =? GEM)%obj && active obj then
    let dx := vx playerPos - at0 (position obj) in
    let dz := vz playerPos - at2 (position obj) in
    if Num.sqrt_ltb (dx * dx + dz * dz) 40 then
      let pullStrength := safeDelta * 10 in
      setPosition obj
        (mkTriple (at0 (position obj) + dx * pullStrength)
                  (Num.lerp (at1 (position obj)) (vy playerPos) pullStrength)
                  (at2 (position obj) + dz * pullStrength))
    else obj
  else obj.

(** DRONE AI LOGIC *)
Definition droneLogic (obj : GameObject) : GameObject :=
  if (type obj =? DRONE)%obj && active obj then
    if at2 (position obj) <? vz playerPos - 5 then
      let targetX := vx playerPos in
      let lerpSpeed := safeDelta * 1.5 in
      set0 obj (Num.lerp (at0 (position obj)) targetX lerpSpeed)
    else obj
  else obj.

(** BARRIER MOVEMENT LOGIC *)
Definition maxX : Q := inject_Z (laneCount_ / 2) * LANE_WIDTH.

Definition barrierLogic (obj : GameObject) : GameObject :=
  if (type obj =? BARRIER)%obj && active obj then
    let x := at0 (position obj)
             + Num.orDefault (moveDirection obj) 1
               * Num.orDefault (moveSpeed obj) 3 * safeDelta in
    if x >? maxX then setMoveDirection (set0 obj maxX) (-1)
    else if x <? - maxX then setMoveDirection (set0 obj (- maxX)) 1
    else set0 obj x
  else obj.

(** What a block of the body hands to the rest of the tick. *)
Record Fired := mkFired {
  f_obj : GameObject;
  f_spawns : list GameObject;     (* pushed on newSpawns *)
  f_events : list Event
}.

(** TURRET FIRING LOGIC; [u] is the handle [uuidv4 ()] returns. *)
Definition turretLogic (u : nat) (obj : GameObject) : Fired :=
  if (type obj =? TURRET)%obj && active obj && notFired obj
     && (at2 (position obj) >? -80) then
    let obj' := setHasFired obj true in
    mkFired obj'
      [literal u MISSILE
         (mkTriple (at0 (position obj)) 0.8 (at2 (position obj) + 2))
         "#ffaa00"]
      [ParticleBurst (position obj') "#ffaa00"]
  else mkFired obj [] [].

(** ALIEN AI LOGIC *)
Definition alienLogic (u : nat) (obj : GameObject) : Fired :=
  if (type obj =? ALIEN)%obj && active obj && notFired obj
     && (at2 (position obj) >? -90) then
    let obj' := setHasFired obj true in
    mkFired obj'
      [literal u MISSILE
         (mkTriple (at0 (position obj)) 1.0 (at2 (position obj) + 2))
         "#ff0000"]
      [ParticleBurst (position obj') "#ff00ff"]
  else mkFired obj [] [].

(** Collision detection. *)
Definition zThreshold : Q := 2.0.

Definition inZZone (prevZ : Q) (obj : GameObject) : bool :=
  (prevZ <? vz playerPos + zThreshold)
  && (at2 (position obj) >? vz playerPos - zThreshold).

Definition hitDist (obj : GameObject) : Q :=
  if (type obj =? MAGNET)%obj || (type obj =? SHIELD)%obj then 1.5 else 0.9.

Definition isDamageSource (t : ObjectType) : bool :=
  match t with
  | OBSTACLE | ALIEN | MISSILE | DRONE | LASER_GATE | BARRIER | SPIKE_FLOOR
  | TURRET => true
  | _ => false
  end.

(** [(objBottom, objTop)], the default first and then the per-type chain. *)
Definition objBand (obj : GameObject) : Q * Q :=
  match type obj with
  | OBSTACLE => (0, OBSTACLE_HEIGHT)
  | MISSILE => (0.5, 1.5)
  | DRONE => (at1 (position obj) - 0.5, at1 (position obj) + 0.5)
  | LASER_GATE => (0.5, 1.2)
  | BARRIER => (0, 2.5)
  | SPIKE_FLOOR => (0, 0.8)
  | TURRET => (0, 0.8)
  | _ => (at1 (position obj) - 0.5, at1 (position obj) + 0.5)
  end.

Definition isHit (obj : GameObject) : bool :=
  let playerBottom := vy playerPos in
  let playerTop := vy playerPos + 1.8 in
  let '(objBottom, objTop) := objBand obj in
  (playerBottom <? objTop) && (playerTop >? objBottom).

(** The callbacks of an item collection, by type. *)
Definition collectCalls (obj : GameObject) : list Event :=
  match type obj, targetIndex obj with
  | GEM, _ => [CollectGem (Num.orDefault (points obj) 50); PlayGemCollect]
  | LETTER, Some i => [CollectLetter i; PlayLetterCollect]
  | MAGNET, _ => [ActivateMagnet; PlayGemCollect]
  | SHIELD, _ => [ActivateShield; PlayGemCollect]
  | _, _ => []
  end.

Definition colorOr (obj : GameObject) (d : string) : string :=
  match color obj with
  | Some c => if String.eqb c "" then d else c
  | None => d
  end.

Record Collided := mkCollided {
  c_obj : GameObject;
  c_events : list Event;
  c_keep : bool;
  c_changes : bool                (* the block set hasChanges *)
}.

Definition collision (prevZ : Q) (obj : GameObject) : Collided :=
  if active obj then
    if (type obj =? SHOP_PORTAL)%obj then
      let dz := Qabs (at2 (position obj) - vz playerPos) in
      if dz <? 2 then mkCollided (setActive obj false) [OpenShop] false true
      else mkCollided obj [] true false
    else if inZZone prevZ obj then
      let dx := Qabs (at0 (position obj) - vx playerPos) in
      if dx <? hitDist obj then
        if isDamageSource (type obj) then
          if isHit obj then
            let burstColor :=
              if (type obj =? DRONE)%obj then "#000000"%string
              else "#ff4400"%string in
            mkCollided (setActive obj false)
              [PlayerHit; ParticleBurst (position obj) burstColor] true true
          else mkCollided obj [] true false
        else
          let dy := Qabs (at1 (position obj) - vy playerPos) in
          if dy <? 2.5 then
            mkCollided (setActive obj false)
              (collectCalls obj
               ++ [ParticleBurst (position obj) (colorOr obj "#ffffff")])
              true true
          else mkCollided obj [] true false
      else mkCollided obj [] true false
    else mkCollided obj [] true false
  else mkCollided obj [] true false.

(** The trailing removal test. *)
Definition pastRemoval (obj : GameObject) : bool :=
  at2 (position obj) >? REMOVE_DISTANCE.

(** One iteration of [for (const obj of currentObjects)]. *)
Record Step := mkStep {
  s_obj : GameObject;             (* the object after its in-place updates *)
  s_keep : bool;                  (* pushed on keptObjects *)
  s_spawns : list GameObject;     (* pushed on newSpawns *)
  s_events : list Event;
  s_changes : bool
}.

Definition loopBody (u : nat) (obj : GameObject) : Step :=
  let prevZ := at2 (position obj) in
  let o1 := standardMovement obj in
  let o2 := magnetLogic o1 in
  let o3 := droneLogic o2 in
  let o4 := barrierLogic o3 in
  let t := turretLogic u o4 in
  let a := alienLogic (u + List.length (f_spawns t)) (f_obj t) in
  let c := collision prevZ (f_obj a) in
  let gone := pastRemoval (c_obj c) in
  mkStep (c_obj c)
    (c_keep c && negb gone)
    (f_spawns t ++ f_spawns a)
    (f_events t ++ f_events a ++ c_events c)
    (negb (List.length (f_spawns t ++ f_spawns a) =? 0)%nat || c_changes c || gone).

(** The whole loop: the objects after mutation (the old array, whose
    elements were updated in place), [keptObjects], [newSpawns], the events
    in order, [hasChanges], and the handle counter. *)
Record Loop := mkLoop {
  l_all : list GameObject;
  l_kept : list GameObject;
  l_new : list GameObject;
  l_events : list Event;
  l_changes : bool;
  l_uuid : nat
}.

Fixpoint loop (objs : list GameObject) (acc : Loop) : Loop :=
  match objs with
  | [] => acc
  | obj :: rest =>
      let s := loopBody (l_uuid acc) obj in
      loop rest
        (mkLoop (l_all acc ++ [s_obj s])
                (if s_keep s then l_kept acc ++ [s_obj s] else l_kept acc)
                (l_new acc ++ s_spawns s)
                (l_events acc ++ s_events s)
                (l_changes acc || s_changes s)
                (l_uuid acc + List.length (s_spawns s)))
  end.

End LoopBody.

(** ** The spawn planner

    The second half of the callback pushes on [keptObjects], draws rolls and
    handles, and may advance [nextLetterDistance]: a small state monad. *)

Record Plan := mkPlan {
  keptObjects : list GameObject;
  rolls : nat;                      (* cursor into the rolls of the frame *)
  uuid : nat;                       (* next handle *)
  nextLetter : Q;                   (* nextLetterDistance.current *)
  hasChanges : bool
}.

Definition M (A : Type) : Type := Plan -> A * Plan.

Definition ret {A} (a : A) : M A := fun s => (a, s).

Definition bind {A B} (m : M A) (k : A -> M B) : M B :=
  fun s => let (a, s') := m s in k a s'.

Notation "x <- m ;; k" := (bind m (fun x => k))
  (at level 61, m at next level, right associativity).
Notation "m ;;; k" := (bind m (fun _ => k))
  (at level 61, right associativity).

Fixpoint forEach {A} (l : list A) (body : A -> M unit) : M unit :=
  match l with
  | [] => ret tt
  | a :: rest => body a ;;; forEach rest body
  end.

Definition when (b : bool) (m : M unit) : M unit := if b then m else ret tt.

Section Planner.

Variable f : Frame.

Definition mathRandom : M Q :=
  fun s => (random f (rolls s),
            mkPlan (keptObjects s) (S (rolls s)) (uuid s) (nextLetter s)
              (hasChanges s)).

Definition uuidv4 : M nat :=
  fun s => (uuid s,
            mkPlan (keptObjects s) (rolls s) (S (uuid s)) (nextLetter s)
              (hasChanges s)).

(** [keptObjects.push ({ id: uuidv4 (), ... })]. *)
Definition push (mk : nat -> GameObject) : M unit :=
  u <- uuidv4 ;;
  fun s => (tt, mkPlan (keptObjects s ++ [mk u]) (rolls s) (uuid s)
                  (nextLetter s) (hasChanges s)).

Definition setHasChanges : M unit :=
  fun s => (tt, mkPlan (keptObjects s) (rolls s) (uuid s) (nextLetter s) true).

Definition advanceNextLetter (d : Q) : M unit :=
  fun s => (tt, mkPlan (keptObjects s) (rolls s) (uuid s) (nextLetter s + d)
                  (hasChanges s)).

Definition getRandomLane (laneCount : Z) : M Z :=
  let max := (laneCount / 2)%Z in
  r <- mathRandom ;;
  ret (Qfloor (r * inject_Z (max * 2 + 1)) - max)%Z.

(** [for (let i = -maxLane; i <= maxLane; i++) availableLanes.push (i)]. *)
Definition lanesOf (laneCount : Z) : list Z :=
  let maxLane := (laneCount / 2)%Z in
  map (fun i => (Z.of_nat i - maxLane)%Z) (seq 0 (Z.to_nat (2 * maxLane + 1))).

(** The lanes, sorted with the random comparator. *)
Definition shuffledLanes : M (list Z) :=
  fun s => let (l, c) := sortRandom f (lanesOf (laneCount f)) (rolls s) in
           (l, mkPlan (keptObjects s) c (uuid s) (nextLetter s) (hasChanges s)).

Definition laneX (lane : Z) : Q := inject_Z lane * LANE_WIDTH.

Definition lengthZ {A} (l : list A) : Z := Z.of_nat (List.length l).

(** [Math.floor (Math.random () * n)]. *)
Definition randomBelow (n : Z) : M Z :=
  r <- mathRandom ;; ret (Qfloor (r * inject_Z n)).

(** ** 2. Spawning logic *)

Definition isStatic (o : GameObject) : bool :=
  negb (type o =? MISSILE)%obj && negb (type o =? DRONE)%obj.

Definition furthestZ (kept : list GameObject) : Q :=
  match map (fun o => at2 (position o)) (filter isStatic kept) with
  | z :: zs => Num.minList z zs
  | [] => -20
  end.

Definition spawnGate (kept : list GameObject) : bool :=
  furthestZ kept >? - SPAWN_DISTANCE.

Definition config : DifficultyConfig := getDifficultyConfig (level f).

Definition spawnZ (kept : list GameObject) : Q :=
  let minGap_ := minGap config + speed f * 0.3 in
  Qmin (furthestZ kept - minGap_) (- SPAWN_DISTANCE).

Definition isLetterDue (distanceTraveled_ : Q) : M bool :=
  fun s => (distanceTraveled_ >=? nextLetter s, s).

Definition target : list string := ["G"; "E"; "M"; "I"; "N"; "I"]%string.

Definition availableIndices : list Z :=
  filter (fun i => negb (existsb (Z.eqb i) (collectedLetters f)))
         (map Z.of_nat (seq 0 (List.length target))).

Definition index {A} (l : list A) (i : option Z) : option A :=
  match i with
  | Some k => if (k <? 0)%Z then None else nth_error l (Z.to_nat k)
  | None => None
  end.

Definition letterDue (z : Q) : M unit :=
  lane <- getRandomLane (laneCount f) ;;
  if (0 <? List.length availableIndices)%nat then
    k <- randomBelow (lengthZ availableIndices) ;;
    let chosenIndex := index availableIndices (Some k) in
    push (fun u =>
      mkGameObject u LETTER (mkTriple (laneX lane) 1.0 z) true
        (index target chosenIndex) (index GEMINI_COLORS chosenIndex)
        chosenIndex None None None None None) ;;;
    advanceNextLetter (getLetterInterval (level f)) ;;;
    setHasChanges
  else
    push (fun u =>
      mkGameObject u GEM (mkTriple (laneX lane) 1.2 z) true
        None (Some "#00ffff"%string) None (Some (gemBaseValue config))
        None None None None) ;;;
    setHasChanges.

Definition laserGate (z : Q) : M unit :=
  let gateWidth := Z.min (2 + level f / 3) (laneCount f) in
  push (fun u =>
    mkGameObject u LASER_GATE (mkTriple 0 0.8 z) true
      (Some (NilZero.string_of_int (Z.to_int gateWidth)))
      (Some "#ff0000"%string) None None None None None (Some true)).

Definition movingBarrier (z : Q) : M unit :=
  lane <- getRandomLane (laneCount f) ;;
  r <- mathRandom ;;
  push (fun u =>
    mkGameObject u BARRIER (mkTriple (laneX lane) 1.25 z) true
      None (Some "#ff6600"%string) None None None
      (Some (if r >? 0.5 then 1 else -1))
      (Some (3 + inject_Z (level f) * 0.5)) None).

Definition spikeFloors (z : Q) : M unit :=
  availableLanes <- shuffledLanes ;;
  k <- randomBelow 3 ;;
  let spikeCount := Z.min (1 + k) (lengthZ availableLanes) in
  forEach (firstn (Z.to_nat spikeCount) availableLanes) (fun lane =>
    push (fun u => literal u SPIKE_FLOOR (mkTriple (laneX lane) 0 z) "#cc0000")).

Definition turret (z : Q) : M unit :=
  lane <- getRandomLane (laneCount f) ;;
  push (fun u =>
    mkGameObject u TURRET (mkTriple (laneX lane) 0.2 z) true
      None (Some "#666666"%string) None None (Some false) None None None).

Definition drone (z : Q) : M unit :=
  lane <- getRandomLane (laneCount f) ;;
  push (fun u => literal u DRONE (mkTriple (laneX lane) 1.5 z) "#111111").

Definition aliens (z : Q) : M unit :=
  availableLanes <- shuffledLanes ;;
  pAlien <- mathRandom ;;
  let n := lengthZ availableLanes in
  let c1 := if pAlien >? 0.7 then Z.min 2 n else 1%Z in
  let alienCount := if (pAlien >? 0.9) && (n >=? 3)%Z then 3%Z else c1 in
  forEach (firstn (Z.to_nat alienCount) availableLanes) (fun lane =>
    push (fun u =>
      mkGameObject u ALIEN (mkTriple (laneX lane) 1.5 z) true
        None (Some "#00ff00"%string) None None (Some false) None None None)).

Definition powerup (x y z : Q) : M unit :=
  r <- mathRandom ;;
  let isShield := r >? 0.5 in
  push (fun u =>
    literal u (if isShield then SHIELD else MAGNET) (mkTriple x y z)
      (if isShield then "#00ffff" else "#d000ff")).

Definition gem (x y z : Q) (c : string) (pts : Q) : M unit :=
  push (fun u =>
    mkGameObject u GEM (mkTriple x y z) true None (Some c) None (Some pts)
      None None None None).

Definition standardObstacles (z : Q) : M unit :=
  availableLanes <- shuffledLanes ;;
  p <- mathRandom ;;
  let n := lengthZ availableLanes in
  let countToSpawn :=
    if p >? tripleObstacleChance config then Z.min 3 n
    else if p >? multiObstacleChance config then Z.min 2 n
    else 1%Z in
  forEach (firstn (Z.to_nat countToSpawn) availableLanes) (fun lane =>
    push (fun u =>
      literal u OBSTACLE (mkTriple (laneX lane) (OBSTACLE_HEIGHT / 2) z)
        "#ff0054") ;;;
    topRoll <- mathRandom ;;
    if topRoll <? powerupChance config then
      powerup (laneX lane) (OBSTACLE_HEIGHT + 1.0) z
    else if topRoll <? 0.3 then
      gem (laneX lane) (OBSTACLE_HEIGHT + 1.0) z "#ffd700"
        (gemBonusValue config)
    else ret tt).

Definition obstacles (z : Q) : M unit :=
  obstacleRoll <- mathRandom ;;
  if (level f >=? 4)%Z && (obstacleRoll <? 0.10) then laserGate z
  else if (level f >=? 5)%Z && (obstacleRoll <? 0.18) then movingBarrier z
  else if (level f >=? 3)%Z && (obstacleRoll <? 0.30) then spikeFloors z
  else if (level f >=? 6)%Z && (obstacleRoll <? 0.38) then turret z
  else
    r1 <- mathRandom ;;
    if r1 <? droneChance config then drone z
    else
      r2 <- mathRandom ;;
      if r2 <? alienChance config then aliens z
      else standardObstacles z.

(** In the source the [&&] short-circuits: the roll is drawn only from the
    unlock level on. *)
Definition unlockedRoll (unlocked : bool) (p : Q) : M bool :=
  if unlocked then r <- mathRandom ;; ret (r <? p) else ret false.

Definition groundItems (z : Q) : M unit :=
  lane <- getRandomLane (laneCount f) ;;
  jump <- unlockedRoll (level f >=? 4)%Z 0.03 ;;
  if jump then
    push (fun u => literal u JUMP_PAD (mkTriple (laneX lane) 0.1 z) "#00ff88")
  else
    boost <- unlockedRoll (level f >=? 7)%Z 0.03 ;;
    if boost then
      push (fun u =>
        literal u SPEED_BOOST (mkTriple (laneX lane) 0.5 z) "#ffaa00")
    else
      r <- mathRandom ;;
      if r <? powerupChance config then powerup (laneX lane) 1.2 z
      else gem (laneX lane) 1.2 z "#00ffff" (gemBaseValue config).

(** The decision taken once the gate is open, for the spawn point [z]. *)
Definition spawnAt (distanceTraveled_ z : Q) : M unit :=
  due <- isLetterDue distanceTraveled_ ;;
  if due then letterDue z
  else
    r <- mathRandom ;;
    if r >? 0.1 then
      (isObstacle <- (r' <- mathRandom ;; ret (r' <? obstacleChance config)) ;;
       if isObstacle then obstacles z else groundItems z) ;;;
      setHasChanges
    else ret tt.

Definition spawning (distanceTraveled_ : Q) : M unit :=
  fun s =>
    let kept := keptObjects s in
    if spawnGate kept then spawnAt distanceTraveled_ (spawnZ kept) s
    else (tt, s).

End Planner.

(** ** The frame callback *)

Definition playerPosOf (f : Frame) : Vector3 :=
  match playerObj f with
  | Some p => p
  | None => mkVector3 0 0 0
  end.

Definition safeDeltaOf (f : Frame) : Q := Qmin (delta f) 0.05.

Record Tick := mkTick {
  t_refs : Refs;
  t_events : list Event;
  t_changes : bool                  (* setRenderTrigger was called *)
}.

Definition runLoop (f : Frame) (r : Refs) : Loop :=
  let safeDelta := safeDeltaOf f in
  loop (laneCount f) (speed f * safeDelta) safeDelta (playerPosOf f)
       (now f <? magnetEndTime f)
       (objectsRef r) (mkLoop [] [] [] [] false (uuidNext r)).

Definition tick (f : Frame) (r : Refs) : Tick :=
  if GameStatus_beq (status f) PLAYING then
    let dist := speed f * safeDeltaOf f in
    let distanceTraveled_ := distanceTraveled r + dist in
    let l := runLoop f r in
    let keptObjects_ :=
      if (0 <? List.length (l_new l))%nat then l_kept l ++ l_new l
      else l_kept l in
    let '(_, p) :=
      spawning f distanceTraveled_
        (mkPlan keptObjects_ 0 (l_uuid l) (nextLetterDistance r) (l_changes l)) in
    mkTick
      (mkRefs (if hasChanges p then keptObjects p else l_all l)
              distanceTraveled_ (nextLetter p) (uuid p))
      (l_events l)
      (hasChanges p)
  else mkTick r [] false.

(** A run: the callback called once per frame. *)
Fixpoint run (fs : list Frame) (r : Refs) : Refs * list Event :=
  match fs with
  | [] => (r, [])
  | f :: rest =>
      let t := tick f r in
      let (r', evs) := run rest (t_refs t) in
      (r', t_events t ++ evs)
  end.

(** ** The store the callbacks of the loop act on

    [src/store.ts]: the state and its actions, each action a function from
    the state before to the state after; [Date.now ()] is an argument. *)

Module Store.

Record LeaderboardEntry := mkEntry {
  name : string;
  entryScore : Q;                   (* score *)
  date : Q
}.

Record GameState := mkGameState {
  status : GameStatus;
  score : Q;
  totalScore : Q;
  lives : Z;
  maxLives : Z;
  speed : Q;
  collectedLetters : list Z;
  level : Z;
  laneCount : Z;
  gemsCollected : Z;
  distance : Z;
  hasDoubleJump : bool;
  hasImmortality : bool;
  isImmortalityActive : bool;
  magnetEndTime : Q;
  shieldEndTime : Q;
  leaderboard : list LeaderboardEntry
}.

Definition GEMINI_TARGET : list string := ["G"; "E"; "M"; "I"; "N"; "I"]%string.
Definition MAX_LEVEL : Z := 3.
Definition POWERUP_DURATION : Q := 10000.
Definition RUN_SPEED_BASE : Q := 22.5.
Definition START_SPEED : Q := RUN_SPEED_BASE * 0.5.
Definition SPEED_INCREMENT_PER_100 : Q := 0.1.

Definition set_status (s : GameState) (v : GameStatus) : GameState :=
  mkGameState v (score s) (totalScore s) (lives s) (maxLives s) (speed s)
    (collectedLetters s) (level s) (laneCount s) (gemsCollected s) (distance s)
    (hasDoubleJump s) (hasImmortality s) (isImmortalityActive s)
    (magnetEndTime s) (shieldEndTime s) (leaderboard s).

Definition set_score (s : GameState) (v : Q) : GameState :=
  mkGameState (status s) v (totalScore s) (lives s) (maxLives s) (speed s)
    (collectedLetters s) (level s) (laneCount s) (gemsCollected s) (distance s)
    (hasDoubleJump s) (hasImmortality s) (isImmortalityActive s)
    (magnetEndTime s) (shieldEndTime s) (leaderboard s).

Definition set_totalScore (s : GameState) (v : Q) : GameState :=
  mkGameState (status s) (score s) v (lives s) (maxLives s) (speed s)
    (collectedLetters s) (level s) (laneCount s) (gemsCollected s) (distance s)
    (hasDoubleJump s) (hasImmortality s) (isImmortalityActive s)
    (magnetEndTime s) (shieldEndTime s) (leaderboard s).

Definition set_lives (s : GameState) (v : Z) : GameState :=
  mkGameState (status s) (score s) (totalScore s) v (maxLives s) (speed s)
    (collectedLetters s) (level s) (laneCount s) (gemsCollected s) (distance s)
    (hasDoubleJump s) (hasImmortality s) (isImmortalityActive s)
    (magnetEndTime s) (shieldEndTime s) (leaderboard s).

Definition set_maxLives (s : GameState) (v : Z) : GameState :=
  mkGameState (status s) (score s) (totalScore s) (lives s) v (speed s)
    (collectedLetters s) (level s) (laneCount s) (gemsCollected s) (distance s)
    (hasDoubleJump s) (hasImmortality s) (isImmortalityActive s)
    (magnetEndTime s) (shieldEndTime s) (leaderboard s).

Definition set_speed (s : GameState) (v : Q) : GameState :=
  mkGameState (status s) (score s) (totalScore s) (lives s) (maxLives s) v
    (collectedLetters s) (level s) (laneCount s) (gemsCollected s) (distance s)
    (hasDoubleJump s) (hasImmortality s) (isImmortalityActive s)
    (magnetEndTime s) (shieldEndTime s) (leaderboard s).

Definition set_collectedLetters (s : GameState) (v : list Z) : GameState :=
  mkGameState (status s) (score s) (totalScore s) (lives s) (maxLives s)
    (speed s) v (level s) (laneCount s) (gemsCollected s) (distance s)
    (hasDoubleJump s) (hasImmortality s) (isImmortalityActive s)
    (magnetEndTime s) (shieldEndTime s) (leaderboard s).

Definition set_level (s : GameState) (v : Z) : GameState :=
  mkGameState (status s) (score s) (totalScore s) (lives s) (maxLives s)
    (speed s) (collectedLetters s) v (laneCount s) (gemsCollected s)
    (distance s) (hasDoubleJump s) (hasImmortality s) (isImmortalityActive s)
    (magnetEndTime s) (shieldEndTime s) (leaderboard s).

Definition set_laneCount (s : GameState) (v : Z) : GameState :=
  mkGameState (status s) (score s) (totalScore s) (lives s) (maxLives s)
    (speed s) (collectedLetters s) (level s) v (gemsCollected s) (distance s)
    (hasDoubleJump s) (hasImmortality s) (isImmortalityActive s)
    (magnetEndTime s) (shieldEndTime s) (leaderboard s).



Definition set_hasDoubleJump (s : GameState) (v : bool) : GameState :=
  mkGameState (status s) (score s) (totalScore s) (lives s) (maxLives s)
    (speed s) (collectedLetters s) (level s) (laneCount s) (gemsCollected s)
    (distance s) v (hasImmortality s) (isImmortalityActive s) (magnetEndTime s)
    (shieldEndTime s) (leaderboard s).

Definition set_hasImmortality (s : GameState) (v : bool) : GameState :=
  mkGameState (status s) (score s) (totalScore s) (lives s) (maxLives s)
    (speed s) (collectedLetters s) (level s) (laneCount s) (gemsCollected s)
    (distance s) (hasDoubleJump s) v (isImmortalityActive s) (magnetEndTime s)
    (shieldEndTime s) (leaderboard s).



Definition set_shieldEndTime (s : GameState) (v : Q) : GameState :=
  mkGameState (status s) (score s) (totalScore s) (lives s) (maxLives s)
    (speed s) (collectedLetters s) (level s) (laneCount s) (gemsCollected s)
    (distance s) (hasDoubleJump s) (hasImmortality s) (isImmortalityActive s)
    (magnetEndTime s) v (leaderboard s).

Definition set_leaderboard (s : GameState) (v : list LeaderboardEntry) : GameState :=
  mkGameState (status s) (score s) (totalScore s) (lives s) (maxLives s)
    (speed s) (collectedLetters s) (level s) (laneCount s) (gemsCollected s)
    (distance s) (hasDoubleJump s) (hasImmortality s) (isImmortalityActive s)
    (magnetEndTime s) (shieldEndTime s) v.

Definition calculateSpeed (totalScore_ : Q) : Q :=
  let increments := Qfloor (totalScore_ / 100) in
  START_SPEED * (1 + inject_Z increments * SPEED_INCREMENT_PER_100).

(** The state [create] starts from, for the leaderboard loaded. *)
Definition initial (board : list LeaderboardEntry) : GameState :=
  mkGameState MENU 0 0 3 3 0 [] 1 3 0 0 false false false 0 0 board.

(** [startGame] and [restartGame] set the same fields. *)
Definition startGame (s : GameState) : GameState :=
  mkGameState PLAYING 0 0 3 3 START_SPEED [] 1 3 0 0 false false false 0 0
    (leaderboard s).

Definition restartGame (s : GameState) : GameState := startGame s.

Definition takeDamage (now_ : Q) (s : GameState) : GameState :=
  if isImmortalityActive s || (now_ <? shieldEndTime s) then s
  else if (lives s >? 1)%Z then set_lives s (lives s - 1)%Z
  else set_speed (set_status (set_lives s 0%Z) GAME_OVER) 0.

(** The three fields [addScore], [collectGem] and [collectLetter] write
    together. *)
Definition scored (s : GameState) (amount : Q) : GameState :=
  let newScore := score s + amount in
  let newTotal := totalScore s + amount in
  set_speed (set_totalScore (set_score s newScore) newTotal)
    (calculateSpeed newTotal).




Definition advanceLevel (s : GameState) : GameState :=
  let nextLevel := (level s + 1)%Z in
  set_collectedLetters
    (set_status
       (set_laneCount (set_level s nextLevel) (Z.min (laneCount s + 2) 9))
       PLAYING)
    [].

Definition includes (l : list Z) (i : Z) : bool := existsb (Z.eqb i) l.

Definition collectLetter (index_ : Z) (s : GameState) : GameState :=
  if negb (includes (collectedLetters s) index_) then
    let newLetters := collectedLetters s ++ [index_] in
    let points_ := 100 in
    let s1 := set_collectedLetters (scored s points_) newLetters in
    if (List.length newLetters =? List.length GEMINI_TARGET)%nat then
      if (level s <? MAX_LEVEL)%Z then advanceLevel s1
      else
        set_speed
          (set_totalScore
             (set_score (set_status s1 VICTORY) (score s1 + 5000))
             (totalScore s1 + 5000))
          (calculateSpeed (totalScore s1 + 5000))
    else s1
  else s.


Inductive Item := DOUBLE_JUMP | MAX_LIFE | HEAL | IMMORTAL.

Definition buyItem (type_ : Item) (cost : Q) (s : GameState) : bool * GameState :=
  if score s >=? cost then
    let s1 := set_score s (score s - cost) in
    (true,
     match type_ with
     | DOUBLE_JUMP => set_hasDoubleJump s1 true
     | MAX_LIFE => set_lives (set_maxLives s1 (maxLives s + 1)%Z) (lives s + 1)%Z
     | HEAL => set_lives s1 (Z.min (lives s + 1) (maxLives s))
     | IMMORTAL => set_hasImmortality s1 true
     end)
  else (false, s).




Definition activateShield (now_ : Q) (s : GameState) : GameState :=
  set_shieldEndTime s (now_ + POWERUP_DURATION).


Definition isHighScore (score_ : Q) (s : GameState) : bool :=
  if score_ <=? 0 then false
  else if (List.length (leaderboard s) <? 5)%nat then true
  else match last (map Some (leaderboard s)) None with
       | Some e => score_ >? entryScore e
       | None => false
       end.

(** [Array.prototype.sort ((a, b) => b.score - a.score)]: the sort is stable,
    so the result is the one an insertion from the right builds, an entry
    going before the first one whose score is not greater than its own. *)
Fixpoint insertEntry (e : LeaderboardEntry) (l : list LeaderboardEntry)
  : list LeaderboardEntry :=
  match l with
  | [] => [e]
  | x :: rest =>
      if entryScore x >? entryScore e then x :: insertEntry e rest
      else e :: l
  end.

Definition sortByScore (l : list LeaderboardEntry) : list LeaderboardEntry :=
  fold_right insertEntry [] l.

(** [saveScore]; the board is also written to local storage. *)
Definition saveScore (name_ : string) (now_ : Q) (s : GameState) : GameState :=
  let newEntry := mkEntry name_ (score s) now_ in
  let newBoard := firstn 5 (sortByScore (leaderboard s ++ [newEntry])) in
  set_leaderboard s newBoard.

End Store.

(** ** Resets and transitions of LevelManager

    The effect that runs when the status or the level of the store changes. *)

Record Prev := mkPrev {
  prevStatus : GameStatus;
  prevLevel : Z
}.

Definition shopPortal (u : nat) : GameObject :=
  mkGameObject u SHOP_PORTAL (mkTriple 0 0 (-100)) true None None None None
    None None None None.

(** The refs after the effect, the remembered status and level, and the
    argument of [setDistance] if it is called. *)
Definition onStatusOrLevel (st : GameStatus) (lvl : Z) (p : Prev) (r : Refs)
  : Refs * Prev * option Z :=
  let isRestart :=
    GameStatus_beq st PLAYING && GameStatus_beq (prevStatus p) GAME_OVER in
  let isMenuReset := GameStatus_beq st MENU in
  let isLevelUp := negb (lvl =? prevLevel p)%Z && GameStatus_beq st PLAYING in
  let isVictoryReset :=
    GameStatus_beq st PLAYING && GameStatus_beq (prevStatus p) VICTORY in
  let p' := mkPrev st lvl in
  if isMenuReset || isRestart || isVictoryReset then
    (mkRefs [] 0 (getLetterInterval 1) (uuidNext r), p', None)
  else if isLevelUp && (lvl >? 1)%Z then
    (mkRefs (filter (fun obj => at2 (position obj) >? -80) (objectsRef r)
             ++ [shopPortal (uuidNext r)])
            (distanceTraveled r)
            (distanceTraveled r - SPAWN_DISTANCE + getLetterInterval lvl)
            (S (uuidNext r)),
     p', None)
  else if GameStatus_beq st GAME_OVER || GameStatus_beq st VICTORY then
    (r, p', Some (Qfloor (distanceTraveled r)))
  else (r, p', None).

(** ** Vocabulary of the statements *)

(** The loop body as the callback instantiates it for a frame. *)
Definition bodyOf (f : Frame) (u : nat) (obj : GameObject) : Step :=
  loopBody (laneCount f) (speed f * safeDeltaOf f) (safeDeltaOf f)
    (playerPosOf f) (now f <? magnetEndTime f) u obj.

(** The iterations of the loop over an array, with the handle counter
    threaded through. *)
Fixpoint steps (body : nat -> GameObject -> Step) (u : nat)
  (objs : list GameObject) : list Step :=
  match objs with
  | [] => []
  | obj :: rest =>
      let s := body u obj in
      s :: steps body (u + List.length (s_spawns s)) rest
  end.

(** The iterations one object goes through while it stays registered, one per
    frame; [us] gives the handle counter at each of them. *)
Fixpoint lifetime (fs : list (Frame * nat)) (obj : GameObject) : list Step :=
  match fs with
  | [] => []
  | (f, u) :: rest =>
      let s := bodyOf f u obj in
      s :: lifetime rest (s_obj s)
  end.

(** The missiles an object fires over its iterations. *)
Definition fired (l : list Step) : list GameObject := flat_map s_spawns l.

(** A planner action only appends to [keptObjects], and what it appends
    satisfies [P]. *)
Definition Appends {A} (P : GameObject -> Prop) (m : M A) : Prop :=
  forall s, exists l,
    keptObjects (snd (m s)) = keptObjects s ++ l /\ Forall P l.

(** The rolls of a frame are numbers of [0, 1), as [Math.random] returns. *)
Definition unitRolls (f : Frame) : Prop :=
  forall n, 0 <= random f n /\ random f n < 1.

(** The same frame with another player object. *)
Definition withPlayer (f : Frame) (p : option Vector3) : Frame :=
  mkFrame (status f) (speed f) (laneCount f) (level f) (collectedLetters f)
    (magnetEndTime f) (now f) (delta f) p (random f) (sortRandom f).

(** The vertical band of a damage source as the specification tabulates it:
    by type, [y] being the vertical coordinate of the object. *)
Definition specBand (t : ObjectType) (y : Q) : Q * Q :=
  match t with
  | OBSTACLE => (0, 1.6)
  | MISSILE => (0.5, 1.5)
  | LASER_GATE => (0.5, 1.2)
  | BARRIER => (0, 2.5)
  | SPIKE_FLOOR => (0, 0.8)
  | TURRET => (0, 0.8)
  | _ => (y - 0.5, y + 0.5)
  end.

(** The lateral threshold as the specification gives it. *)
Definition specHitDist (t : ObjectType) : Q :=
  match t with
  | MAGNET | SHIELD => 1.5
  | _ => 0.9
  end.

(** The lane boundary read literally from the specification: half the lane
    count times the lane width. *)
Definition specBoundary (laneCount_ : Z) : Q :=
  inject_Z laneCount_ / 2 * LANE_WIDTH.

(** The trigger threshold of a firing type. *)
Definition trigger (t : ObjectType) : Q :=
  match t with TURRET => -80 | _ => -90 end.

(** The missile a firing object of type [t] at lane [x], forward [z], pushes. *)
Definition missileOf (t : ObjectType) (u : nat) (x z : Q) : GameObject :=
  match t with
  | TURRET => literal u MISSILE (mkTriple x 0.8 (z + 2)) "#ffaa00"
  | _ => literal u MISSILE (mkTriple x 1.0 (z + 2)) "#ff0000"
  end.

Definition burstOf (t : ObjectType) : string :=
  match t with TURRET => "#ffaa00" | _ => "#ff00ff" end%string.

(** The firing condition of the body, on the object as the iteration
    receives it. *)
Definition fires (d sd : Q) (obj : GameObject) : Prop :=
  (type obj = TURRET \/ type obj = ALIEN) /\ active obj = true
  /\ notFired obj = true
  /\ trigger (type obj) < at2 (position (standardMovement d sd obj)).

(** What the planner pushes is active and sits at the spawn point. *)
Definition spawnedAt (z : Q) (o : GameObject) : Prop :=
  at2 (position o) = z /\ active o = true.

(** A planner action ends with [hasChanges] set. *)
Definition SetsChanges {A} (m : M A) : Prop :=
  forall s, hasChanges (snd (m s)) = true.

(** Either a planner action sets [hasChanges], or it leaves the array, the
    flag, the threshold and the handle counter as they were. *)
Definition ChangesOrSame {A} (m : M A) : Prop :=
  forall s,
    hasChanges (snd (m s)) = true
    \/ (keptObjects (snd (m s)) = keptObjects s
        /\ hasChanges (snd (m s)) = hasChanges s
        /\ nextLetter (snd (m s)) = nextLetter s
        /\ uuid (snd (m s)) = uuid s).

(** The registry holds an object with handle [i], and it is inactive. *)
Definition registeredInactive (i : nat) (r : Refs) : bool :=
  existsb (fun o => (id o =? i)%nat && negb (active o)) (objectsRef r).

Definition registeredActive (i : nat) (r : Refs) : bool :=
  existsb (fun o => (id o =? i)%nat && active o) (objectsRef r).

(** The lane [getRandomLane] draws from the roll [r]. *)
Definition laneOfRoll (laneCount_ : Z) (r : Q) : Z :=
  (Qfloor (r * inject_Z (laneCount_ / 2 * 2 + 1)) - laneCount_ / 2)%Z.




(** The level from which the planner may spawn a type; the planner never
    spawns a portal or a missile. *)
Definition unlockedAt (lvl : Z) (t : ObjectType) : Prop :=
  match t with
  | LASER_GATE => (4 <= lvl)%Z
  | BARRIER => (5 <= lvl)%Z
  | SPIKE_FLOOR => (3 <= lvl)%Z
  | TURRET => (6 <= lvl)%Z
  | DRONE | ALIEN => (2 <= lvl)%Z
  | JUMP_PAD => (4 <= lvl)%Z
  | SPEED_BOOST => (7 <= lvl)%Z
  | SHOP_PORTAL | MISSILE => False
  | OBSTACLE | GEM | LETTER | MAGNET | SHIELD => True
  end.


(** A leaderboard in descending order of score. *)
Fixpoint descending (l : list Store.LeaderboardEntry) : Prop :=
  match l with
  | [] => True
  | x :: rest =>
      (forall y, In y rest -> Store.entryScore y <= Store.entryScore x)
      /\ descending rest
  end.

(** ** Sample frames and objects *)

Module Sample.

Definition origin : Vector3 := mkVector3 0 0 0.

(** A frame at speed 20 and 50 ms whose rolls are all [c]. *)
Definition frame (player : option Vector3) (lvl : Z) (collected : list Z)
  (dt c : Q) : Frame :=
  mkFrame PLAYING 20 3 lvl collected 0 1 dt player (fun _ => c)
    (fun l k => (l, k)).

Definition quiet : Frame := frame (Some origin) 1 [] 0.05 0.05.

Definition magnetised (dt : Q) : Frame :=
  mkFrame PLAYING 20 3 1 [] 10 1 dt (Some origin) (fun _ => 0.05)
    (fun l k => (l, k)).

Definition obstacle (z : Q) : GameObject :=
  literal 7 OBSTACLE (mkTriple 0 0.8 z) "#ff0054".

Definition droneAt (x z : Q) : GameObject :=
  literal 3 DRONE (mkTriple x 1.5 z) "#111111".

Definition gemAt (x z : Q) : GameObject :=
  mkGameObject 4 GEM (mkTriple x 1.2 z) true None (Some "#00ffff"%string)
    None (Some 50) None None None None.

Definition turretAt (z : Q) : GameObject :=
  mkGameObject 5 TURRET (mkTriple 2.2 0.2 z) true None
    (Some "#666666"%string) None None (Some false) None None None.

Definition barrierAt (x d : Q) : GameObject :=
  mkGameObject 6 BARRIER (mkTriple x 1.25 (-50)) true None
    (Some "#ff6600"%string) None None None (Some d) (Some 3) None.

Definition refs (objs : list GameObject) (travelled : Q) : Refs :=
  mkRefs objs travelled 200 100.

End Sample.

(** * Properties *)

(** ** Comparisons and arithmetic *)

Lemma ltb_lt (a b : Q) : (a <? b) = true <-> a < b.
Proof.
  unfold Num.ltb. rewrite Qlt_alt. destruct (a ?= b); split; congruence.
Qed.

Lemma ltb_ge (a b : Q) : (a <? b) = false <-> b <= a.
Proof.
  rewrite <- Bool.not_true_iff_false, ltb_lt. split.
  - apply Qnot_lt_le.
  - apply Qle_not_lt.
Qed.

Lemma gtb_gt (a b : Q) : (a >? b) = true <-> b < a.
Proof. apply ltb_lt. Qed.

Lemma gtb_le (a b : Q) : (a >? b) = false <-> a <= b.
Proof. apply ltb_ge. Qed.

Lemma geb_ge (a b : Q) : (a >=? b) = true <-> b <= a.
Proof. unfold Num.geb. rewrite Bool.negb_true_iff. apply ltb_ge. Qed.

(** The boolean test of the embedding is the source's test on the real
    square root. *)
Lemma sqrt_lt_squares (s r : Q) :
  0 <= s -> 0 <= r ->
  (Num.sqrt_ltb s r = true <-> (sqrt (Q2R s) < Q2R r)%R).
Proof.
  intros Hs Hr. unfold Num.sqrt_ltb. rewrite ltb_lt.
  apply Qle_Rle in Hs, Hr. rewrite RMicromega.Q2R_0 in Hs, Hr.
  split; intro H.
  - apply Qlt_Rlt in H. rewrite Q2R_mult in H.
    rewrite <- (sqrt_square (Q2R r)) by exact Hr.
    apply sqrt_lt_1; try assumption. Lra.nra.
  - apply Rlt_Qlt. rewrite Q2R_mult.
    apply sqrt_lt_0; try Lra.nra.
    rewrite sqrt_square by exact Hr. exact H.
Qed.

Lemma lerp_step (x y t : Q) : Num.lerp x y t == x + (y - x) * t.
Proof. unfold Num.lerp. ring. Qed.

Lemma minList_le_head (t : list Q) (h : Q) : Num.minList h t <= h.
Proof.
  unfold Num.minList. revert h.
  induction t as [|a t IH]; intro h; simpl.
  - apply Qle_refl.
  - eapply Qle_trans; [apply IH | apply Q.le_min_l].
Qed.

Lemma minList_le_tail (t : list Q) (h q : Q) : In q t -> Num.minList h t <= q.
Proof.
  unfold Num.minList. revert h.
  induction t as [|a t IH]; intros h Hin; simpl in *.
  - contradiction.
  - destruct Hin as [-> | Hin].
    + eapply Qle_trans; [apply (minList_le_head t) | apply Q.le_min_r].
    + apply IH, Hin.
Qed.

Lemma minList_attained (t : list Q) (h : Q) : In (Num.minList h t) (h :: t).
Proof.
  unfold Num.minList. revert h.
  induction t as [|a t IH]; intro h; simpl.
  - now left.
  - destruct (IH (Qmin h a)) as [E | Hin].
    + rewrite <- E. unfold Qmin, GenericMinMax.gmin.
      destruct (h ?= a); auto.
    + auto.
Qed.

(** ** The loop is the list of its iterations *)

Lemma loop_steps lc d sd pp mg (objs : list GameObject) (acc : Loop) :
  let ss := steps (loopBody lc d sd pp mg) (l_uuid acc) objs in
  loop lc d sd pp mg objs acc
  = mkLoop (l_all acc ++ map s_obj ss)
           (l_kept acc ++ map s_obj (filter s_keep ss))
           (l_new acc ++ flat_map s_spawns ss)
           (l_events acc ++ flat_map s_events ss)
           (l_changes acc || existsb s_changes ss)
           (l_uuid acc + List.length (flat_map s_spawns ss)).
Proof.
  revert acc. induction objs as [|obj rest IH]; intros acc; cbn zeta.
  - simpl. rewrite !app_nil_r, Bool.orb_false_r, Nat.add_0_r.
    now destruct acc.
  - cbn [loop steps]. rewrite IH. cbn [l_all l_kept l_new l_events l_changes l_uuid].
    set (s := loopBody lc d sd pp mg (l_uuid acc) obj).
    cbn [map filter flat_map existsb].
    rewrite <- !app_assoc, Bool.orb_assoc, length_app, Nat.add_assoc.
    f_equal. destruct (s_keep s); cbn [map]; now rewrite <- ?app_assoc.
Qed.

Lemma runLoop_steps (f : Frame) (r : Refs) :
  let ss := steps (bodyOf f) (uuidNext r) (objectsRef r) in
  runLoop f r
  = mkLoop (map s_obj ss) (map s_obj (filter s_keep ss))
           (flat_map s_spawns ss) (flat_map s_events ss)
           (existsb s_changes ss)
           (uuidNext r + List.length (flat_map s_spawns ss)).
Proof.
  unfold runLoop. rewrite loop_steps. reflexivity.
Qed.


(** Every iteration of the loop is the body run on an object of the array. *)
Lemma steps_In body u objs s :
  In s (steps body u objs) -> exists u' obj, In obj objs /\ s = body u' obj.
Proof.
  revert u. induction objs as [|o rest IH]; intros u Hin; simpl in Hin.
  - contradiction.
  - destruct Hin as [<- | Hin].
    + exists u, o. split; [now left | reflexivity].
    + destruct (IH _ Hin) as (u' & obj & Hobj & ->).
      exists u', obj. split; [now right | reflexivity].
Qed.

(** Conversely every object of the array is iterated over. *)
Lemma steps_covers body u objs obj :
  In obj objs -> exists u', In (body u' obj) (steps body u objs).
Proof.
  revert u. induction objs as [|o rest IH]; intros u Hin; simpl in Hin.
  - contradiction.
  - destruct Hin as [-> | Hin].
    + exists u. now left.
    + destruct (IH (u + List.length (s_spawns (body u o)))%nat Hin) as [u' H].
      exists u'. now right.
Qed.

(** ** What each block of the body touches *)

Arguments Num.ltb : simpl never.
Arguments Num.gtb : simpl never.
Arguments Num.sqrt_ltb : simpl never.
Arguments Num.lerp : simpl never.
Arguments Num.orDefault : simpl never.
Arguments Qabs : simpl never.

Ltac case_if :=
  match goal with
  | |- context [if ?b then _ else _] => destruct b eqn:?
  end.

Section Blocks.

Variable lc : Z.
Variables d sd : Q.
Variable pp : Vector3.
Variable mg : bool.

(** The four behaviour blocks in sequence: movement, magnet, drone,
    barrier. *)
Let behaved (obj : GameObject) : GameObject :=
  barrierLogic lc sd (droneLogic sd pp (magnetLogic sd pp mg
    (standardMovement d sd obj))).

Lemma magnetLogic_other o : type o <> GEM -> magnetLogic sd pp mg o = o.
Proof.
  intro H. unfold magnetLogic.
  destruct (type o); try congruence; simpl;
    now rewrite ?Bool.andb_false_r.
Qed.

Lemma magnetLogic_inactive o : active o = false -> magnetLogic sd pp mg o = o.
Proof.
  intro H. unfold magnetLogic. rewrite H. now rewrite Bool.andb_false_r.
Qed.

Lemma droneLogic_other o : type o <> DRONE -> droneLogic sd pp o = o.
Proof.
  intro H. unfold droneLogic. destruct (type o); try congruence; reflexivity.
Qed.

Lemma barrierLogic_other o : type o <> BARRIER -> barrierLogic lc sd o = o.
Proof.
  intro H. unfold barrierLogic. destruct (type o); try congruence; reflexivity.
Qed.

Lemma turretLogic_other u o : type o <> TURRET -> turretLogic u o = mkFired o [] [].
Proof.
  intro H. unfold turretLogic. destruct (type o); try congruence; reflexivity.
Qed.

Lemma alienLogic_other u o : type o <> ALIEN -> alienLogic u o = mkFired o [] [].
Proof.
  intro H. unfold alienLogic. destruct (type o); try congruence; reflexivity.
Qed.

(** The behaviour blocks write the position and, for a barrier, its
    direction: nothing else. *)
Lemma behaved_fields obj :
  id (behaved obj) = id obj /\ type (behaved obj) = type obj
  /\ active (behaved obj) = active obj
  /\ hasFired (behaved obj) = hasFired obj
  /\ moveSpeed (behaved obj) = moveSpeed obj.
Proof.
  unfold behaved, barrierLogic, droneLogic, magnetLogic, standardMovement.
  destruct obj as [i t p a v c ti pt hf md ms la].
  repeat case_if; cbn; auto.
Qed.

(** Only a gem, a drone or a barrier does more than advance. *)
Lemma behaved_static obj :
  type obj <> GEM -> type obj <> DRONE -> type obj <> BARRIER ->
  behaved obj = standardMovement d sd obj.
Proof.
  intros Hg Hd Hb. unfold behaved.
  assert (Ht : type (standardMovement d sd obj) = type obj) by reflexivity.
  rewrite magnetLogic_other, droneLogic_other, barrierLogic_other;
    congruence.
Qed.

Lemma collision_fields prevZ o :
  let c := collision pp prevZ o in
  id (c_obj c) = id o /\ type (c_obj c) = type o
  /\ position (c_obj c) = position o
  /\ hasFired (c_obj c) = hasFired o
  /\ moveDirection (c_obj c) = moveDirection o
  /\ moveSpeed (c_obj c) = moveSpeed o.
Proof.
  unfold collision. repeat case_if; cbn; auto 10.
Qed.

Lemma collision_hasFired prevZ o :
  hasFired (c_obj (collision pp prevZ o)) = hasFired o.
Proof. apply collision_fields. Qed.

Lemma collision_position prevZ o :
  position (c_obj (collision pp prevZ o)) = position o.
Proof. apply collision_fields. Qed.

Lemma collision_type prevZ o :
  type (c_obj (collision pp prevZ o)) = type o.
Proof. apply collision_fields. Qed.

(** An inactive object goes through the collision block untouched. *)
Lemma collision_inactive prevZ o :
  active o = false -> collision pp prevZ o = mkCollided o [] true false.
Proof. intro H. unfold collision. now rewrite H. Qed.

(** The collision block never reactivates. *)
Lemma collision_active prevZ o :
  active (c_obj (collision pp prevZ o)) = true -> active o = true.
Proof.
  unfold collision. destruct (active o) eqn:Ha; [reflexivity|].
  cbn. congruence.
Qed.

End Blocks.

(** ** Turret and alien firing *)

Lemma body_fire_cases lc d sd pp mg u obj :
  let s := loopBody lc d sd pp mg u obj in
  let o1 := standardMovement d sd obj in
  let c := collision pp (at2 (position obj)) (setHasFired o1 true) in
  (fires d sd obj
   /\ s_spawns s
      = [missileOf (type obj) u (at0 (position obj)) (at2 (position o1))]
   /\ s_events s = ParticleBurst (position o1) (burstOf (type obj)) :: c_events c
   /\ s_obj s = c_obj c)
  \/ (~ fires d sd obj /\ s_spawns s = []
      /\ s_events s = c_events (collision pp (at2 (position obj))
                                  (barrierLogic lc sd (droneLogic sd pp
                                     (magnetLogic sd pp mg o1))))
      /\ hasFired (s_obj s) = hasFired obj).
Proof.
  intros s o1 c. subst s c o1. unfold loopBody. cbn zeta.
  assert (Ht1 : type (standardMovement d sd obj) = type obj) by reflexivity.
  destruct (ObjectType_eq_dec (type obj) TURRET) as [Et | Nt];
    [| destruct (ObjectType_eq_dec (type obj) ALIEN) as [Ea | Na]].
  - (* a turret *)
    rewrite (behaved_static lc d sd pp mg obj) by congruence.
    set (o1 := standardMovement d sd obj) in *.
    unfold turretLogic. rewrite Ht1, Et. cbn [ObjectType_beq andb].
    change (active o1) with (active obj). change (notFired o1) with (notFired obj).
    destruct (active obj) eqn:Ha, (notFired obj) eqn:Hn,
      (at2 (position o1) >? -80) eqn:Hz; cbn [andb f_spawns f_obj f_events];
      try (rewrite alienLogic_other by (cbn; congruence));
      cbn [f_spawns f_obj f_events app List.length].
    1: { left. unfold fires. rewrite Ha, Hn, Et. apply gtb_gt in Hz.
         cbn [trigger missileOf burstOf]. auto 10. }
    all: right; unfold fires; rewrite ?Ha, ?Hn, Et; cbn [trigger];
      (split; [intros (_ & A & B & C); try discriminate;
               apply gtb_le in Hz; fold o1 in C; lra
              |]);
      (split; [reflexivity|]); (split; [reflexivity|]);
      cbn [s_obj]; now rewrite collision_hasFired.
  - (* an alien *)
    rewrite (behaved_static lc d sd pp mg obj) by congruence.
    set (o1 := standardMovement d sd obj) in *.
    rewrite turretLogic_other by congruence.
    cbn [f_spawns f_obj f_events app List.length]. rewrite Nat.add_0_r.
    unfold alienLogic. rewrite Ht1, Ea. cbn [ObjectType_beq andb].
    change (active o1) with (active obj). change (notFired o1) with (notFired obj).
    destruct (active obj) eqn:Ha, (notFired obj) eqn:Hn,
      (at2 (position o1) >? -90) eqn:Hz; cbn [andb f_spawns f_obj f_events app].
    1: { left. unfold fires. rewrite Ha, Hn, Ea. apply gtb_gt in Hz.
         cbn [trigger missileOf burstOf]. auto 10. }
    all: right; unfold fires; rewrite ?Ha, ?Hn, Ea; cbn [trigger];
      (split; [intros (_ & A & B & C); try discriminate;
               apply gtb_le in Hz; fold o1 in C; lra
              |]);
      (split; [reflexivity|]); (split; [reflexivity|]);
      cbn [s_obj]; now rewrite collision_hasFired.
  - (* anything else *)
    pose proof (behaved_fields lc d sd pp mg obj) as (_ & Hty & _ & Hhf & _).
    cbv zeta in Hty, Hhf.
    rewrite turretLogic_other by congruence.
    cbn [f_spawns f_obj f_events app List.length].
    rewrite alienLogic_other by congruence.
    cbn [f_spawns f_obj f_events app].
    right. split; [|split; [reflexivity | split; [reflexivity|]]].
    + intros ([E | E] & _); contradiction.
    + cbn [s_obj]. rewrite collision_hasFired. exact Hhf.
Qed.

Lemma notFired_flag obj : hasFired obj = Some true -> notFired obj = false.
Proof. unfold notFired. now intros ->. Qed.

Lemma collision_setHasFired pp prevZ o :
  hasFired (c_obj (collision pp prevZ (setHasFired o true))) = Some true.
Proof. now rewrite collision_hasFired. Qed.

(** Once the flag is set, no later iteration fires. *)
Lemma fired_after_flag fs obj :
  hasFired obj = Some true -> fired (lifetime fs obj) = [].
Proof.
  revert obj. induction fs as [|[f u] rest IH]; intros obj Hf; [reflexivity|].
  cbn [lifetime fired flat_map]. fold (fired (lifetime rest (s_obj (bodyOf f u obj)))).
  unfold bodyOf.
  destruct (body_fire_cases (laneCount f) (speed f * safeDeltaOf f)
              (safeDeltaOf f) (playerPosOf f) (now f <? magnetEndTime f) u obj)
    as [((_ & _ & Hn & _) & _) | (_ & Hs & _ & Hh)].
  - rewrite (notFired_flag _ Hf) in Hn. discriminate.
  - rewrite Hs. cbn [app]. apply IH. now rewrite Hh.
Qed.

(** C5. A Turret or an Alien fires at most once over a whole run: an
    iteration fires only if the object is an active Turret or Alien whose flag
    is unset and whose forward coordinate, after this tick's movement, is
    above the trigger threshold (-80 for a Turret, -90 for an Alien), and it
    does fire then; firing sets [hasFired], pushes exactly one active Missile
    at the firer's lane coordinate and at forward offset +2, and emits one
    particle burst before whatever the collision block emits; with the flag
    set no iteration fires and the flag stays set; hence the missiles fired
    over any sequence of frames number at most one. *)
Theorem turret_alien_fire_once :
  (forall f u obj,
      let s := bodyOf f u obj in
      let z' := at2 (position (s_obj s)) in
      (s_spawns s <> [] ->
         (type obj = TURRET \/ type obj = ALIEN)
         /\ active obj = true /\ notFired obj = true
         /\ trigger (type obj) < z'
         /\ hasFired (s_obj s) = Some true
         /\ (exists m, s_spawns s = [m] /\ type m = MISSILE /\ active m = true
                       /\ at0 (position m) = at0 (position obj)
                       /\ at0 (position m) = at0 (position (s_obj s))
                       /\ at2 (position m) = z' + 2)
         /\ s_events s
            = ParticleBurst (position (s_obj s)) (burstOf (type obj))
              :: c_events (collision (playerPosOf f) (at2 (position obj))
                             (setHasFired
                                (standardMovement (speed f * safeDeltaOf f)
                                   (safeDeltaOf f) obj) true)))
      /\ ((type obj = TURRET \/ type obj = ALIEN) -> active obj = true ->
          notFired obj = true ->
          trigger (type obj) < at2 (position obj) + speed f * safeDeltaOf f ->
          s_spawns s <> [])
      /\ (hasFired obj = Some true ->
          s_spawns s = [] /\ hasFired (s_obj s) = Some true))
  /\ (forall fs obj, (List.length (fired (lifetime fs obj)) <= 1)%nat).
Proof.
  split.
  - intros f u obj s z'. subst s z'. unfold bodyOf.
    destruct (body_fire_cases (laneCount f) (speed f * safeDeltaOf f)
                (safeDeltaOf f) (playerPosOf f) (now f <? magnetEndTime f) u obj)
      as [(Hf & Hs & He & Ho) | (Hnf & Hs & He & Hh)].
    + cbv zeta in Hs, He, Ho.
      destruct Hf as (Hty & Ha & Hn & Hz).
      rewrite Hs, He, Ho, collision_position, collision_setHasFired.
      split; [intros _; repeat split; try assumption | split].
      * exists (missileOf (type obj) u (at0 (position obj))
                  (at2 (position (standardMovement (speed f * safeDeltaOf f)
                                    (safeDeltaOf f) obj)))).
        destruct Hty as [-> | ->]; cbn; auto 10.
      * discriminate.
      * intro Hflag. rewrite (notFired_flag _ Hflag) in Hn. discriminate.
    + rewrite Hs. split; [|split].
      * congruence.
      * intros Hty Ha Hn Hz. exfalso. apply Hnf. unfold fires.
        repeat split; try assumption.
        assert (Hm : moveAmount (speed f * safeDeltaOf f) (safeDeltaOf f) obj
                     = speed f * safeDeltaOf f).
        { unfold moveAmount. destruct Hty as [-> | ->]; reflexivity. }
        cbn. rewrite Hm. exact Hz.
      * intros Hflag. split; [reflexivity | now rewrite Hh].
  - intros fs. induction fs as [|[f u] rest IH]; intro obj; [cbn; lia|].
    cbn [lifetime fired flat_map].
    fold (fired (lifetime rest (s_obj (bodyOf f u obj)))).
    rewrite length_app. unfold bodyOf.
    destruct (body_fire_cases (laneCount f) (speed f * safeDeltaOf f)
                (safeDeltaOf f) (playerPosOf f) (now f <? magnetEndTime f) u obj)
      as [(_ & Hs & _ & Ho) | (_ & Hs & _ & _)].
    + cbv zeta in Hs, Ho. rewrite Hs.
      rewrite fired_after_flag; [cbn; lia|].
      rewrite Ho. apply collision_setHasFired.
    + rewrite Hs. cbn [List.length Nat.add]. apply IH.
Qed.

Lemma turret_alien_fire_once_witness :
  let s := bodyOf Sample.quiet 100 (Sample.turretAt (-80.5)) in
  s_spawns s <> []
  /\ hasFired (s_obj s) = Some true
  /\ s_spawns (bodyOf Sample.quiet 101 (s_obj s)) = [].
Proof.
  cbv zeta.
  assert (Hfire : s_spawns (bodyOf Sample.quiet 100 (Sample.turretAt (-80.5))) <> [])
    by (vm_compute; discriminate).
  destruct turret_alien_fire_once as [Hstep _].
  destruct (Hstep Sample.quiet 100%nat (Sample.turretAt (-80.5))) as (Hfires & _ & _).
  destruct (Hfires Hfire) as (_ & _ & _ & _ & Hflag & _).
  destruct (Hstep Sample.quiet 101%nat
              (s_obj (bodyOf Sample.quiet 100 (Sample.turretAt (-80.5)))))
    as (_ & _ & Hquiet).
  split; [exact Hfire | split; [exact Hflag | exact (proj1 (Hquiet Hflag))]].
Defined.

(** ** Collision resolution *)

Lemma andb_iff (a b : bool) (A B : Prop) :
  (a = true <-> A) -> (b = true <-> B) -> (a && b = true <-> A /\ B).
Proof. rewrite Bool.andb_true_iff. tauto. Qed.

Lemma inZZone_window pp prevZ obj :
  inZZone pp prevZ obj = true
  <-> prevZ < vz pp + 2.0 /\ vz pp - 2.0 < at2 (position obj).
Proof. unfold inZZone, zThreshold. apply andb_iff; [apply ltb_lt | apply gtb_gt]. Qed.

Lemma hitDist_spec obj : hitDist obj = specHitDist (type obj).
Proof. unfold hitDist. now destruct (type obj). Qed.

Lemma objBand_spec obj : objBand obj = specBand (type obj) (at1 (position obj)).
Proof. unfold objBand. now destruct (type obj). Qed.

Lemma isHit_overlap pp obj :
  isHit pp obj = true
  <-> vy pp < snd (specBand (type obj) (at1 (position obj)))
      /\ fst (specBand (type obj) (at1 (position obj))) < vy pp + 1.8.
Proof.
  unfold isHit. rewrite objBand_spec.
  destruct (specBand (type obj) (at1 (position obj))) as [lo hi]. cbn [fst snd].
  apply andb_iff; [apply ltb_lt | apply gtb_gt].
Qed.

Lemma not_portal t : t <> SHOP_PORTAL -> (t =? SHOP_PORTAL)%obj = false.
Proof. destruct t; intro H; try reflexivity. now elim H. Qed.

Lemma setActive_false_neq obj : active obj = true -> setActive obj false <> obj.
Proof. intros Ha E. apply (f_equal active) in E. cbn in E. congruence. Qed.

(** The collision block on an active object that is not a portal does
    nothing outside the forward window or the lateral threshold. *)
Lemma collision_outside pp prevZ obj :
  active obj = true -> type obj <> SHOP_PORTAL ->
  ~ ((prevZ < vz pp + 2.0 /\ vz pp - 2.0 < at2 (position obj))
     /\ Qabs (at0 (position obj) - vx pp) < specHitDist (type obj)) ->
  collision pp prevZ obj = mkCollided obj [] true false.
Proof.
  intros Ha Hty Hn. unfold collision. rewrite Ha, (not_portal _ Hty).
  destruct (inZZone pp prevZ obj) eqn:Ez; [|reflexivity].
  destruct (Qabs (at0 (position obj) - vx pp) <? hitDist obj) eqn:Ex;
    [|reflexivity].
  exfalso. apply Hn. split.
  - now apply inZZone_window.
  - rewrite <- hitDist_spec. now apply ltb_lt.
Qed.

(** On an active damage source the block either registers the hit, the
    window, the lateral threshold and the band being met, or leaves the
    object alone, one of them failing. *)
Lemma collision_damage_cases pp prevZ obj :
  active obj = true -> type obj <> SHOP_PORTAL ->
  isDamageSource (type obj) = true ->
  let cond :=
    (prevZ < vz pp + 2.0 /\ vz pp - 2.0 < at2 (position obj))
    /\ Qabs (at0 (position obj) - vx pp) < specHitDist (type obj)
    /\ (vy pp < snd (specBand (type obj) (at1 (position obj)))
        /\ fst (specBand (type obj) (at1 (position obj))) < vy pp + 1.8) in
  let burst := if (type obj =? DRONE)%obj then "#000000"%string
               else "#ff4400"%string in
  (cond /\ collision pp prevZ obj
           = mkCollided (setActive obj false)
               [PlayerHit; ParticleBurst (position obj) burst] true true)
  \/ (~ cond /\ collision pp prevZ obj = mkCollided obj [] true false).
Proof.
  intros Ha Hty Hd cond burst. subst cond.
  pose proof (inZZone_window pp prevZ obj) as Hw.
  pose proof (isHit_overlap pp obj) as Hv.
  assert (Hl : (Qabs (at0 (position obj) - vx pp) <? hitDist obj) = true
               <-> Qabs (at0 (position obj) - vx pp) < specHitDist (type obj))
    by (rewrite hitDist_spec; apply ltb_lt).
  unfold collision. rewrite Ha, (not_portal _ Hty), Hd. fold burst.
  destruct (inZZone pp prevZ obj) eqn:Ez;
    [destruct (Qabs (at0 (position obj) - vx pp) <? hitDist obj) eqn:Ex;
     [destruct (isHit pp obj) eqn:Ey|]|].
  - left. split; [|reflexivity].
    split; [now apply Hw | split; [now apply Hl | now apply Hv]].
  - right. split; [|reflexivity]. intros (_ & _ & H). apply Hv in H. discriminate.
  - right. split; [|reflexivity]. intros (_ & H & _). apply Hl in H. discriminate.
  - right. split; [|reflexivity]. intros (H & _). apply Hw in H. discriminate.
Qed.

(** ** The planner only appends *)

Section AppendsRules.

Context {A B : Type} (P : GameObject -> Prop).

Lemma appends_ret (a : A) : Appends P (ret a).
Proof. intro s. exists []. cbn. now rewrite app_nil_r. Qed.

Lemma appends_bind (m : M A) (k : A -> M B) :
  Appends P m -> (forall a, Appends P (k a)) -> Appends P (bind m k).
Proof.
  intros Hm Hk s. unfold bind.
  destruct (Hm s) as (l1 & E1 & F1). destruct (m s) as [a s1]. cbn in E1.
  destruct (Hk a s1) as (l2 & E2 & F2).
  exists (l1 ++ l2). rewrite E2, E1, app_assoc. split; [reflexivity|].
  apply Forall_app. now split.
Qed.

Lemma appends_state (m : M A) :
  (forall s, keptObjects (snd (m s)) = keptObjects s) -> Appends P m.
Proof. intros H s. exists []. rewrite H, app_nil_r. now split. Qed.

End AppendsRules.

Lemma appends_push P mk : (forall u, P (mk u)) -> Appends P (push mk).
Proof.
  intros H s. exists [mk (uuid s)]. cbn. split; [reflexivity|].
  constructor; [apply H | constructor].
Qed.

Lemma appends_forEach {A} P (l : list A) body :
  (forall a, Appends P (body a)) -> Appends P (forEach l body).
Proof.
  intro H. induction l as [|a l IH]; cbn [forEach].
  - apply appends_ret.
  - apply appends_bind; [apply H | intros _; exact IH].
Qed.

Lemma appends_mathRandom P f : Appends P (mathRandom f).
Proof. now apply appends_state. Qed.

Lemma appends_shuffledLanes P f : Appends P (shuffledLanes f).
Proof.
  apply appends_state. intro s. unfold shuffledLanes.
  now destruct (sortRandom f (lanesOf (laneCount f)) (rolls s)).
Qed.

Lemma appends_setHasChanges P : Appends P setHasChanges.
Proof. now apply appends_state. Qed.

Lemma appends_advanceNextLetter P d : Appends P (advanceNextLetter d).
Proof. now apply appends_state. Qed.

Lemma appends_isLetterDue P d : Appends P (isLetterDue d).
Proof. now apply appends_state. Qed.

Create HintDb planner.
#[local] Hint Resolve appends_mathRandom appends_shuffledLanes
  appends_setHasChanges appends_advanceNextLetter appends_isLetterDue
  : planner.

(** Decompose a planner action along its binds, loops and branches. *)
Ltac appends :=
  repeat first
    [ apply appends_ret
    | apply appends_push; intro; cbn; solve [auto]
    | solve [auto with planner]
    | apply appends_forEach; intro
    | apply appends_bind; [|intro]
    | match goal with
      | |- Appends _ (if ?b then _ else _) => destruct b
      end ].

Lemma appends_letterDue f z : Appends (spawnedAt z) (letterDue f z).
Proof. unfold letterDue, getRandomLane, randomBelow, spawnedAt. appends. Qed.

Lemma appends_obstacles f z : Appends (spawnedAt z) (obstacles f z).
Proof.
  unfold obstacles, laserGate, movingBarrier, spikeFloors, turret, drone,
    aliens, standardObstacles, powerup, gem, getRandomLane, randomBelow,
    spawnedAt.
  appends.
Qed.

Lemma appends_groundItems f z : Appends (spawnedAt z) (groundItems f z).
Proof.
  unfold groundItems, unlockedRoll, powerup, gem, getRandomLane, spawnedAt.
  appends.
Qed.

Lemma appends_spawnAt f d z : Appends (spawnedAt z) (spawnAt f d z).
Proof.
  pose proof (appends_letterDue f z). pose proof (appends_obstacles f z).
  pose proof (appends_groundItems f z).
  unfold spawnAt. appends; assumption.
Qed.

Lemma spawning_appends f d s :
  exists l,
    keptObjects (snd (spawning f d s)) = keptObjects s ++ l
    /\ Forall (spawnedAt (spawnZ f (keptObjects s))) l
    /\ (spawnGate (keptObjects s) = false -> l = []).
Proof.
  unfold spawning. destruct (spawnGate (keptObjects s)) eqn:Hg.
  - destruct (appends_spawnAt f d (spawnZ f (keptObjects s)) s) as (l & E & F).
    exists l. repeat split; try assumption. discriminate.
  - exists []. cbn. rewrite app_nil_r. repeat split. constructor.
Qed.

Lemma sets_bind {A B} (m : M A) (k : A -> M B) :
  (forall a, SetsChanges (k a)) -> SetsChanges (bind m k).
Proof. intros H s. unfold bind. destruct (m s) as [a s1]. apply H. Qed.

Lemma sets_setHasChanges : SetsChanges setHasChanges.
Proof. intro s. reflexivity. Qed.

Lemma sets_letterDue f z : SetsChanges (letterDue f z).
Proof.
  unfold letterDue. apply sets_bind. intro lane.
  destruct (0 <? List.length (availableIndices f))%nat;
    repeat (apply sets_bind; intro); apply sets_setHasChanges.
Qed.

Lemma cos_sets {A} (m : M A) : SetsChanges m -> ChangesOrSame m.
Proof. intros H s. left. apply H. Qed.

Lemma cos_same {A} (m : M A) :
  (forall s, keptObjects (snd (m s)) = keptObjects s
             /\ hasChanges (snd (m s)) = hasChanges s
             /\ nextLetter (snd (m s)) = nextLetter s
             /\ uuid (snd (m s)) = uuid s) ->
  ChangesOrSame m.
Proof. intros H s. right. apply H. Qed.

Lemma cos_bind {A B} (m : M A) (k : A -> M B) :
  ChangesOrSame m -> (forall a, ChangesOrSame (k a)) -> ChangesOrSame (bind m k).
Proof.
  intros Hm Hk s. unfold bind.
  specialize (Hm s). destruct (m s) as [a s1]. cbn [snd] in Hm.
  destruct (Hk a s1) as [Ht | (E1 & E2 & E3 & E4)]; [now left|].
  rewrite E1, E2, E3, E4. exact Hm.
Qed.

Lemma cos_spawnAt f d z : ChangesOrSame (spawnAt f d z).
Proof.
  unfold spawnAt. apply cos_bind; [now apply cos_same|].
  intros [|].
  - apply cos_sets, sets_letterDue.
  - apply cos_bind; [now apply cos_same|]. intro r.
    destruct (r >? 0.1).
    + apply cos_sets, sets_bind. intro. apply sets_setHasChanges.
    + now apply cos_same.
Qed.

Lemma spawning_changes f d : ChangesOrSame (spawning f d).
Proof.
  intro s. unfold spawning.
  destruct (spawnGate (keptObjects s)); [apply cos_spawnAt | right; cbn; auto].
Qed.


(** ** The registry after a tick *)

Lemma collision_keep_changes pp prevZ o :
  c_changes (collision pp prevZ o) = false -> c_keep (collision pp prevZ o) = true.
Proof. unfold collision. repeat case_if; cbn; congruence. Qed.

Lemma body_unchanged lc d sd pp mg u obj :
  let s := loopBody lc d sd pp mg u obj in
  s_changes s = false -> s_keep s = true /\ s_spawns s = [].
Proof.
  unfold loopBody. cbn [s_changes s_keep s_spawns].
  intro H. apply Bool.orb_false_iff in H. destruct H as [H Hgone].
  apply Bool.orb_false_iff in H. destruct H as [Hlen Hc].
  rewrite (collision_keep_changes _ _ _ Hc), Hgone. split; [reflexivity|].
  apply Bool.negb_false_iff, Nat.eqb_eq in Hlen. now apply length_zero_iff_nil.
Qed.

Lemma steps_unchanged lc d sd pp mg u objs :
  let ss := steps (loopBody lc d sd pp mg) u objs in
  existsb s_changes ss = false ->
  map s_obj (filter s_keep ss) ++ flat_map s_spawns ss = map s_obj ss.
Proof.
  revert u. induction objs as [|o rest IH]; intros u; cbn zeta; [reflexivity|].
  cbn [steps existsb filter flat_map]. intro H.
  apply Bool.orb_false_iff in H. destruct H as [Ho Hrest].
  destruct (body_unchanged lc d sd pp mg u o Ho) as [Hk Hs].
  rewrite Hs in Hrest |- *. rewrite Hk. cbn [map app List.length] in Hrest |- *.
  rewrite Nat.add_0_r in Hrest |- *. f_equal. now apply IH.
Qed.

Lemma pushNew (kept new : list GameObject) :
  (if (0 <? List.length new)%nat then kept ++ new else kept) = kept ++ new.
Proof. destruct new; cbn; [now rewrite app_nil_r | reflexivity]. Qed.

(** The registry a tick leaves: the kept objects of the old registry in
    order, then the missiles fired during the loop, then what the planner
    pushed at the spawn point; the events are those of the iterations over the
    old registry, in order. *)
Lemma tick_registry (f : Frame) (r : Refs) :
  status f = PLAYING ->
  let ss := steps (bodyOf f) (uuidNext r) (objectsRef r) in
  let kept := map s_obj (filter s_keep ss) ++ flat_map s_spawns ss in
  exists spawned,
    objectsRef (t_refs (tick f r)) = kept ++ spawned
    /\ Forall (spawnedAt (spawnZ f kept)) spawned
    /\ (spawnGate kept = false -> spawned = [])
    /\ t_events (tick f r) = flat_map s_events ss.
Proof.
  intros Hst ss kept. unfold tick. rewrite Hst. cbn [GameStatus_beq].
  rewrite runLoop_steps. cbv zeta. fold ss.
  cbn [l_all l_kept l_new l_events l_changes l_uuid].
  rewrite pushNew. fold kept.
  set (s0 := mkPlan kept 0 _ _ _).
  destruct (spawning_appends f (distanceTraveled r + speed f * safeDeltaOf f) s0)
    as (l & E & F & G).
  pose proof (spawning_changes f (distanceTraveled r + speed f * safeDeltaOf f) s0)
    as C.
  destruct (spawning f (distanceTraveled r + speed f * safeDeltaOf f) s0)
    as [[] p]. cbn [snd] in E, C. cbn [keptObjects] in E, F, G.
  cbn [t_refs t_events objectsRef].
  destruct (hasChanges p) eqn:Hp.
  - exists l. auto.
  - destruct C as [C | (C1 & C2 & _)]; [discriminate|].
    cbn [keptObjects hasChanges] in C1, C2. exists [].
    rewrite app_nil_r. repeat split; try constructor.
    symmetry. apply (steps_unchanged (laneCount f)). fold (bodyOf f).
    symmetry. exact C2.
Qed.

(** ** Deactivation and compaction *)

Lemma droneLogic_inactive sd pp o : active o = false -> droneLogic sd pp o = o.
Proof. intro H. unfold droneLogic. now rewrite H, Bool.andb_false_r. Qed.

Lemma barrierLogic_inactive lc sd o : active o = false -> barrierLogic lc sd o = o.
Proof. intro H. unfold barrierLogic. now rewrite H, Bool.andb_false_r. Qed.

Lemma turretLogic_inactive u o : active o = false -> turretLogic u o = mkFired o [] [].
Proof.
  intro H. unfold turretLogic. now rewrite H, Bool.andb_false_r.
Qed.

Lemma alienLogic_inactive u o : active o = false -> alienLogic u o = mkFired o [] [].
Proof.
  intro H. unfold alienLogic. now rewrite H, Bool.andb_false_r.
Qed.

(** An inactive object only advances: no behaviour, no firing, no collision;
    it is dropped exactly once it is past the removal distance. *)
Lemma body_inactive lc d sd pp mg u obj :
  active obj = false ->
  let o1 := standardMovement d sd obj in
  loopBody lc d sd pp mg u obj
  = mkStep o1 (negb (pastRemoval o1)) [] [] (pastRemoval o1).
Proof.
  intros Ha o1. unfold loopBody. cbn zeta. fold o1.
  assert (Ha1 : active o1 = false) by exact Ha.
  rewrite (magnetLogic_inactive _ _ _ _ Ha1), (droneLogic_inactive _ _ _ Ha1),
    (barrierLogic_inactive _ _ _ Ha1), (turretLogic_inactive _ _ Ha1).
  cbn [f_obj f_spawns f_events List.length app].
  rewrite (alienLogic_inactive _ _ Ha1), (collision_inactive _ _ _ Ha1).
  reflexivity.
Qed.

Lemma fired_fields_turret u o :
  type (f_obj (turretLogic u o)) = type o
  /\ active (f_obj (turretLogic u o)) = active o
  /\ position (f_obj (turretLogic u o)) = position o.
Proof. unfold turretLogic. case_if; cbn; auto. Qed.

Lemma fired_fields_alien u o :
  type (f_obj (alienLogic u o)) = type o
  /\ active (f_obj (alienLogic u o)) = active o
  /\ position (f_obj (alienLogic u o)) = position o.
Proof. unfold alienLogic. case_if; cbn; auto. Qed.

(** The object the collision block receives has the type and the activity
    the iteration started with. *)
Lemma body_shape lc d sd pp mg u obj :
  let s := loopBody lc d sd pp mg u obj in
  exists o',
    type o' = type obj /\ active o' = active obj
    /\ s_obj s = c_obj (collision pp (at2 (position obj)) o')
    /\ position (s_obj s) = position o'
    /\ s_keep s = c_keep (collision pp (at2 (position obj)) o')
                  && negb (pastRemoval (s_obj s)).
Proof.
  unfold loopBody. cbn zeta. cbn [s_obj s_keep].
  set (o4 := barrierLogic lc sd _).
  set (t := turretLogic u o4). set (a := alienLogic _ (f_obj t)).
  exists (f_obj a).
  destruct (behaved_fields lc d sd pp mg obj) as (_ & Hty & Hac & _).
  cbv zeta in Hty, Hac. fold o4 in Hty, Hac.
  destruct (fired_fields_turret u o4) as (T1 & T2 & _). fold t in T1, T2.
  destruct (fired_fields_alien (u + List.length (f_spawns t)) (f_obj t))
    as (A1 & A2 & _). fold a in A1, A2.
  repeat split; try congruence. apply collision_position.
Qed.

Lemma collision_keep pp prevZ o :
  c_keep (collision pp prevZ o) = false
  <-> type o = SHOP_PORTAL /\ active o = true
      /\ Qabs (at2 (position o) - vz pp) < 2.
Proof.
  unfold collision. destruct (active o); [|cbn; split; [discriminate | intros (_ & H & _); discriminate]].
  destruct (ObjectType_eq_dec (type o) SHOP_PORTAL) as [E | N].
  - rewrite E. cbn [ObjectType_beq].
    destruct (Qabs (at2 (position o) - vz pp) <? 2) eqn:Hz; cbn.
    + apply ltb_lt in Hz. tauto.
    + apply ltb_ge in Hz. split; [discriminate|]. intros (_ & _ & H). lra.
  - rewrite (not_portal _ N).
    split; [|intros (H & _); contradiction].
    repeat case_if; cbn; discriminate.
Qed.

Lemma lifetime_inactive fs obj :
  active obj = false ->
  Forall (fun s => active (s_obj s) = false /\ s_events s = [] /\ s_spawns s = []
                   /\ s_keep s = negb (REMOVE_DISTANCE <? at2 (position (s_obj s))))
         (lifetime fs obj).
Proof.
  revert obj. induction fs as [|[f u] rest IH]; intros obj Ha; cbn [lifetime].
  - constructor.
  - unfold bodyOf at 1 2. rewrite body_inactive by exact Ha.
    constructor; [cbn; auto | apply IH; exact Ha].
Qed.


(** C1, as stated, fails: an obstacle hit and deactivated in tick N is still
    registered, inactive, after tick N+1 and after tick N+2; compaction does
    not remove an inactive object whose forward coordinate is below the
    removal distance. *)
Lemma deactivated_still_registered_after_two_ticks :
  let r0 := Sample.refs [Sample.obstacle (-1)] 0 in
  let tN := tick Sample.quiet r0 in
  let rN1 := t_refs (tick Sample.quiet (t_refs tN)) in
  let rN2 := t_refs (tick Sample.quiet rN1) in
  registeredActive 7 r0 = true
  /\ hd_error (t_events tN) = Some PlayerHit
  /\ registeredInactive 7 (t_refs tN) = true
  /\ registeredInactive 7 rN1 = true
  /\ registeredInactive 7 rN2 = true
  /\ s_keep (bodyOf Sample.quiet 100 (setActive (Sample.obstacle 0) false)) = true.
Proof. vm_compute. repeat split; reflexivity. Qed.

(** C1, amended. An object that is inactive when a tick starts stays
    inactive and takes part in no collision check, in that tick and in every
    later one: its iterations emit nothing and fire nothing.  Compaction drops
    an object exactly when its forward coordinate after the tick's movement
    exceeds the removal distance (20) or when it is a ShopPortal triggered in
    this tick; so an object deactivated by a hit or a pickup stays registered,
    inactive, as long as its forward coordinate is at most 20.  The registry
    after a tick is the kept objects in order, then the missiles fired, then
    what the planner spawned. *)
Theorem inactive_skipped_and_dropped_past_removal :
  (forall fs obj,
      active obj = false ->
      Forall (fun s => active (s_obj s) = false /\ s_events s = []
                       /\ s_spawns s = []
                       /\ s_keep s = negb (REMOVE_DISTANCE <? at2 (position (s_obj s))))
             (lifetime fs obj))
  /\ (forall f u obj,
         let s := bodyOf f u obj in
         s_keep s = false
         <-> (REMOVE_DISTANCE < at2 (position (s_obj s))
              \/ (type obj = SHOP_PORTAL /\ active obj = true
                  /\ Qabs (at2 (position (s_obj s)) - vz (playerPosOf f)) < 2)))
  /\ (forall f r,
         status f = PLAYING ->
         let ss := steps (bodyOf f) (uuidNext r) (objectsRef r) in
         exists spawned,
           objectsRef (t_refs (tick f r))
           = map s_obj (filter s_keep ss) ++ flat_map s_spawns ss ++ spawned).
Proof.
  split; [exact lifetime_inactive | split].
  - intros f u obj s. subst s. unfold bodyOf.
    destruct (body_shape (laneCount f) (speed f * safeDeltaOf f) (safeDeltaOf f)
                (playerPosOf f) (now f <? magnetEndTime f) u obj)
      as (o' & Hty & Hac & _ & Hpos & Hkeep).
    rewrite Hkeep, Bool.andb_false_iff, collision_keep, Bool.negb_false_iff.
    unfold pastRemoval. rewrite gtb_gt, Hpos, Hty, Hac. tauto.
  - intros f r Hst ss.
    destruct (tick_registry f r Hst) as (spawned & E & _).
    exists spawned. rewrite E. now rewrite <- app_assoc.
Qed.

Lemma inactive_skipped_and_dropped_past_removal_witness :
  Forall (fun s => active (s_obj s) = false /\ s_events s = []
                   /\ s_spawns s = []
                   /\ s_keep s = negb (REMOVE_DISTANCE <? at2 (position (s_obj s))))
         (lifetime [(Sample.quiet, 100%nat); (Sample.quiet, 100%nat)]
                   (setActive (Sample.obstacle 0) false))
  /\ exists spawned,
       objectsRef (t_refs (tick Sample.quiet (Sample.refs [Sample.obstacle (-1)] 0)))
       = map s_obj (filter s_keep
                      (steps (bodyOf Sample.quiet) 100 [Sample.obstacle (-1)]))
         ++ flat_map s_spawns
              (steps (bodyOf Sample.quiet) 100 [Sample.obstacle (-1)])
         ++ spawned.
Proof.
  destruct inactive_skipped_and_dropped_past_removal as (H1 & _ & H3).
  split.
  - apply H1. reflexivity.
  - apply (H3 Sample.quiet (Sample.refs [Sample.obstacle (-1)] 0)). reflexivity.
Defined.

(** ** Spawn horizon and spacing *)

Lemma isStatic_spec o :
  isStatic o = true <-> type o <> MISSILE /\ type o <> DRONE.
Proof. unfold isStatic. destruct (type o); cbn; intuition congruence. Qed.

Lemma furthestZ_fallback kept : filter isStatic kept = [] -> furthestZ kept = -20.
Proof. unfold furthestZ. now intros ->. Qed.

Lemma furthestZ_attained kept :
  filter isStatic kept <> [] ->
  exists o, In o (filter isStatic kept) /\ furthestZ kept = at2 (position o).
Proof.
  unfold furthestZ. destruct (filter isStatic kept) as [|o os]; [congruence|].
  intros _. cbn [map].
  pose proof (minList_attained (map (fun o => at2 (position o)) os)
                (at2 (position o))) as H.
  change (at2 (position o) :: map (fun o => at2 (position o)) os)
    with (map (fun o => at2 (position o)) (o :: os)) in H.
  apply in_map_iff in H. destruct H as (o' & E & Hin). eauto.
Qed.

Lemma furthestZ_least kept o :
  In o (filter isStatic kept) -> furthestZ kept <= at2 (position o).
Proof.
  unfold furthestZ. destruct (filter isStatic kept) as [|h t]; [contradiction|].
  cbn [map]. intros [<- | Hin].
  - apply minList_le_head.
  - apply minList_le_tail.
    now apply (in_map (fun o => at2 (position o))).
Qed.

Lemma spawnGate_open kept : spawnGate kept = true <-> -120 < furthestZ kept.
Proof. unfold spawnGate. apply gtb_gt. Qed.

Lemma spawnGate_closed kept : spawnGate kept = false <-> ~ -120 < furthestZ kept.
Proof. rewrite <- spawnGate_open. now destruct (spawnGate kept). Qed.

(** C3. The spawn horizon is the least forward coordinate among the kept
    objects that are neither Missile nor Drone, and -20 when there is none;
    the planner spawns only if the horizon is above -120, and otherwise
    leaves everything as it is; the spawn point is the minimum of the horizon
    minus (the level's minimum gap plus 0.3 times the speed) and -120, and
    whatever a tick spawns is put at that forward coordinate. *)
Theorem spawn_horizon_gate_and_point (f : Frame) (kept : list GameObject) :
  let statics := filter isStatic kept in
  (forall o, In o statics
             <-> In o kept /\ type o <> MISSILE /\ type o <> DRONE)
  /\ (statics = [] -> furthestZ kept = -20)
  /\ (statics <> [] ->
      (exists o, In o statics /\ furthestZ kept = at2 (position o))
      /\ (forall o, In o statics -> furthestZ kept <= at2 (position o)))
  /\ (forall d s, keptObjects s = kept ->
                  ~ -120 < furthestZ kept -> spawning f d s = (tt, s))
  /\ (forall d s, keptObjects s = kept ->
                  spawning f d s <> (tt, s) -> -120 < furthestZ kept)
  /\ spawnZ f kept
     = Qmin (furthestZ kept
             - (minGap (getDifficultyConfig (level f)) + speed f * 0.3))
            (-120)
  /\ (forall d s, keptObjects s = kept ->
        exists l, keptObjects (snd (spawning f d s)) = kept ++ l
                  /\ Forall (fun o => at2 (position o) = spawnZ f kept) l).
Proof.
  intro statics. subst statics.
  refine (conj _ (conj _ (conj _ (conj _ (conj _ (conj _ _)))))).
  - intro o. rewrite filter_In, isStatic_spec. tauto.
  - apply furthestZ_fallback.
  - intro Hne. split.
    + now apply furthestZ_attained.
    + intros o Hin. now apply furthestZ_least.
  - intros d s <- Hg. apply spawnGate_closed in Hg.
    unfold spawning. now rewrite Hg.
  - intros d s <- Hs. apply spawnGate_open.
    destruct (spawnGate (keptObjects s)) eqn:Hg; [reflexivity|].
    exfalso. apply Hs. unfold spawning. now rewrite Hg.
  - reflexivity.
  - intros d s <-.
    destruct (spawning_appends f d s) as (l & E & F & _).
    exists l. split; [exact E|].
    eapply Forall_impl; [|exact F]. now intros o [H _].
Qed.

Lemma spawn_horizon_gate_and_point_witness :
  furthestZ [Sample.droneAt 0 (-150)] = -20
  /\ furthestZ [Sample.droneAt 0 (-150); Sample.obstacle (-130)] <= -130
  /\ spawning Sample.quiet 0
       (mkPlan [Sample.obstacle (-130)] 0 100 200 false)
     = (tt, mkPlan [Sample.obstacle (-130)] 0 100 200 false).
Proof.
  pose proof (spawn_horizon_gate_and_point Sample.quiet
                [Sample.droneAt 0 (-150)]) as H1.
  pose proof (spawn_horizon_gate_and_point Sample.quiet
                [Sample.droneAt 0 (-150); Sample.obstacle (-130)]) as H2.
  pose proof (spawn_horizon_gate_and_point Sample.quiet
                [Sample.obstacle (-130)]) as H3.
  cbv zeta in H1, H2, H3.
  destruct H1 as (_ & H1 & _). destruct H2 as (_ & _ & H2 & _).
  destruct H3 as (_ & _ & _ & H3 & _).
  split; [|split].
  - apply H1. reflexivity.
  - assert (Hne : filter isStatic
                    [Sample.droneAt 0 (-150); Sample.obstacle (-130)] <> [])
      by discriminate.
    apply (proj2 (H2 Hne) (Sample.obstacle (-130))). cbn. now left.
  - apply H3; [reflexivity|]. vm_compute. discriminate.
Defined.


(** ** Letter spawning *)


(** A roll of [0, 1) scaled by [n] floors into [0, n). *)
Lemma Qfloor_roll (r : Q) (n : Z) :
  0 <= r -> r < 1 -> (0 < n)%Z -> (0 <= Qfloor (r * inject_Z n) < n)%Z.
Proof.
  intros H0 H1 Hn.
  assert (Hq : inject_Z 0 < inject_Z n) by (rewrite <- Zlt_Qlt; exact Hn).
  change (inject_Z 0) with 0 in Hq.
  pose proof (Qfloor_le (r * inject_Z n)) as Hlo.
  pose proof (Qlt_floor (r * inject_Z n)) as Hhi.
  assert (A : inject_Z (-1) < inject_Z (Qfloor (r * inject_Z n))).
  { assert (0 <= r * inject_Z n) by nra.
    rewrite inject_Z_plus in Hhi. change (inject_Z (-1)) with (-1).
    change (inject_Z 1) with 1 in Hhi. lra. }
  assert (B : inject_Z (Qfloor (r * inject_Z n)) < inject_Z n) by nra.
  rewrite <- Zlt_Qlt in A, B. lia.
Qed.









(** ** Magnet pull *)

Lemma safeDelta_le f : safeDeltaOf f <= 0.05.
Proof. apply Q.le_min_r. Qed.

Lemma safeDelta_pos f : 0 < delta f -> 0 < safeDeltaOf f.
Proof. intro H. apply Q.min_glb_lt; [exact H | reflexivity]. Qed.

Lemma safeDelta_zero f : delta f == 0 -> safeDeltaOf f == 0.
Proof.
  intro H. unfold safeDeltaOf. rewrite H. apply Q.min_l. discriminate.
Qed.

(** A gem goes through the drone, barrier, turret and alien blocks
    untouched, and the collision block does not move it: its position after
    the iteration is the one the magnet block left. *)
Lemma body_gem_position lc d sd pp mg u obj :
  type obj = GEM ->
  position (s_obj (loopBody lc d sd pp mg u obj))
  = position (magnetLogic sd pp mg (standardMovement d sd obj)).
Proof.
  intro Hty. unfold loopBody. cbn zeta. cbn [s_obj].
  set (o2 := magnetLogic sd pp mg (standardMovement d sd obj)).
  assert (Ht2 : type o2 = GEM).
  { subst o2. unfold magnetLogic. repeat case_if; cbn; exact Hty. }
  rewrite (droneLogic_other sd pp o2) by congruence.
  rewrite (barrierLogic_other lc sd o2) by congruence.
  rewrite (turretLogic_other u o2) by congruence.
  cbn [f_obj f_spawns List.length].
  rewrite (alienLogic_other _ o2) by congruence.
  cbn [f_obj]. apply collision_position.
Qed.

Lemma magnetLogic_pull sd pp o :
  type o = GEM -> active o = true ->
  (vx pp - at0 (position o)) * (vx pp - at0 (position o))
  + (vz pp - at2 (position o)) * (vz pp - at2 (position o)) < 40 * 40 ->
  position (magnetLogic sd pp true o)
  = mkTriple (at0 (position o) + (vx pp - at0 (position o)) * (sd * 10))
             (Num.lerp (at1 (position o)) (vy pp) (sd * 10))
             (at2 (position o) + (vz pp - at2 (position o)) * (sd * 10)).
Proof.
  intros Hty Ha Hn. unfold magnetLogic. rewrite Hty, Ha. cbn [ObjectType_beq andb].
  apply ltb_lt in Hn. unfold Num.sqrt_ltb. now rewrite Hn.
Qed.

Lemma magnetLogic_far sd pp mg o :
  40 * 40 <= (vx pp - at0 (position o)) * (vx pp - at0 (position o))
             + (vz pp - at2 (position o)) * (vz pp - at2 (position o)) ->
  magnetLogic sd pp mg o = o.
Proof.
  intro Hn. unfold magnetLogic. apply ltb_ge in Hn. unfold Num.sqrt_ltb.
  rewrite Hn. now case_if.
Qed.

Lemma magnetLogic_off sd pp o : magnetLogic sd pp false o = o.
Proof. reflexivity. Qed.

(** Moving a fraction [t] of the way, [0 < t < 1], strictly shortens a
    non-zero difference and does not cancel it. *)
Lemma partial_step_closer (x p t : Q) :
  0 < t -> t < 1 -> ~ p - x == 0 ->
  Qabs (p - (x + (p - x) * t)) < Qabs (p - x)
  /\ 0 < Qabs (p - (x + (p - x) * t)).
Proof.
  intros Ht0 Ht1 Hne.
  assert (E : p - (x + (p - x) * t) == (p - x) * (1 - t)) by ring.
  rewrite E. clear E. set (dx := p - x) in *.
  destruct (Qlt_le_dec dx 0) as [Hneg | Hpos].
  - rewrite (Qabs_neg dx) by lra.
    rewrite (Qabs_neg (dx * (1 - t))) by nra. split; nra.
  - assert (0 < dx).
    { destruct (Qle_lt_or_eq _ _ Hpos) as [H | H]; [exact H|].
      exfalso. apply Hne. now symmetry. }
    rewrite (Qabs_pos dx) by lra.
    rewrite (Qabs_pos (dx * (1 - t))) by nra. split; nra.
Qed.

(** C6, as stated, fails: with the magnet active and an active gem at lateral
    distance 35 (hence under 40 units) on a tick of zero elapsed time, the
    pull factor is 0 and the gem's lane coordinate is not strictly closer to
    the player's. *)
Lemma magnet_pull_zero_dt_no_approach :
  let f := Sample.magnetised 0 in
  let g := Sample.gemAt 35 0 in
  let p' := position (s_obj (bodyOf f 100 g)) in
  (now f <? magnetEndTime f) = true
  /\ active g = true
  /\ Num.sqrt_ltb (35 * 35 + 0 * 0) 40 = true
  /\ ~ Qabs (vx (playerPosOf f) - at0 p')
       < Qabs (vx (playerPosOf f) - at0 (position g)).
Proof. vm_compute. repeat split; discriminate. Qed.

(** C6, amended. For an active Gem on a tick with the magnet active whose
    distance to the player in the lane/forward plane, taken after the tick's
    advance, is under 40 (squared distance under 40 * 40): the lane and
    forward coordinates move by the fraction [dt * 10] of their difference to
    the player's, and the vertical coordinate lerps to the player's with the
    same factor; when the elapsed time is positive and the lane coordinates
    differ, the lane coordinate ends strictly closer to the player's without
    reaching it (in particular at lateral distance 35).  Inactive gems, gems
    at distance 40 or more, a tick without magnet, and every other type are
    left alone by the magnet block. *)
Theorem magnet_pull_interpolates (f : Frame) (u : nat) (obj : GameObject) :
  let sd := safeDeltaOf f in
  let pp := playerPosOf f in
  let pull := sd * 10 in
  let z1 := at2 (position obj) + speed f * sd in
  let dx := vx pp - at0 (position obj) in
  let dz := vz pp - z1 in
  let p' := position (s_obj (bodyOf f u obj)) in
  let o1 := standardMovement (speed f * sd) sd obj in
  (type obj = GEM -> active obj = true -> now f < magnetEndTime f ->
   dx * dx + dz * dz < 40 * 40 ->
   at0 p' == at0 (position obj) + dx * pull
   /\ at2 p' == z1 + dz * pull
   /\ at1 p' == at1 (position obj) + (vy pp - at1 (position obj)) * pull
   /\ (0 < delta f -> ~ dx == 0 ->
       Qabs (vx pp - at0 p') < Qabs dx /\ 0 < Qabs (vx pp - at0 p'))
   /\ (0 < delta f -> Qabs dx == 35 -> Qabs (vx pp - at0 p') < 35))
  /\ (type obj = GEM ->
      active obj = false \/ magnetEndTime f <= now f
      \/ 40 * 40 <= dx * dx + dz * dz ->
      p' = position o1)
  /\ (type obj <> GEM ->
      magnetLogic sd pp (now f <? magnetEndTime f) o1 = o1).
Proof.
  intros sd pp pull z1 dx dz p' o1.
  assert (Hgem : type obj = GEM -> at2 (position o1) = z1).
  { intro Hty. subst o1 z1. cbn. unfold moveAmount. now rewrite Hty. }
  refine (conj _ (conj _ _)).
  - intros Hty Ha Hm Hn. pose proof (Hgem Hty) as Hz1. subst p'. unfold bodyOf.
    rewrite body_gem_position by exact Hty. fold sd pp o1.
    apply ltb_lt in Hm. rewrite Hm.
    assert (Hn1 : (vx pp - at0 (position o1)) * (vx pp - at0 (position o1))
                  + (vz pp - at2 (position o1)) * (vz pp - at2 (position o1))
                  < 40 * 40)
      by (rewrite Hz1; exact Hn).
    rewrite (magnetLogic_pull sd pp o1) by assumption.
    cbn [at0 at1 at2]. rewrite Hz1.
    change (at0 (position o1)) with (at0 (position obj)).
    change (at1 (position o1)) with (at1 (position obj)).
    fold dx dz pull.
    assert (Hstep : 0 < delta f -> ~ dx == 0 ->
                    Qabs (vx pp - (at0 (position obj) + dx * pull)) < Qabs dx
                    /\ 0 < Qabs (vx pp - (at0 (position obj) + dx * pull))).
    { intros Hd Hne.
      pose proof (safeDelta_pos f Hd) as Hp. pose proof (safeDelta_le f) as Hl.
      fold sd in Hp, Hl.
      apply (partial_step_closer (at0 (position obj)) (vx pp) pull);
        subst pull; try lra. exact Hne. }
    refine (conj _ (conj _ (conj _ (conj Hstep _)))); try reflexivity.
    + apply lerp_step.
    + intros Hd H35.
      assert (Hne : ~ dx == 0).
      { intro E. rewrite E in H35. vm_compute in H35. discriminate. }
      destruct (Hstep Hd Hne) as [Hlt _]. now rewrite H35 in Hlt.
  - intros Hty Hcase. pose proof (Hgem Hty) as Hz1. subst p'. unfold bodyOf.
    rewrite body_gem_position by exact Hty. fold sd pp o1.
    destruct Hcase as [Ha | [Hm | Hn]].
    + now rewrite magnetLogic_inactive.
    + apply ltb_ge in Hm. now rewrite Hm.
    + rewrite magnetLogic_far; [reflexivity|]. now rewrite Hz1.
  - intro Hty. now apply magnetLogic_other.
Qed.

Lemma magnet_pull_interpolates_witness :
  let f := Sample.magnetised 0.05 in
  let p' := position (s_obj (bodyOf f 100 (Sample.gemAt 35 (-1)))) in
  at0 p' == 35 + (0 - 35) * (safeDeltaOf f * 10)
  /\ Qabs (vx (playerPosOf f) - at0 p') < 35.
Proof.
  cbv zeta.
  pose proof (magnet_pull_interpolates (Sample.magnetised 0.05) 100
                (Sample.gemAt 35 (-1))) as H.
  cbv zeta in H. destruct H as (H & _).
  assert (Hm : now (Sample.magnetised 0.05) < magnetEndTime (Sample.magnetised 0.05))
    by reflexivity.
  assert (Hn : (vx (playerPosOf (Sample.magnetised 0.05))
                - at0 (position (Sample.gemAt 35 (-1))))
               * (vx (playerPosOf (Sample.magnetised 0.05))
                  - at0 (position (Sample.gemAt 35 (-1))))
               + (vz (playerPosOf (Sample.magnetised 0.05))
                  - (at2 (position (Sample.gemAt 35 (-1)))
                     + speed (Sample.magnetised 0.05)
                       * safeDeltaOf (Sample.magnetised 0.05)))
                 * (vz (playerPosOf (Sample.magnetised 0.05))
                    - (at2 (position (Sample.gemAt 35 (-1)))
                       + speed (Sample.magnetised 0.05)
                         * safeDeltaOf (Sample.magnetised 0.05)))
               < 40 * 40)
    by reflexivity.
  destruct (H eq_refl eq_refl Hm Hn) as (Hx & _ & _ & _ & H35).
  split.
  - exact Hx.
  - apply H35; reflexivity.
Defined.

(** ** Drone tracking *)

(** A drone goes through the magnet, barrier, turret and alien blocks
    untouched, and the collision block does not move it. *)
Lemma body_drone_position lc d sd pp mg u obj :
  type obj = DRONE ->
  position (s_obj (loopBody lc d sd pp mg u obj))
  = position (droneLogic sd pp (standardMovement d sd obj)).
Proof.
  intro Hty. unfold loopBody. cbn zeta. cbn [s_obj].
  set (o1 := standardMovement d sd obj).
  assert (Ht1 : type o1 = DRONE) by exact Hty.
  rewrite (magnetLogic_other sd pp mg o1) by congruence.
  set (o3 := droneLogic sd pp o1).
  assert (Ht3 : type o3 = DRONE).
  { subst o3. unfold droneLogic. repeat case_if; cbn; exact Hty. }
  rewrite (barrierLogic_other lc sd o3) by congruence.
  rewrite (turretLogic_other u o3) by congruence.
  cbn [f_obj f_spawns List.length].
  rewrite (alienLogic_other _ o3) by congruence.
  cbn [f_obj]. apply collision_position.
Qed.

(** C7, as stated, fails: a drone at forward coordinate -10 with the player
    at forward coordinate 0 is ahead of the player by more than 5 units, so
    it is tracked and its lane coordinate changes in the tick. *)
Lemma drone_at_minus_ten_is_tracked :
  let f := Sample.quiet in
  let dr := Sample.droneAt 2 (-10) in
  let p' := position (s_obj (bodyOf f 100 dr)) in
  vz (playerPosOf f) == 0
  /\ at2 (position dr) == -10
  /\ active dr = true
  /\ ~ at0 p' == at0 (position dr)
  /\ at0 p' == 1.85.
Proof. vm_compute. repeat split; discriminate. Qed.

(** C7, amended. For an active Drone, the lane coordinate lerps toward the
    player's lane coordinate with factor [dt * 1.5] exactly when the drone's
    forward coordinate, after the tick's advance, is below the player's minus
    5 (more negative is farther ahead), and is left unchanged otherwise, as
    it is for an inactive drone; in particular a drone at forward coordinate
    -10 with the player at 0 and an advance of less than 5 is tracked. *)
Theorem drone_tracks_while_ahead (f : Frame) (u : nat) (obj : GameObject) :
  type obj = DRONE ->
  let sd := safeDeltaOf f in
  let pp := playerPosOf f in
  let x := at0 (position obj) in
  let z1 := at2 (position obj) + speed f * sd in
  let p' := position (s_obj (bodyOf f u obj)) in
  at2 p' = z1 /\ at1 p' = at1 (position obj)
  /\ (active obj = true -> z1 < vz pp - 5 ->
      at0 p' == x + (vx pp - x) * (sd * 1.5))
  /\ (active obj = false \/ vz pp - 5 <= z1 -> at0 p' = x)
  /\ (active obj = true -> at2 (position obj) == -10 -> vz pp == 0 ->
      speed f * sd < 5 ->
      at0 p' == x + (vx pp - x) * (sd * 1.5)).
Proof.
  intros Hty sd pp x z1 p'. subst p'. unfold bodyOf.
  rewrite body_drone_position by exact Hty. fold sd pp.
  set (o1 := standardMovement (speed f * sd) sd obj).
  assert (Hz1 : at2 (position o1) = z1).
  { subst o1 z1. cbn. unfold moveAmount. now rewrite Hty. }
  assert (Htrack : active obj = true -> z1 < vz pp - 5 ->
                   at0 (position (droneLogic sd pp o1))
                   == x + (vx pp - x) * (sd * 1.5)).
  { intros Ha Hz. unfold droneLogic.
    change (type o1) with (type obj). change (active o1) with (active obj).
    rewrite Hty, Ha, Hz1. cbn [ObjectType_beq andb].
    apply ltb_lt in Hz. rewrite Hz. cbn [set0 setPosition position at0].
    apply lerp_step. }
  refine (conj _ (conj _ (conj Htrack (conj _ _)))).
  - rewrite <- Hz1. unfold droneLogic. repeat case_if; reflexivity.
  - unfold droneLogic. repeat case_if; reflexivity.
  - intros [Ha | Hz].
    + now rewrite droneLogic_inactive.
    + unfold droneLogic. rewrite Hz1. apply ltb_ge in Hz. rewrite Hz.
      now case_if.
  - intros Ha Hz Hp Hs. apply Htrack; [exact Ha|]. subst z1. lra.
Qed.

Lemma drone_tracks_while_ahead_witness :
  let f := Sample.quiet in
  let p' := position (s_obj (bodyOf f 100 (Sample.droneAt 2 (-10)))) in
  at0 p' == 2 + (0 - 2) * (safeDeltaOf f * 1.5)
  /\ at0 (position (s_obj (bodyOf f 100 (Sample.droneAt 2 (-4))))) = 2.
Proof.
  cbv zeta.
  pose proof (drone_tracks_while_ahead Sample.quiet 100 (Sample.droneAt 2 (-10))
                eq_refl) as H.
  pose proof (drone_tracks_while_ahead Sample.quiet 100 (Sample.droneAt 2 (-4))
                eq_refl) as H'.
  cbv zeta in H, H'.
  destruct H as (_ & _ & _ & _ & H). destruct H' as (_ & _ & _ & H' & _).
  split.
  - apply H; reflexivity.
  - apply H'. right. vm_compute. discriminate.
Defined.

(** ** Barrier oscillation *)

Lemma barrierLogic_type lc sd o : type (barrierLogic lc sd o) = type o.
Proof. unfold barrierLogic. repeat case_if; reflexivity. Qed.

Lemma barrierLogic_moveSpeed lc sd o :
  moveSpeed (barrierLogic lc sd o) = moveSpeed o.
Proof. unfold barrierLogic. repeat case_if; reflexivity. Qed.

(** For a barrier the iteration is the advance followed by the barrier
    block, as far as position, direction and speed go. *)
Lemma body_barrier lc d sd pp mg u obj :
  type obj = BARRIER ->
  let o' := s_obj (loopBody lc d sd pp mg u obj) in
  let b := barrierLogic lc sd (standardMovement d sd obj) in
  position o' = position b /\ moveDirection o' = moveDirection b
  /\ moveSpeed o' = moveSpeed obj.
Proof.
  intros Hty o' b. subst o' b. unfold loopBody. cbn zeta. cbn [s_obj].
  set (o1 := standardMovement d sd obj).
  assert (Ht1 : type o1 = BARRIER) by exact Hty.
  rewrite (magnetLogic_other sd pp mg o1) by congruence.
  rewrite (droneLogic_other sd pp o1) by congruence.
  set (o4 := barrierLogic lc sd o1).
  assert (Ht4 : type o4 = BARRIER) by (subst o4; now rewrite barrierLogic_type).
  rewrite (turretLogic_other u o4) by congruence.
  cbn [f_obj f_spawns List.length].
  rewrite (alienLogic_other _ o4) by congruence.
  cbn [f_obj].
  destruct (collision_fields pp (at2 (position obj)) o4)
    as (_ & _ & Hp & _ & Hd & Hs).
  cbv zeta in Hp, Hd, Hs. rewrite Hp, Hd, Hs.
  subst o4. now rewrite barrierLogic_moveSpeed.
Qed.

(** Outside the barrier block nothing writes direction or speed. *)
Lemma body_not_barrier lc d sd pp mg u obj :
  type obj <> BARRIER ->
  let o' := s_obj (loopBody lc d sd pp mg u obj) in
  moveDirection o' = moveDirection obj /\ moveSpeed o' = moveSpeed obj.
Proof.
  intros Hty o'. subst o'. unfold loopBody. cbn zeta. cbn [s_obj].
  set (o3 := droneLogic sd pp (magnetLogic sd pp mg (standardMovement d sd obj))).
  assert (H3 : type o3 = type obj /\ moveDirection o3 = moveDirection obj
               /\ moveSpeed o3 = moveSpeed obj).
  { subst o3. unfold droneLogic, magnetLogic. repeat case_if; cbn; auto. }
  destruct H3 as (T3 & D3 & S3).
  rewrite (barrierLogic_other lc sd o3) by congruence.
  set (t := turretLogic u o3).
  set (a := alienLogic (u + List.length (f_spawns t)) (f_obj t)).
  assert (Ha : moveDirection (f_obj a) = moveDirection o3
               /\ moveSpeed (f_obj a) = moveSpeed o3).
  { subst a t. unfold alienLogic, turretLogic. repeat case_if; cbn; auto. }
  destruct (collision_fields pp (at2 (position obj)) (f_obj a))
    as (_ & _ & _ & _ & Hd & Hs).
  cbv zeta in Hd, Hs. rewrite Hd, Hs. destruct Ha as [-> ->]. auto.
Qed.

Lemma movingBarrier_push f z s :
  let r1 := random f (rolls s) in
  let r2 := random f (S (rolls s)) in
  keptObjects (snd (movingBarrier f z s))
  = keptObjects s
    ++ [mkGameObject (uuid s) BARRIER
          (mkTriple (laneX (laneOfRoll (laneCount f) r1)) 1.25 z) true None
          (Some "#ff6600"%string) None None None
          (Some (if r2 >? 0.5 then 1 else -1))
          (Some (3 + inject_Z (level f) * 0.5)) None].
Proof. reflexivity. Qed.

(** C8, as stated, fails: with three lanes, half the lane count times the
    lane width is 3.3, but a barrier advancing from 2.1 to 2.25 is already
    clamped to 2.2 and turned around. *)
Lemma barrier_clamped_before_half_count_boundary :
  let f := Sample.quiet in
  let b := Sample.barrierAt 2.1 1 in
  let o' := s_obj (bodyOf f 100 b) in
  let xadv := at0 (position b) + 1 * 3 * safeDeltaOf f in
  laneCount f = 3%Z
  /\ specBoundary (laneCount f) == 3.3
  /\ xadv == 2.25
  /\ ~ at0 (position o') == xadv
  /\ at0 (position o') == 2.2
  /\ moveDirection b = Some 1
  /\ moveDirection o' = Some (-1).
Proof. vm_compute. repeat split; discriminate. Qed.

(** C8, amended. For an active Barrier the lane coordinate advances by
    direction x speed x dt (direction defaulting to 1 and speed to 3); when
    the advanced coordinate exceeds [floor (laneCount / 2) * 2.2] it is set to
    that boundary and the direction to -1, when it is below the opposite
    boundary it is set to that one and the direction to 1, and otherwise the
    direction is kept; for a barrier inside the boundaries with direction 1
    or -1, positive speed and non-negative dt, the direction written at a
    boundary is the opposite of the old one.  The speed is never written; the
    direction is written by nothing else, and no other type has either field
    touched.  A spawned barrier gets direction 1 or -1 and speed
    3 + level x 0.5. *)
Theorem barrier_oscillates_between_lane_boundaries (f : Frame) (u : nat)
  (obj : GameObject) :
  let sd := safeDeltaOf f in
  let bound := inject_Z (laneCount f / 2) * LANE_WIDTH in
  let dir := Num.orDefault (moveDirection obj) 1 in
  let spd := Num.orDefault (moveSpeed obj) 3 in
  let x := at0 (position obj) in
  let xadv := x + dir * spd * sd in
  let o' := s_obj (bodyOf f u obj) in
  moveSpeed o' = moveSpeed obj
  /\ (type obj <> BARRIER \/ active obj = false ->
      moveDirection o' = moveDirection obj)
  /\ (type obj = BARRIER -> active obj = true ->
      (bound < xadv ->
       at0 (position o') = bound /\ moveDirection o' = Some (-1))
      /\ (xadv <= bound -> xadv < - bound ->
          at0 (position o') = - bound /\ moveDirection o' = Some 1)
      /\ (xadv <= bound -> - bound <= xadv ->
          at0 (position o') = xadv /\ moveDirection o' = moveDirection obj)
      /\ (0 < spd -> 0 <= sd -> - bound <= x -> x <= bound ->
          (moveDirection obj = Some 1 \/ moveDirection obj = Some (-1)) ->
          (bound < xadv -> moveDirection obj = Some 1)
          /\ (xadv < - bound -> moveDirection obj = Some (-1))))
  /\ (forall z s, exists b,
         keptObjects (snd (movingBarrier f z s)) = keptObjects s ++ [b]
         /\ type b = BARRIER /\ active b = true
         /\ (moveDirection b = Some 1 \/ moveDirection b = Some (-1))
         /\ moveSpeed b = Some (3 + inject_Z (level f) * 0.5)).
Proof.
  intros sd bound dir spd x xadv o'.
  refine (conj _ (conj _ (conj _ _))).
  - subst o'. unfold bodyOf.
    destruct (ObjectType_eq_dec (type obj) BARRIER) as [E | N].
    + now apply body_barrier.
    + now apply body_not_barrier.
  - subst o'. unfold bodyOf. intros [N | Ha].
    + now apply body_not_barrier.
    + now rewrite body_inactive.
  - intros Hty Ha. subst o'. unfold bodyOf.
    destruct (body_barrier (laneCount f) (speed f * safeDeltaOf f)
                (safeDeltaOf f) (playerPosOf f) (now f <? magnetEndTime f)
                u obj Hty) as (Hp & Hd & _).
    cbv zeta in Hp, Hd. rewrite Hp, Hd. clear Hp Hd.
    unfold barrierLogic.
    change (type (standardMovement (speed f * safeDeltaOf f) (safeDeltaOf f) obj))
      with (type obj).
    change (active (standardMovement (speed f * safeDeltaOf f) (safeDeltaOf f) obj))
      with (active obj).
    rewrite Hty, Ha. cbn [ObjectType_beq andb].
    change (at0 (position (standardMovement (speed f * safeDeltaOf f)
                             (safeDeltaOf f) obj))
            + Num.orDefault
                (moveDirection (standardMovement (speed f * safeDeltaOf f)
                                  (safeDeltaOf f) obj)) 1
              * Num.orDefault
                  (moveSpeed (standardMovement (speed f * safeDeltaOf f)
                                (safeDeltaOf f) obj)) 3
              * safeDeltaOf f)
      with xadv.
    change (maxX (laneCount f)) with bound.
    refine (conj _ (conj _ (conj _ _))).
    + intro H. apply gtb_gt in H. now rewrite H.
    + intros H1 H2. apply gtb_le in H1. apply ltb_lt in H2. now rewrite H1, H2.
    + intros H1 H2. apply gtb_le in H1. apply ltb_ge in H2. now rewrite H1, H2.
    + intros Hs Hsd Hlo Hhi Hdir. subst xadv dir.
      destruct Hdir as [E | E]; rewrite E; split; intro H; try reflexivity;
        exfalso; unfold Num.orDefault in H; cbn [Qeq_bool Qnum Qden] in H;
        cbn in H; nra.
  - intros z s. eexists. rewrite movingBarrier_push. split; [reflexivity|].
    cbn. repeat split. case_if; auto.
Qed.

Lemma barrier_oscillates_between_lane_boundaries_witness :
  let o' := s_obj (bodyOf Sample.quiet 100 (Sample.barrierAt 2.1 1)) in
  at0 (position o') = inject_Z (3 / 2) * LANE_WIDTH
  /\ moveDirection o' = Some (-1)
  /\ moveDirection (s_obj (bodyOf Sample.quiet 100 (Sample.obstacle (-50))))
     = moveDirection (Sample.obstacle (-50)).
Proof.
  cbv zeta.
  pose proof (barrier_oscillates_between_lane_boundaries Sample.quiet 100
                (Sample.barrierAt 2.1 1)) as H.
  pose proof (barrier_oscillates_between_lane_boundaries Sample.quiet 100
                (Sample.obstacle (-50))) as H'.
  cbv zeta in H, H'.
  destruct H as (_ & _ & H & _). destruct H' as (_ & H' & _).
  destruct (H eq_refl eq_refl) as (Hup & _).
  destruct Hup as [Hx Hd]; [reflexivity|].
  split; [exact Hx | split; [exact Hd|]].
  apply H'. left. discriminate.
Defined.

(** ** A tick without a resolved player *)

(** An active obstacle inside the forward window and the lateral threshold of
    a player standing on the ground at the origin is hit. *)
Lemma obstacle_hit_at_origin lc d sd mg u obj :
  type obj = OBSTACLE -> active obj = true ->
  at2 (position obj) < 2 -> -2 < at2 (position obj) + d ->
  Qabs (at0 (position obj)) < 0.9 ->
  In PlayerHit (s_events (loopBody lc d sd (mkVector3 0 0 0) mg u obj)).
Proof.
  intros Hty Ha Hprev Hcur Hx.
  destruct (body_fire_cases lc d sd (mkVector3 0 0 0) mg u obj)
    as [(([E | E] & _) & _) | (_ & _ & He & _)]; try congruence.
  rewrite He. rewrite (behaved_static lc d sd (mkVector3 0 0 0) mg obj)
    by congruence.
  set (o1 := standardMovement d sd obj).
  assert (Hz : at2 (position o1) = at2 (position obj) + d).
  { subst o1. cbn. unfold moveAmount. now rewrite Hty. }
  unfold collision.
  change (active o1) with (active obj). change (type o1) with (type obj).
  rewrite Ha, Hty. cbn [ObjectType_beq isDamageSource].
  assert (Hzone : inZZone (mkVector3 0 0 0) (at2 (position obj)) o1 = true).
  { apply inZZone_window. rewrite Hz. cbn [vz]. split; lra. }
  rewrite Hzone.
  assert (Hlat : (Qabs (at0 (position o1) - vx (mkVector3 0 0 0)) <? hitDist o1)
                 = true).
  { apply ltb_lt. unfold hitDist. change (type o1) with (type obj).
    rewrite Hty. cbn [ObjectType_beq orb vx].
    change (at0 (position o1)) with (at0 (position obj)).
    assert (E : at0 (position obj) - 0 == at0 (position obj)) by ring.
    now rewrite E. }
  rewrite Hlat.
  assert (Hhit : isHit (mkVector3 0 0 0) o1 = true).
  { unfold isHit, objBand. change (type o1) with (type obj). now rewrite Hty. }
  rewrite Hhit. cbn. now left.
Qed.

(** C9, as stated, fails: on a tick with no player object an active obstacle
    near the origin is collided with, deactivated, and the player-hit signal
    is emitted. *)
Lemma no_player_tick_still_collides :
  let f := Sample.frame None 1 [] 0.05 0.05 in
  let r := Sample.refs [Sample.obstacle (-1)] 0 in
  let t := tick f r in
  playerObj f = None
  /\ registeredActive 7 r = true
  /\ hd_error (t_events t) = Some PlayerHit
  /\ registeredInactive 7 (t_refs t) = true.
Proof. vm_compute. repeat split; reflexivity. Qed.

(** C9, amended. On a tick where the player object has not been resolved
    the player position is the origin (0, 0, 0) and the tick is exactly the
    tick of a player standing there: collision processing runs against the
    origin, so an active obstacle within the forward window and the lateral
    threshold of the origin is hit and the player-hit signal is emitted. *)
Theorem unresolved_player_stands_at_origin (f : Frame) (r : Refs) :
  playerObj f = None ->
  playerPosOf f = mkVector3 0 0 0
  /\ tick f r = tick (withPlayer f (Some (mkVector3 0 0 0))) r
  /\ (status f = PLAYING ->
      forall obj,
        In obj (objectsRef r) ->
        type obj = OBSTACLE -> active obj = true ->
        at2 (position obj) < 2 ->
        -2 < at2 (position obj) + speed f * safeDeltaOf f ->
        Qabs (at0 (position obj)) < 0.9 ->
        In PlayerHit (t_events (tick f r))).
Proof.
  intro Hp.
  assert (Hpos : playerPosOf f = mkVector3 0 0 0)
    by (unfold playerPosOf; now rewrite Hp).
  refine (conj Hpos (conj _ _)).
  - unfold tick, runLoop. cbn [status speed laneCount now magnetEndTime withPlayer].
    change (safeDeltaOf (withPlayer f (Some (mkVector3 0 0 0))))
      with (safeDeltaOf f).
    change (playerPosOf (withPlayer f (Some (mkVector3 0 0 0))))
      with (mkVector3 0 0 0).
    rewrite Hpos. reflexivity.
  - intros Hst obj Hin Hty Ha Hprev Hcur Hx.
    destruct (tick_registry f r Hst) as (_ & _ & _ & _ & He).
    rewrite He. apply in_flat_map.
    destruct (steps_covers (bodyOf f) (uuidNext r) (objectsRef r) obj Hin)
      as [u' Hs].
    exists (bodyOf f u' obj). split; [exact Hs|].
    unfold bodyOf. rewrite Hpos. now apply obstacle_hit_at_origin.
Qed.

Lemma unresolved_player_stands_at_origin_witness :
  In PlayerHit
     (t_events (tick (Sample.frame None 1 [] 0.05 0.05)
                     (Sample.refs [Sample.obstacle (-1)] 0))).
Proof.
  pose proof (unresolved_player_stands_at_origin
                (Sample.frame None 1 [] 0.05 0.05)
                (Sample.refs [Sample.obstacle (-1)] 0) eq_refl) as (_ & _ & H).
  apply (H eq_refl (Sample.obstacle (-1))).
  - now left.
  - reflexivity.
  - reflexivity.
  - reflexivity.
  - reflexivity.
  - reflexivity.
Defined.

(** ** Missiles fired during the loop *)





(** * Further properties of the code *)

(** ** The difficulty model *)

Lemma level_ge_1 (level : Z) : (1 <= level)%Z -> 1 <= inject_Z level.
Proof. intro H. change 1 with (inject_Z 1). now rewrite <- Zle_Qle. Qed.

Ltac split_min :=
  repeat match goal with
    | |- context [Qmin ?a ?b] =>
        let E := fresh "E" in
        destruct (Q.min_spec a b) as [[? E] | [? E]]; rewrite E; clear E
    | |- context [Qmax ?a ?b] =>
        let E := fresh "E" in
        destruct (Q.max_spec a b) as [[? E] | [? E]]; rewrite E; clear E
    end.

(** From level 1 on, every chance of the difficulty model is a probability
    within its advertised band, the two multi-obstacle thresholds are
    ordered, the power-up chance stays below the 0.3 of the bonus-gem roll,
    and the minimum gap lies between 10 and 13.5. *)
Theorem difficulty_within_bands (lvl : Z) :
  (1 <= lvl)%Z ->
  let c := getDifficultyConfig lvl in
  (0.25 <= obstacleChance c /\ obstacleChance c <= 0.50)
  /\ (0.55 <= multiObstacleChance c /\ multiObstacleChance c <= 0.85)
  /\ (0.82 <= tripleObstacleChance c /\ tripleObstacleChance c <= 0.95)
  /\ multiObstacleChance c < tripleObstacleChance c
  /\ (0 <= droneChance c /\ droneChance c <= 0.25)
  /\ (0 <= alienChance c /\ alienChance c <= 0.35)
  /\ (0 <= gapChance c /\ gapChance c <= 0.15)
  /\ (0.06 <= powerupChance c /\ powerupChance c <= 0.12)
  /\ (10 <= minGap c /\ minGap c <= 13.5)
  /\ 50 <= gemBaseValue c /\ 100 <= gemBonusValue c.
Proof.
  intros Hl c. subst c. apply level_ge_1 in Hl as Hq.
  unfold getDifficultyConfig.
  cbn [obstacleChance multiObstacleChance tripleObstacleChance droneChance
       alienChance gapChance powerupChance minGap gemBaseValue gemBonusValue].
  assert (H2 : (lvl >=? 2)%Z = true -> 2 <= inject_Z lvl).
  { intro H. apply Z.geb_le in H. change 2 with (inject_Z 2).
    now rewrite <- Zle_Qle. }
  assert (H4 : (lvl >=? 4)%Z = true -> 4 <= inject_Z lvl).
  { intro H. apply Z.geb_le in H. change 4 with (inject_Z 4).
    now rewrite <- Zle_Qle. }
  set (l := inject_Z lvl) in *.
  repeat split;
    try (destruct (lvl >=? 2)%Z eqn:E2; [specialize (H2 eq_refl)|]);
    try (destruct (lvl >=? 4)%Z eqn:E4; [specialize (H4 eq_refl)|]);
    split_min; lra.
Qed.

Lemma difficulty_within_bands_witness :
  multiObstacleChance (getDifficultyConfig 3)
  < tripleObstacleChance (getDifficultyConfig 3).
Proof.
  assert (H : (1 <= 3)%Z) by lia.
  pose proof (difficulty_within_bands 3 H) as B. cbv zeta in B.
  exact (proj1 (proj2 (proj2 (proj2 B)))).
Defined.

(** Raising the level never lowers the obstacle, multi-obstacle, drone, alien
    or power-up chances nor the gem values, never widens the minimum gap, and
    lengthens the letter interval by 80 per level. *)
Theorem difficulty_monotone (l1 l2 : Z) :
  (l1 <= l2)%Z ->
  let c1 := getDifficultyConfig l1 in
  let c2 := getDifficultyConfig l2 in
  obstacleChance c1 <= obstacleChance c2
  /\ multiObstacleChance c1 <= multiObstacleChance c2
  /\ tripleObstacleChance c1 <= tripleObstacleChance c2
  /\ droneChance c1 <= droneChance c2
  /\ alienChance c1 <= alienChance c2
  /\ powerupChance c1 <= powerupChance c2
  /\ minGap c2 <= minGap c1
  /\ gemBaseValue c1 <= gemBaseValue c2
  /\ gemBonusValue c1 <= gemBonusValue c2
  /\ getLetterInterval l1 <= getLetterInterval l2
  /\ getLetterInterval (l1 + 1) == getLetterInterval l1 + 80.
Proof.
  intros Hl c1 c2. subst c1 c2.
  assert (Hq : inject_Z l1 <= inject_Z l2) by (now rewrite <- Zle_Qle).
  unfold getDifficultyConfig, getLetterInterval, BASE_LETTER_INTERVAL.
  cbn [obstacleChance multiObstacleChance tripleObstacleChance droneChance
       alienChance gapChance powerupChance minGap gemBaseValue gemBonusValue].
  rewrite inject_Z_plus. change (inject_Z 1) with 1.
  assert (H1 : (l1 >=? 2)%Z = true -> 2 <= inject_Z l1).
  { intro H. apply Z.geb_le in H. change 2 with (inject_Z 2).
    now rewrite <- Zle_Qle. }
  assert (H2 : (l2 >=? 2)%Z = true -> 2 <= inject_Z l2).
  { intro H. apply Z.geb_le in H. change 2 with (inject_Z 2).
    now rewrite <- Zle_Qle. }
  assert (H12 : (l1 >=? 2)%Z = true -> (l2 >=? 2)%Z = true).
  { intro H. apply Z.geb_le in H. apply Z.geb_le. lia. }
  set (a := inject_Z l1) in *. set (b := inject_Z l2) in *.
  repeat split;
    try (destruct (l1 >=? 2)%Z eqn:E1;
         [specialize (H1 eq_refl); rewrite (H12 eq_refl); specialize (H2 (H12 eq_refl))
         | destruct (l2 >=? 2)%Z eqn:E2; [specialize (H2 eq_refl)|]]);
    split_min; lra.
Qed.

Lemma difficulty_monotone_witness :
  minGap (getDifficultyConfig 5) <= minGap (getDifficultyConfig 2).
Proof.
  assert (H : (2 <= 5)%Z) by lia.
  pose proof (difficulty_monotone 2 5 H) as B. cbv zeta in B.
  exact (proj1 (proj2 (proj2 (proj2 (proj2 (proj2 (proj2 B))))))).
Defined.

(** ** Lanes and spacing *)

Lemma getRandomLane_roll f lc s :
  fst (getRandomLane f lc s) = laneOfRoll lc (random f (rolls s)).
Proof. reflexivity. Qed.

(** With at least one lane and a roll of [0, 1), [getRandomLane] returns a
    lane between [-floor (laneCount / 2)] and [floor (laneCount / 2)], so the
    lane coordinate of what is spawned there lies within the boundaries the
    barriers bounce off; and every lane of that range is returned for some
    roll of [0, 1). *)
Theorem getRandomLane_within_lanes (f : Frame) (lc : Z) (s : Plan) :
  unitRolls f -> (0 <= lc)%Z ->
  let lane := fst (getRandomLane f lc s) in
  (- (lc / 2) <= lane <= lc / 2)%Z
  /\ - maxX lc <= laneX lane /\ laneX lane <= maxX lc
  /\ (forall k, (- (lc / 2) <= k <= lc / 2)%Z ->
        exists r, 0 <= r /\ r < 1 /\ laneOfRoll lc r = k).
Proof.
  intros Hr Hlc lane. subst lane. rewrite getRandomLane_roll.
  destruct (Hr (rolls s)) as [H0 H1].
  assert (Hmax : (0 <= lc / 2)%Z) by (apply Z.div_pos; lia).
  assert (Hn : (0 < lc / 2 * 2 + 1)%Z) by lia.
  pose proof (Qfloor_roll (random f (rolls s)) (lc / 2 * 2 + 1) H0 H1 Hn) as Hk.
  assert (Hrange : (- (lc / 2) <= laneOfRoll lc (random f (rolls s)) <= lc / 2)%Z)
    by (unfold laneOfRoll; lia).
  split; [exact Hrange|].
  assert (Hq : inject_Z (- (lc / 2))
               <= inject_Z (laneOfRoll lc (random f (rolls s)))
               /\ inject_Z (laneOfRoll lc (random f (rolls s)))
                  <= inject_Z (lc / 2)).
  { rewrite <- !Zle_Qle. exact Hrange. }
  rewrite inject_Z_opp in Hq.
  unfold maxX, laneX, LANE_WIDTH.
  refine (conj _ (conj _ _)); try lra.
  intros k Hkr.
  set (n := (lc / 2 * 2 + 1)%Z) in *.
  assert (Hnq : 0 < inject_Z n).
  { change 0 with (inject_Z 0). now rewrite <- Zlt_Qlt. }
  exists (inject_Z (k + lc / 2) / inject_Z n).
  assert (Hnum : 0 <= inject_Z (k + lc / 2) /\ inject_Z (k + lc / 2) < inject_Z n).
  { change 0 with (inject_Z 0). rewrite <- Zle_Qle, <- Zlt_Qlt. subst n. lia. }
  refine (conj _ (conj _ _)).
  - apply Qle_shift_div_l; lra.
  - apply Qlt_shift_div_r; lra.
  - unfold laneOfRoll. fold n.
    assert (E : inject_Z (k + lc / 2) / inject_Z n * inject_Z n
                == inject_Z (k + lc / 2)).
    { field. lra. }
    rewrite (Qfloor_comp _ _ E), Qfloor_Z. lia.
Qed.

Lemma getRandomLane_within_lanes_witness :
  (- (3 / 2) <= fst (getRandomLane Sample.quiet 3
                       (mkPlan [] 0 100 200 false)) <= 3 / 2)%Z.
Proof.
  assert (Hr : unitRolls Sample.quiet)
    by (intro n; split; vm_compute; congruence).
  assert (Hlc : (0 <= 3)%Z) by lia.
  exact (proj1 (getRandomLane_within_lanes Sample.quiet 3
                  (mkPlan [] 0 100 200 false) Hr Hlc)).
Defined.

(** Whatever the level, with a non-negative speed the spawn point lies at
    least 10 units beyond the spawn horizon and never closer than the
    spawn-ahead distance; at a higher speed it lies farther out. *)
Theorem spawn_point_keeps_its_distance (f : Frame) (kept : list GameObject) :
  0 <= speed f ->
  spawnZ f kept <= furthestZ kept - 10
  /\ spawnZ f kept <= -120
  /\ (spawnZ f kept == -120
      \/ spawnZ f kept == furthestZ kept - (minGap (config f) + speed f * 0.3)).
Proof.
  intro Hs. unfold spawnZ, SPAWN_DISTANCE.
  assert (Hg : 10 <= minGap (config f)).
  { unfold config, getDifficultyConfig. cbn [minGap]. apply Q.le_max_l. }
  assert (E : - (120) == -120) by reflexivity.
  set (g := minGap (config f)) in *.
  destruct (Q.min_spec (furthestZ kept - (g + speed f * 0.3)) (- (120)))
    as [[H ->] | [H ->]]; repeat split; lra.
Qed.

Lemma spawn_point_keeps_its_distance_witness :
  spawnZ Sample.quiet [Sample.obstacle (-100)]
  <= furthestZ [Sample.obstacle (-100)] - 10.
Proof.
  assert (Hs : 0 <= speed Sample.quiet) by (vm_compute; congruence).
  exact (proj1 (spawn_point_keeps_its_distance Sample.quiet
                  [Sample.obstacle (-100)] Hs)).
Defined.

(** ** Movement over a tick *)

Lemma behaved_forward lc d sd pp mg obj :
  at2 (position (barrierLogic lc sd (droneLogic sd pp (magnetLogic sd pp mg
         (standardMovement d sd obj)))))
  = at2 (position (magnetLogic sd pp mg (standardMovement d sd obj))).
Proof. unfold barrierLogic, droneLogic. repeat case_if; reflexivity. Qed.

Lemma body_forward lc d sd pp mg u obj :
  at2 (position (s_obj (loopBody lc d sd pp mg u obj)))
  = at2 (position (magnetLogic sd pp mg (standardMovement d sd obj))).
Proof.
  unfold loopBody. cbn zeta. cbn [s_obj]. rewrite collision_position.
  set (o4 := barrierLogic lc sd _).
  destruct (fired_fields_alien (u + List.length (f_spawns (turretLogic u o4)))
              (f_obj (turretLogic u o4))) as (_ & _ & ->).
  destruct (fired_fields_turret u o4) as (_ & _ & ->).
  subst o4. apply behaved_forward.
Qed.

(** Whatever else happens to it in the iteration, an object that is not a
    Gem ends the tick exactly speed x dt farther along the forward axis, a
    Missile (speed + 30) x dt, where dt is the elapsed time capped at 0.05;
    a Gem does too unless the magnet pulls it.  With a non-negative speed and
    elapsed time no such coordinate ever decreases. *)
Theorem forward_coordinate_advances (f : Frame) (u : nat) (obj : GameObject) :
  let sd := safeDeltaOf f in
  let z' := at2 (position (s_obj (bodyOf f u obj))) in
  let z := at2 (position obj) in
  (type obj = MISSILE -> z' = z + (speed f * sd + MISSILE_SPEED * sd))
  /\ (type obj <> MISSILE -> type obj <> GEM -> z' = z + speed f * sd)
  /\ (type obj = GEM -> active obj = false \/ magnetEndTime f <= now f ->
      z' = z + speed f * sd)
  /\ (0 <= speed f -> 0 <= delta f -> type obj <> GEM -> z <= z').
Proof.
  intros sd z' z. subst z' z. unfold bodyOf. rewrite body_forward. fold sd.
  assert (Hm : type obj <> MISSILE ->
               moveAmount (speed f * sd) sd obj = speed f * sd).
  { intro H. unfold moveAmount. destruct (type obj); cbn; congruence. }
  assert (Hsd : 0 <= delta f -> 0 <= sd).
  { intro H. subst sd. unfold safeDeltaOf. apply Q.min_glb; [exact H|].
    discriminate. }
  refine (conj _ (conj _ (conj _ _))).
  - intro Hty. rewrite magnetLogic_other by (cbn; congruence).
    cbn. unfold moveAmount. now rewrite Hty.
  - intros Hn Hg. rewrite magnetLogic_other by (cbn; congruence).
    cbn. now rewrite Hm.
  - intros Hty [Ha | Hoff].
    + rewrite magnetLogic_inactive by exact Ha. cbn. rewrite Hm; congruence.
    + apply ltb_ge in Hoff. rewrite Hoff. cbn. rewrite Hm; congruence.
  - intros Hs Hd Hg. rewrite magnetLogic_other by (cbn; congruence).
    cbn. specialize (Hsd Hd).
    destruct (ObjectType_eq_dec (type obj) MISSILE) as [E | N].
    + unfold moveAmount, MISSILE_SPEED. rewrite E. cbn [ObjectType_beq]. nra.
    + rewrite (Hm N). nra.
Qed.

Lemma forward_coordinate_advances_witness :
  at2 (position (Sample.obstacle (-50)))
  <= at2 (position (s_obj (bodyOf Sample.quiet 100 (Sample.obstacle (-50))))).
Proof.
  pose proof (forward_coordinate_advances Sample.quiet 100
                (Sample.obstacle (-50))) as H.
  cbv zeta in H. destruct H as (_ & _ & _ & H).
  apply H.
  - vm_compute. congruence.
  - vm_compute. congruence.
  - discriminate.
Defined.

(** ** The registry a tick publishes *)

Lemma body_kept_before_removal lc d sd pp mg u obj :
  s_keep (loopBody lc d sd pp mg u obj) = true ->
  at2 (position (s_obj (loopBody lc d sd pp mg u obj))) <= 20.
Proof.
  destruct (body_shape lc d sd pp mg u obj) as (o' & _ & _ & _ & _ & Hk).
  cbv zeta in Hk. rewrite Hk. intro H.
  apply Bool.andb_true_iff in H. destruct H as [_ H].
  apply Bool.negb_true_iff in H. now apply gtb_le in H.
Qed.

Lemma body_spawns_at_most_one lc d sd pp mg u obj :
  (List.length (s_spawns (loopBody lc d sd pp mg u obj)) <= 1)%nat.
Proof.
  destruct (body_fire_cases lc d sd pp mg u obj)
    as [(_ & Hs & _) | (_ & Hs & _)]; cbv zeta in Hs; rewrite Hs; cbn; lia.
Qed.

Lemma steps_spawns_bound lc d sd pp mg u objs :
  (List.length (flat_map s_spawns (steps (loopBody lc d sd pp mg) u objs))
   <= List.length objs)%nat.
Proof.
  revert u. induction objs as [|o rest IH]; intro u; cbn [steps flat_map].
  - cbn. lia.
  - rewrite length_app. cbn [List.length].
    pose proof (body_spawns_at_most_one lc d sd pp mg u o).
    specialize (IH (u + List.length (s_spawns (loopBody lc d sd pp mg u o)))%nat).
    lia.
Qed.

Lemma spawnZ_le f kept : spawnZ f kept <= -120.
Proof. unfold spawnZ. apply Q.le_min_r. Qed.


Lemma collision_quiet pp prevZ o :
  c_changes (collision pp prevZ o) = false -> c_events (collision pp prevZ o) = [].
Proof. unfold collision. repeat case_if; cbn; congruence. Qed.

Lemma body_quiet lc d sd pp mg u obj :
  s_changes (loopBody lc d sd pp mg u obj) = false ->
  s_events (loopBody lc d sd pp mg u obj) = []
  /\ id (s_obj (loopBody lc d sd pp mg u obj)) = id obj.
Proof.
  intro H. destruct (body_unchanged lc d sd pp mg u obj H) as [_ Hs].
  destruct (body_fire_cases lc d sd pp mg u obj)
    as [(_ & Hs' & _) | (_ & _ & He & _)].
  - cbv zeta in Hs'. rewrite Hs in Hs'. discriminate.
  - unfold loopBody in H |- *. cbn [s_changes s_events s_obj] in *.
    apply Bool.orb_false_iff in H. destruct H as [H _].
    apply Bool.orb_false_iff in H. destruct H as [_ Hc].
    unfold loopBody in He. cbn [s_events] in He.
    split.
    + rewrite He.
      unfold loopBody in Hs. cbn [s_spawns] in Hs.
      apply app_eq_nil in Hs. destruct Hs as [Ht Ha].
      assert (Et : f_obj (turretLogic u
                     (barrierLogic lc sd (droneLogic sd pp (magnetLogic sd pp mg
                        (standardMovement d sd obj)))))
                   = barrierLogic lc sd (droneLogic sd pp (magnetLogic sd pp mg
                        (standardMovement d sd obj)))).
      { revert Ht. unfold turretLogic. case_if; cbn; [discriminate | reflexivity]. }
      rewrite Et in Ha, Hc. rewrite Ht in Ha, Hc. cbn [List.length] in Ha, Hc.
      assert (Ea : f_obj (alienLogic (u + 0)
                     (barrierLogic lc sd (droneLogic sd pp (magnetLogic sd pp mg
                        (standardMovement d sd obj)))))
                   = barrierLogic lc sd (droneLogic sd pp (magnetLogic sd pp mg
                        (standardMovement d sd obj)))).
      { revert Ha. unfold alienLogic. case_if; cbn; [discriminate | reflexivity]. }
      rewrite Ea in Hc. now apply collision_quiet.
    + destruct (collision_fields pp (at2 (position obj))
                  (f_obj (alienLogic
                     (u + List.length (f_spawns (turretLogic u
                        (barrierLogic lc sd (droneLogic sd pp
                           (magnetLogic sd pp mg (standardMovement d sd obj)))))))
                     (f_obj (turretLogic u
                        (barrierLogic lc sd (droneLogic sd pp
                           (magnetLogic sd pp mg (standardMovement d sd obj)))))))))
        as (Hid & _).
      cbv zeta in Hid. rewrite Hid.
      unfold alienLogic, turretLogic, barrierLogic, droneLogic, magnetLogic.
      repeat case_if; reflexivity.
Qed.

Lemma steps_quiet lc d sd pp mg u objs :
  let ss := steps (loopBody lc d sd pp mg) u objs in
  existsb s_changes ss = false ->
  flat_map s_events ss = [] /\ flat_map s_spawns ss = []
  /\ map (fun s => id (s_obj s)) ss = map id objs.
Proof.
  revert u. induction objs as [|o rest IH]; intros u; cbn zeta; [now cbn|].
  cbn [steps existsb flat_map map]. intro H.
  apply Bool.orb_false_iff in H. destruct H as [Ho Hrest].
  destruct (body_unchanged lc d sd pp mg u o Ho) as [_ Hs].
  destruct (body_quiet lc d sd pp mg u o Ho) as [He Hid].
  rewrite Hs in Hrest |- *. cbn [List.length] in Hrest |- *.
  rewrite Nat.add_0_r in Hrest |- *.
  destruct (IH u Hrest) as (E1 & E2 & E3).
  rewrite He, Hid, E1, E2, E3. auto.
Qed.

(** Nothing happens behind the renderer's back: a tick that does not ask for
    a re-render ([hasChanges] stays false) has emitted no event, fired and
    spawned nothing, removed nothing (the registry holds the same objects in
    the same order) and left the letter threshold alone. *)
Theorem tick_without_changes_is_silent (f : Frame) (r : Refs) :
  status f = PLAYING ->
  t_changes (tick f r) = false ->
  t_events (tick f r) = []
  /\ map id (objectsRef (t_refs (tick f r))) = map id (objectsRef r)
  /\ nextLetterDistance (t_refs (tick f r)) = nextLetterDistance r
  /\ uuidNext (t_refs (tick f r)) = uuidNext r.
Proof.
  intros Hst. unfold tick. rewrite Hst. cbn [GameStatus_beq].
  rewrite runLoop_steps. cbv zeta.
  set (ss := steps (bodyOf f) (uuidNext r) (objectsRef r)).
  cbn [l_all l_kept l_new l_events l_changes l_uuid]. rewrite pushNew.
  set (s0 := mkPlan _ 0 _ _ _).
  pose proof (spawning_changes f (distanceTraveled r + speed f * safeDeltaOf f) s0)
    as C.
  destruct (spawning f (distanceTraveled r + speed f * safeDeltaOf f) s0)
    as [[] p]. cbn [snd] in C.
  cbn [t_changes t_events t_refs objectsRef nextLetterDistance uuidNext].
  intro Hp. rewrite Hp.
  destruct C as [C | (_ & C2 & C3 & C4)]; [congruence|].
  rewrite Hp in C2. subst s0. cbn [hasChanges nextLetter uuid] in C2, C3, C4.
  destruct (steps_quiet (laneCount f) (speed f * safeDeltaOf f) (safeDeltaOf f)
              (playerPosOf f) (now f <? magnetEndTime f) (uuidNext r)
              (objectsRef r) (eq_sym C2)) as (E1 & E2 & E3).
  change (steps (loopBody (laneCount f) (speed f * safeDeltaOf f)
                   (safeDeltaOf f) (playerPosOf f) (now f <? magnetEndTime f))
                (uuidNext r) (objectsRef r)) with ss in E1, E2, E3.
  rewrite E2 in C4. cbn [List.length] in C4. rewrite Nat.add_0_r in C4.
  rewrite map_map. auto.
Qed.

Lemma tick_without_changes_is_silent_witness :
  t_events (tick Sample.quiet (Sample.refs [Sample.obstacle (-50)] 0)) = [].
Proof.
  exact (proj1 (tick_without_changes_is_silent Sample.quiet
                  (Sample.refs [Sample.obstacle (-50)] 0) eq_refl eq_refl)).
Defined.

(** ** Shop portal and pickups *)

(** A ShopPortal triggers on forward proximity alone: whatever its lane
    coordinate and wherever it was before the tick, an active portal whose
    forward coordinate after the tick's advance is within 2 of the player's
    opens the shop, is deactivated and leaves the registry in that very tick,
    emitting nothing else; farther away it is untouched, and it never hits
    the player. *)
Theorem shop_portal_triggers_on_forward_proximity (f : Frame) (u : nat)
  (obj : GameObject) :
  type obj = SHOP_PORTAL -> active obj = true ->
  let s := bodyOf f u obj in
  let z' := at2 (position obj) + speed f * safeDeltaOf f in
  (Qabs (z' - vz (playerPosOf f)) < 2 ->
   s_events s = [OpenShop] /\ s_keep s = false /\ active (s_obj s) = false
   /\ s_changes s = true)
  /\ (2 <= Qabs (z' - vz (playerPosOf f)) ->
      s_events s = [] /\ active (s_obj s) = true
      /\ (s_keep s = true <-> z' <= 20))
  /\ s_spawns s = [] /\ ~ In PlayerHit (s_events s).
Proof.
  intros Hty Ha s z'. subst s. unfold bodyOf, loopBody. cbn zeta.
  rewrite (behaved_static (laneCount f) (speed f * safeDeltaOf f)
             (safeDeltaOf f) (playerPosOf f) (now f <? magnetEndTime f) obj)
    by congruence.
  set (o1 := standardMovement (speed f * safeDeltaOf f) (safeDeltaOf f) obj).
  assert (Ht1 : type o1 = SHOP_PORTAL) by exact Hty.
  assert (Hz1 : at2 (position o1) = z').
  { subst o1 z'. cbn. unfold moveAmount. now rewrite Hty. }
  rewrite (turretLogic_other u o1) by congruence.
  cbn [f_obj f_spawns f_events List.length app].
  rewrite (alienLogic_other _ o1) by congruence.
  cbn [f_obj f_spawns f_events app s_events s_keep s_obj s_changes s_spawns].
  unfold collision. change (active o1) with (active obj).
  rewrite Ha, Ht1. cbn [ObjectType_beq]. rewrite Hz1.
  destruct (Qabs (z' - vz (playerPosOf f)) <? 2) eqn:E.
  - apply ltb_lt in E. cbn [c_obj c_events c_keep c_changes].
    refine (conj _ (conj _ (conj eq_refl _))).
    + intros _. cbn. auto.
    + intro H. lra.
    + cbn. intros [H | []]. discriminate.
  - apply ltb_ge in E. cbn [c_obj c_events c_keep c_changes].
    refine (conj _ (conj _ (conj eq_refl _))).
    + intro H. lra.
    + intros _. refine (conj eq_refl (conj Ha _)).
      unfold pastRemoval, REMOVE_DISTANCE. rewrite Hz1. cbn [andb].
      rewrite Bool.negb_true_iff. apply gtb_le.
    + cbn. tauto.
Qed.

Lemma shop_portal_triggers_on_forward_proximity_witness :
  s_events (bodyOf Sample.quiet 100 (shopPortal 9)) = []
  /\ s_events (bodyOf Sample.quiet 100
                 (setPosition (shopPortal 9) (mkTriple 5 0 (-2)))) = [OpenShop].
Proof.
  pose proof (shop_portal_triggers_on_forward_proximity Sample.quiet 100
                (shopPortal 9) eq_refl eq_refl) as H.
  pose proof (shop_portal_triggers_on_forward_proximity Sample.quiet 100
                (setPosition (shopPortal 9) (mkTriple 5 0 (-2)))
                eq_refl eq_refl) as H'.
  cbv zeta in H, H'.
  destruct H as (_ & H & _). destruct H' as (H' & _).
  split.
  - apply H. vm_compute. discriminate.
  - apply H'. reflexivity.
Defined.

(** On an active pickup the block either collects it, the window, the
    lateral threshold and the vertical reach being met, or leaves it alone. *)
Lemma collision_pickup_cases pp prevZ obj :
  active obj = true -> type obj <> SHOP_PORTAL ->
  isDamageSource (type obj) = false ->
  let cond :=
    (prevZ < vz pp + 2.0 /\ vz pp - 2.0 < at2 (position obj))
    /\ Qabs (at0 (position obj) - vx pp) < specHitDist (type obj)
    /\ Qabs (at1 (position obj) - vy pp) < 2.5 in
  (cond /\ collision pp prevZ obj
           = mkCollided (setActive obj false)
               (collectCalls obj
                ++ [ParticleBurst (position obj) (colorOr obj "#ffffff")])
               true true)
  \/ (~ cond /\ collision pp prevZ obj = mkCollided obj [] true false).
Proof.
  intros Ha Hty Hd cond. subst cond.
  pose proof (inZZone_window pp prevZ obj) as Hw.
  assert (Hl : (Qabs (at0 (position obj) - vx pp) <? hitDist obj) = true
               <-> Qabs (at0 (position obj) - vx pp) < specHitDist (type obj))
    by (rewrite hitDist_spec; apply ltb_lt).
  assert (Hr : (Qabs (at1 (position obj) - vy pp) <? 2.5) = true
               <-> Qabs (at1 (position obj) - vy pp) < 2.5)
    by apply ltb_lt.
  unfold collision. rewrite Ha, (not_portal _ Hty), Hd.
  destruct (inZZone pp prevZ obj) eqn:Ez;
    [destruct (Qabs (at0 (position obj) - vx pp) <? hitDist obj) eqn:Ex;
     [destruct (Qabs (at1 (position obj) - vy pp) <? 2.5) eqn:Ey|]|].
  - left. split; [|reflexivity].
    split; [now apply Hw | split; [now apply Hl | now apply Hr]].
  - right. split; [|reflexivity]. intros (_ & _ & H). apply Hr in H. discriminate.
  - right. split; [|reflexivity]. intros (_ & H & _). apply Hl in H. discriminate.
  - right. split; [|reflexivity]. intros (H & _). apply Hw in H. discriminate.
Qed.

(** ** Level gating of the planner *)

Lemma appends_bind_post {A B} P (Qv : A -> Prop) (m : M A) (k : A -> M B) :
  (forall s, Qv (fst (m s))) -> Appends P m ->
  (forall a, Qv a -> Appends P (k a)) -> Appends P (bind m k).
Proof.
  intros Hv Hm Hk s. unfold bind.
  specialize (Hv s). destruct (Hm s) as (l1 & E1 & F1).
  destruct (m s) as [a s1]. cbn in E1, Hv.
  destruct (Hk a Hv s1) as (l2 & E2 & F2).
  exists (l1 ++ l2). rewrite E2, E1, app_assoc. split; [reflexivity|].
  apply Forall_app. now split.
Qed.

Lemma droneChance_unlocked lvl :
  0 < droneChance (getDifficultyConfig lvl) -> (2 <= lvl)%Z.
Proof.
  unfold getDifficultyConfig. cbn [droneChance].
  destruct (lvl >=? 2)%Z eqn:E; intro H.
  - now apply Z.geb_le in E.
  - exfalso. revert H. apply Qlt_irrefl.
Qed.

Lemma alienChance_unlocked lvl :
  0 < alienChance (getDifficultyConfig lvl) -> (2 <= lvl)%Z.
Proof.
  unfold getDifficultyConfig. cbn [alienChance].
  destruct (lvl >=? 2)%Z eqn:E; intro H.
  - now apply Z.geb_le in E.
  - exfalso. revert H. apply Qlt_irrefl.
Qed.

Lemma level_gate (lvl n : Z) (b : bool) :
  (lvl >=? n)%Z && b = true -> (n <= lvl)%Z.
Proof. intro H. apply Bool.andb_true_iff in H. destruct H as [H _]. now apply Z.geb_le in H. Qed.

(** Decompose a planner action, closing the obligation of each push with
    [tac]. *)
Ltac appends_by tac :=
  repeat first
    [ apply appends_ret
    | apply appends_push; intro; cbn; solve [tac]
    | solve [auto with planner]
    | apply appends_forEach; intro
    | apply appends_bind; [|intro]
    | match goal with
      | |- Appends _ (if ?b then _ else _) => destruct b
      end ].

Lemma gated_obstacles f z :
  unitRolls f ->
  Appends (fun o => unlockedAt (level f) (type o)) (obstacles f z).
Proof.
  intro Hr. unfold obstacles.
  apply appends_bind; [auto with planner | intro roll].
  destruct ((level f >=? 4)%Z && (roll <? 0.10)) eqn:E1.
  { apply level_gate in E1. unfold laserGate. appends_by ltac:(exact E1). }
  destruct ((level f >=? 5)%Z && (roll <? 0.18)) eqn:E2.
  { apply level_gate in E2. unfold movingBarrier, getRandomLane.
    appends_by ltac:(exact E2). }
  destruct ((level f >=? 3)%Z && (roll <? 0.30)) eqn:E3.
  { apply level_gate in E3. unfold spikeFloors, randomBelow.
    appends_by ltac:(exact E3). }
  destruct ((level f >=? 6)%Z && (roll <? 0.38)) eqn:E4.
  { apply level_gate in E4. unfold turret, getRandomLane.
    appends_by ltac:(exact E4). }
  apply (appends_bind_post _ (fun a => 0 <= a)).
  { intro s. apply Hr. }
  { auto with planner. }
  intros r1 H1.
  destruct (r1 <? droneChance (config f)) eqn:Ed.
  { apply ltb_lt in Ed.
    assert (Hl : (2 <= level f)%Z)
      by (apply droneChance_unlocked; unfold config in Ed; lra).
    unfold drone, getRandomLane. appends_by ltac:(exact Hl). }
  apply (appends_bind_post _ (fun a => 0 <= a)).
  { intro s. apply Hr. }
  { auto with planner. }
  intros r2 H2.
  destruct (r2 <? alienChance (config f)) eqn:Ea.
  { apply ltb_lt in Ea.
    assert (Hl : (2 <= level f)%Z)
      by (apply alienChance_unlocked; unfold config in Ea; lra).
    unfold aliens. appends_by ltac:(exact Hl). }
  unfold standardObstacles, powerup, gem.
  appends_by ltac:(try case_if; exact I).
Qed.

Lemma gated_groundItems f z :
  Appends (fun o => unlockedAt (level f) (type o)) (groundItems f z).
Proof.
  unfold groundItems, getRandomLane.
  apply appends_bind; [appends_by ltac:(exact I) | intro lane].
  apply (appends_bind_post _ (fun b => b = true -> (4 <= level f)%Z)).
  { intro s. unfold unlockedRoll.
    destruct (level f >=? 4)%Z eqn:E; cbn.
    - intros _. now apply Z.geb_le in E.
    - discriminate. }
  { unfold unlockedRoll. appends_by ltac:(exact I). }
  intros jump Hj. destruct jump.
  { specialize (Hj eq_refl). appends_by ltac:(exact Hj). }
  apply (appends_bind_post _ (fun b => b = true -> (7 <= level f)%Z)).
  { intro s. unfold unlockedRoll.
    destruct (level f >=? 7)%Z eqn:E; cbn.
    - intros _. now apply Z.geb_le in E.
    - discriminate. }
  { unfold unlockedRoll. appends_by ltac:(exact I). }
  intros boost Hb. destruct boost.
  { specialize (Hb eq_refl). appends_by ltac:(exact Hb). }
  unfold powerup, gem. appends_by ltac:(try case_if; exact I).
Qed.

Lemma gated_letterDue f z :
  Appends (fun o => unlockedAt (level f) (type o)) (letterDue f z).
Proof.
  unfold letterDue, getRandomLane, randomBelow. appends_by ltac:(exact I).
Qed.

(** The planner respects the unlock levels: with rolls in [0, 1), whatever a
    tick spawns is a Letter, Gem, Obstacle, Magnet or Shield, or a type whose
    unlock level has been reached (spike floors from level 3, laser gates and
    jump pads from 4, barriers from 5, turrets from 6, speed boosts from 7,
    drones and aliens from 2); it never spawns a portal or a missile.  At
    level 1 only the five basic types appear. *)
Theorem planner_respects_unlock_levels (f : Frame) (d : Q) (s : Plan) :
  unitRolls f ->
  exists l,
    keptObjects (snd (spawning f d s)) = keptObjects s ++ l
    /\ Forall (fun o => unlockedAt (level f) (type o)) l
    /\ (level f = 1%Z ->
        Forall (fun o => type o = LETTER \/ type o = GEM \/ type o = OBSTACLE
                         \/ type o = MAGNET \/ type o = SHIELD) l).
Proof.
  intro Hr.
  assert (Hz : forall z,
             Appends (fun o => unlockedAt (level f) (type o)) (spawnAt f d z)).
  { intro z.
    pose proof (gated_letterDue f z). pose proof (gated_obstacles f z Hr).
    pose proof (gated_groundItems f z).
    unfold spawnAt. appends_by ltac:(exact I); assumption. }
  assert (H : Appends (fun o => unlockedAt (level f) (type o)) (spawning f d)).
  { intro s0. unfold spawning. destruct (spawnGate (keptObjects s0)).
    - apply Hz.
    - exists []. cbn. rewrite app_nil_r. split; constructor. }
  destruct (H s) as (l & E & F). exists l. refine (conj E (conj F _)).
  intro Hl. eapply Forall_impl; [|exact F].
  intros o Ho. rewrite Hl in Ho. destruct (type o); cbn in Ho; auto 10; lia.
Qed.

Lemma planner_respects_unlock_levels_witness :
  exists l,
    keptObjects (snd (spawning (Sample.frame None 1 [] 0.05 0.5) 0
                        (mkPlan [Sample.obstacle (-100)] 0 100 200 false)))
    = [Sample.obstacle (-100)] ++ l
    /\ Forall (fun o => type o = LETTER \/ type o = GEM \/ type o = OBSTACLE
                        \/ type o = MAGNET \/ type o = SHIELD) l.
Proof.
  assert (Hr : unitRolls (Sample.frame None 1 [] 0.05 0.5))
    by (intro n; split; vm_compute; congruence).
  destruct (planner_respects_unlock_levels (Sample.frame None 1 [] 0.05 0.5) 0
              (mkPlan [Sample.obstacle (-100)] 0 100 200 false) Hr)
    as (l & E & _ & H).
  exists l. split; [exact E | apply H; reflexivity].
Defined.

(** ** Collision over a whole iteration and a whole tick *)

(** The handle counter only names the missile: nothing else of an iteration
    depends on it. *)
Lemma body_handle_irrelevant lc d sd pp mg u u' obj :
  s_obj (loopBody lc d sd pp mg u obj) = s_obj (loopBody lc d sd pp mg u' obj)
  /\ s_events (loopBody lc d sd pp mg u obj)
     = s_events (loopBody lc d sd pp mg u' obj)
  /\ s_keep (loopBody lc d sd pp mg u obj)
     = s_keep (loopBody lc d sd pp mg u' obj).
Proof.
  unfold loopBody. cbn zeta. cbn [s_obj s_events s_keep].
  set (o4 := barrierLogic lc sd _).
  unfold turretLogic.
  destruct ((type o4 =? TURRET)%obj && active o4 && notFired o4
            && (at2 (position o4) >? -80));
    cbn [f_obj f_spawns f_events List.length]; unfold alienLogic;
    repeat case_if; cbn [f_obj f_spawns f_events]; auto.
Qed.

(** What the collision block receives and what the iteration makes of its
    result: the object [o'] handed to the block has the type, activity,
    colour, target index and points the iteration started with and the
    position the iteration ends with; the events are the firing burst, if
    any, followed by those of the block. *)
Lemma body_collision lc d sd pp mg u obj :
  let s := loopBody lc d sd pp mg u obj in
  exists o' fe,
    (type o' = type obj /\ active o' = active obj /\ color o' = color obj
     /\ targetIndex o' = targetIndex obj /\ points o' = points obj)
    /\ position o' = position (s_obj s)
    /\ s_obj s = c_obj (collision pp (at2 (position obj)) o')
    /\ s_events s = fe ++ c_events (collision pp (at2 (position obj)) o')
    /\ List.length fe = List.length (s_spawns s)
    /\ ~ In PlayerHit fe
    /\ s_keep s = c_keep (collision pp (at2 (position obj)) o')
                  && negb (pastRemoval (s_obj s))
    /\ s_changes s = negb (List.length (s_spawns s) =? 0)%nat
                     || c_changes (collision pp (at2 (position obj)) o')
                     || pastRemoval (s_obj s).
Proof.
  unfold loopBody. cbn zeta. cbn [s_obj s_events s_keep s_spawns s_changes].
  set (o4 := barrierLogic lc sd _).
  set (t := turretLogic u o4).
  set (a := alienLogic (u + List.length (f_spawns t)) (f_obj t)).
  exists (f_obj a), (f_events t ++ f_events a).
  assert (H4 : type o4 = type obj /\ active o4 = active obj
               /\ color o4 = color obj /\ targetIndex o4 = targetIndex obj
               /\ points o4 = points obj).
  { subst o4. unfold barrierLogic, droneLogic, magnetLogic, standardMovement.
    repeat case_if; cbn; auto. }
  assert (Ht : type (f_obj t) = type o4 /\ active (f_obj t) = active o4
               /\ color (f_obj t) = color o4
               /\ targetIndex (f_obj t) = targetIndex o4
               /\ points (f_obj t) = points o4
               /\ List.length (f_events t) = List.length (f_spawns t)
               /\ ~ In PlayerHit (f_events t)).
  { subst t. unfold turretLogic. case_if; cbn; repeat split; auto;
      intros [H | []]; discriminate. }
  assert (Hal : type (f_obj a) = type (f_obj t)
                /\ active (f_obj a) = active (f_obj t)
                /\ color (f_obj a) = color (f_obj t)
                /\ targetIndex (f_obj a) = targetIndex (f_obj t)
                /\ points (f_obj a) = points (f_obj t)
                /\ List.length (f_events a) = List.length (f_spawns a)
                /\ ~ In PlayerHit (f_events a)).
  { subst a. unfold alienLogic. case_if; cbn; repeat split; auto;
      intros [H | []]; discriminate. }
  destruct H4 as (A1 & A2 & A3 & A4 & A5).
  destruct Ht as (B1 & B2 & B3 & B4 & B5 & B6 & B7).
  destruct Hal as (C1 & C2 & C3 & C4 & C5 & C6 & C7).
  refine (conj _ (conj _ (conj eq_refl (conj _ (conj _ (conj _ (conj eq_refl eq_refl))))))).
  - repeat split; congruence.
  - now rewrite collision_position.
  - now rewrite app_assoc.
  - rewrite !length_app. congruence.
  - intro H. apply in_app_or in H. tauto.
Qed.

Lemma collectCalls_no_hit o : ~ In PlayerHit (collectCalls o).
Proof.
  unfold collectCalls.
  destruct (type o), (targetIndex o); cbn; intuition discriminate.
Qed.

(** The block emits the player-hit signal only for an active damage source
    that is not a portal. *)
Lemma collision_hit_inv pp prevZ o :
  In PlayerHit (c_events (collision pp prevZ o)) ->
  active o = true /\ type o <> SHOP_PORTAL /\ isDamageSource (type o) = true.
Proof.
  unfold collision.
  destruct (active o) eqn:Ha; [|cbn; contradiction].
  destruct (ObjectType_eq_dec (type o) SHOP_PORTAL) as [E | N].
  - rewrite E. cbn [ObjectType_beq]. case_if; cbn; intuition discriminate.
  - rewrite (not_portal _ N).
    destruct (isDamageSource (type o)) eqn:Hd.
    + intros _. auto.
    + repeat case_if; cbn [c_events]; try (cbn; contradiction).
      intro H. apply in_app_or in H. destruct H as [H | [H | []]].
      * now apply collectCalls_no_hit in H.
      * discriminate.
Qed.

(** C2, as stated, fails where the intervals only touch: with the player at
    height 1.6 an active obstacle inside the window and the lateral threshold
    has its band from 0 to 1.6 meet the player's interval from 1.6 to 3.4 in
    the point 1.6, yet the tick registers no hit and leaves it active. *)
Lemma touching_intervals_do_not_hit :
  let f := Sample.frame (Some (mkVector3 0 1.6 0)) 1 [] 0.05 0.05 in
  let obj := Sample.obstacle (-1) in
  let t := tick f (Sample.refs [obj] 0) in
  let pp := playerPosOf f in
  let p' := position (s_obj (bodyOf f 100 obj)) in
  let band := specBand (type obj) (at1 p') in
  (active obj = true /\ isDamageSource (type obj) = true)
  /\ (at2 (position obj) < vz pp + 2.0 /\ vz pp - 2.0 < at2 p')
  /\ Qabs (at0 p' - vx pp) < 0.9
  /\ (vy pp <= snd band /\ fst band <= vy pp + 1.8)
  /\ ~ In PlayerHit (t_events t)
  /\ registeredActive 7 (t_refs t) = true.
Proof.
  cbv zeta.
  refine (conj (conj eq_refl eq_refl) (conj _ (conj _ (conj _ (conj _ _))))).
  - split; vm_compute; reflexivity.
  - vm_compute. reflexivity.
  - split; vm_compute; discriminate.
  - vm_compute. tauto.
  - vm_compute. reflexivity.
Qed.

(** C2, amended. On a tick, for an object that is active when its iteration starts
    and is not a ShopPortal, with [prevZ] its forward coordinate before this
    tick's movement and [p'] its position after it (for a damage source the
    forward coordinate of [p'] is [prevZ] plus the tick's movement): unless
    [prevZ] is below the player's forward coordinate plus 2.0, the current
    forward coordinate above it minus 2.0, and the absolute lane-axis
    distance below 1.5 (Magnet, Shield) or 0.9 (any other type), the object
    stays active and the iteration emits nothing but the burst of a missile it
    fires; and a damage source registers the hit (it is deactivated, the
    player-hit signal and then the destruction burst are emitted) exactly
    when, moreover, the player's interval from [y] to [y + 1.8] overlaps the
    band of its type in more than a point: [y] is strictly below the top of
    the band and [y + 1.8] strictly above its bottom.  The signal then is
    among the events of the tick, and the tick emits it for no other
    reason. *)
Theorem hit_on_tick_window_lateral_vertical (f : Frame) (u : nat)
  (obj : GameObject) :
  active obj = true -> type obj <> SHOP_PORTAL ->
  let pp := playerPosOf f in
  let sd := safeDeltaOf f in
  let s := bodyOf f u obj in
  let prevZ := at2 (position obj) in
  let p' := position (s_obj s) in
  let window := prevZ < vz pp + 2.0 /\ vz pp - 2.0 < at2 p' in
  let lateral := Qabs (at0 p' - vx pp) < specHitDist (type obj) in
  let band := specBand (type obj) (at1 p') in
  let vertical := vy pp < snd band /\ fst band < vy pp + 1.8 in
  let burst := if (type obj =? DRONE)%obj then "#000000"%string
               else "#ff4400"%string in
  (isDamageSource (type obj) = true ->
   at2 p' = prevZ + moveAmount (speed f * sd) sd obj)
  /\ (~ (window /\ lateral) ->
      active (s_obj s) = true
      /\ List.length (s_events s) = List.length (s_spawns s)
      /\ ~ In PlayerHit (s_events s))
  /\ (isDamageSource (type obj) = true ->
      ((window /\ lateral /\ vertical) <-> active (s_obj s) = false)
      /\ ((window /\ lateral /\ vertical) <-> In PlayerHit (s_events s))
      /\ (window /\ lateral /\ vertical ->
          exists fe,
            s_events s = fe ++ [PlayerHit; ParticleBurst p' burst]
            /\ List.length fe = List.length (s_spawns s)
            /\ ~ In PlayerHit fe)
      /\ (~ (window /\ lateral /\ vertical) ->
          List.length (s_events s) = List.length (s_spawns s)))
  /\ (forall r,
         status f = PLAYING -> In obj (objectsRef r) ->
         isDamageSource (type obj) = true ->
         window /\ lateral /\ vertical ->
         In PlayerHit (t_events (tick f r)))
  /\ (forall r,
         status f = PLAYING -> In PlayerHit (t_events (tick f r)) ->
         exists u0 o,
           In o (objectsRef r) /\ active o = true
           /\ isDamageSource (type o) = true
           /\ In PlayerHit (s_events (bodyOf f u0 o))).
Proof.
  intros Ha Hty pp sd s prevZ p' window lateral band vertical burst.
  destruct (body_collision (laneCount f) (speed f * sd) sd pp
              (now f <? magnetEndTime f) u obj)
    as (o' & fe & (T & A & _) & Hpos & Hobj & Hev & Hlen & Hfe & _).
  change (loopBody (laneCount f) (speed f * sd) sd pp
            (now f <? magnetEndTime f) u obj) with s in Hpos, Hobj, Hev, Hlen.
  fold prevZ in Hobj, Hev. fold p' in Hpos.
  assert (Ha' : active o' = true) by congruence.
  assert (Hty' : type o' <> SHOP_PORTAL) by congruence.
  assert (Hcases : isDamageSource (type obj) = true ->
            ((window /\ lateral /\ vertical)
             /\ collision pp prevZ o'
                = mkCollided (setActive o' false)
                    [PlayerHit; ParticleBurst p' burst] true true)
            \/ (~ (window /\ lateral /\ vertical)
                /\ collision pp prevZ o' = mkCollided o' [] true false)).
  { intro Hd.
    assert (Hd' : isDamageSource (type o') = true) by congruence.
    pose proof (collision_damage_cases pp prevZ o' Ha' Hty' Hd') as C.
    cbv zeta in C. rewrite T, Hpos in C. exact C. }
  refine (conj _ (conj _ (conj _ (conj _ _)))).
  - intro Hd. subst p' s. unfold bodyOf. fold sd pp.
    rewrite body_forward.
    rewrite magnetLogic_other; [reflexivity|].
    cbn. intro E. rewrite E in Hd. discriminate.
  - intro Hn.
    assert (Hc : collision pp prevZ o' = mkCollided o' [] true false).
    { apply collision_outside; try assumption. now rewrite T, Hpos. }
    rewrite Hobj, Hev, Hc. cbn [c_obj c_events]. rewrite app_nil_r.
    auto.
  - intro Hd. destruct (Hcases Hd) as [(Hc & E) | (Hn & E)];
      rewrite Hobj, Hev, E; cbn [c_obj c_events].
    + refine (conj _ (conj _ (conj _ _))).
      * split; [reflexivity | intros _; exact Hc].
      * split; [|intros _; exact Hc].
        intros _. apply in_or_app. right. now left.
      * intros _. exists fe. auto.
      * intro Hn. contradiction.
    + rewrite app_nil_r. refine (conj _ (conj _ (conj _ _))).
      * split; [intro Hc; contradiction | intro H; congruence].
      * split; [intro Hc; contradiction | intro H; contradiction].
      * intro Hc. contradiction.
      * intros _. exact Hlen.
  - intros r Hst Hin Hd Hc.
    destruct (tick_registry f r Hst) as (_ & _ & _ & _ & He).
    rewrite He. apply in_flat_map.
    destruct (steps_covers (bodyOf f) (uuidNext r) (objectsRef r) obj Hin)
      as [u' Hs].
    exists (bodyOf f u' obj). split; [exact Hs|].
    destruct (body_handle_irrelevant (laneCount f) (speed f * sd) sd pp
                (now f <? magnetEndTime f) u' u obj) as (_ & E & _).
    unfold bodyOf. fold sd pp. rewrite E.
    change (loopBody (laneCount f) (speed f * sd) sd pp
              (now f <? magnetEndTime f) u obj) with s.
    destruct (Hcases Hd) as [(_ & E') | (Hn & _)]; [|contradiction].
    rewrite Hev, E'. cbn [c_events]. apply in_or_app. right. now left.
  - intros r Hst Hin.
    destruct (tick_registry f r Hst) as (_ & _ & _ & _ & He).
    rewrite He in Hin. apply in_flat_map in Hin.
    destruct Hin as (s0 & Hs0 & Hin).
    destruct (steps_In _ _ _ _ Hs0) as (u0 & o & Ho & ->).
    exists u0, o. refine (conj Ho _).
    destruct (body_collision (laneCount f) (speed f * safeDeltaOf f)
                (safeDeltaOf f) (playerPosOf f) (now f <? magnetEndTime f) u0 o)
      as (o2 & fe2 & (T2 & A2 & _) & _ & _ & Hev2 & _ & Hfe2 & _).
    assert (Hin2 : In PlayerHit
                     (c_events (collision (playerPosOf f) (at2 (position o)) o2))).
    { unfold bodyOf in Hin. rewrite Hev2 in Hin.
      apply in_app_or in Hin. tauto. }
    destruct (collision_hit_inv _ _ _ Hin2) as (Hact & _ & Hdmg).
    repeat split; congruence.
Qed.

Lemma hit_on_tick_window_lateral_vertical_witness :
  In PlayerHit
     (t_events (tick Sample.quiet (Sample.refs [Sample.obstacle (-2.5)] 0)))
  /\ active (s_obj (bodyOf Sample.quiet 100 (Sample.obstacle (-2.5)))) = false
  /\ active (s_obj (bodyOf Sample.quiet 100 (Sample.obstacle (-50)))) = true.
Proof.
  assert (Ht : type (Sample.obstacle (-2.5)) <> SHOP_PORTAL) by discriminate.
  assert (Ht' : type (Sample.obstacle (-50)) <> SHOP_PORTAL) by discriminate.
  pose proof (hit_on_tick_window_lateral_vertical Sample.quiet 100
                (Sample.obstacle (-2.5)) eq_refl Ht) as H.
  pose proof (hit_on_tick_window_lateral_vertical Sample.quiet 100
                (Sample.obstacle (-50)) eq_refl Ht') as H'.
  cbv zeta in H, H'.
  destruct H as (_ & _ & H3 & H4 & _). destruct H' as (_ & H2' & _).
  assert (Hc : (at2 (position (Sample.obstacle (-2.5)))
                < vz (playerPosOf Sample.quiet) + 2.0
                /\ vz (playerPosOf Sample.quiet) - 2.0
                   < at2 (position (s_obj (bodyOf Sample.quiet 100
                                              (Sample.obstacle (-2.5))))))
               /\ Qabs (at0 (position (s_obj (bodyOf Sample.quiet 100
                                                (Sample.obstacle (-2.5)))))
                        - vx (playerPosOf Sample.quiet))
                  < specHitDist (type (Sample.obstacle (-2.5)))
               /\ vy (playerPosOf Sample.quiet)
                  < snd (specBand (type (Sample.obstacle (-2.5)))
                           (at1 (position (s_obj (bodyOf Sample.quiet 100
                                                    (Sample.obstacle (-2.5)))))))
                  /\ fst (specBand (type (Sample.obstacle (-2.5)))
                            (at1 (position (s_obj (bodyOf Sample.quiet 100
                                                     (Sample.obstacle (-2.5)))))))
                     < vy (playerPosOf Sample.quiet) + 1.8).
  { repeat split; vm_compute; reflexivity. }
  refine (conj _ (conj _ _)).
  - apply (H4 (Sample.refs [Sample.obstacle (-2.5)] 0)); try reflexivity.
    + now left.
    + exact Hc.
  - apply (proj1 (H3 eq_refl)). exact Hc.
  - apply H2'. intros [[_ Hw] _]. vm_compute in Hw. discriminate.
Defined.

(** On a tick, an active pickup (neither damage source nor portal) is
    collected exactly when its forward coordinate before the tick's movement
    is below the player's plus 2.0, its forward coordinate after it above the
    player's minus 2.0, its lane coordinate within its lateral threshold and
    its vertical coordinate within 2.5 of the player's, all taken after
    movement and magnet pull: it is then deactivated, and the iteration emits
    its store callback and audio cue followed by its burst, and those reach
    the events of the tick; otherwise the iteration emits nothing.  Collected
    or not, it stays registered until its forward coordinate exceeds 20.  A
    Gem scores its points, or 50 when it carries none or 0; a JumpPad, a
    SpeedBoost and a Letter without target index are consumed without any
    callback. *)
Theorem pickup_collected_on_tick (f : Frame) (u : nat) (obj : GameObject) :
  active obj = true -> type obj <> SHOP_PORTAL ->
  isDamageSource (type obj) = false ->
  let pp := playerPosOf f in
  let s := bodyOf f u obj in
  let prevZ := at2 (position obj) in
  let p' := position (s_obj s) in
  let cond :=
    (prevZ < vz pp + 2.0 /\ vz pp - 2.0 < at2 p')
    /\ Qabs (at0 p' - vx pp) < specHitDist (type obj)
    /\ Qabs (at1 p' - vy pp) < 2.5 in
  s_spawns s = []
  /\ (cond <-> active (s_obj s) = false)
  /\ (cond ->
      s_events s
      = collectCalls obj ++ [ParticleBurst p' (colorOr obj "#ffffff")]
      /\ s_changes s = true)
  /\ (~ cond -> s_events s = [])
  /\ (s_keep s = true <-> at2 p' <= 20)
  /\ (type obj = GEM ->
      exists v, collectCalls obj = [CollectGem v; PlayGemCollect]
                /\ (points obj = None -> v = 50)
                /\ (forall q, points obj = Some q ->
                              (q == 0 -> v = 50) /\ (~ q == 0 -> v = q)))
  /\ (type obj = JUMP_PAD \/ type obj = SPEED_BOOST
      \/ (type obj = LETTER /\ targetIndex obj = None) ->
      collectCalls obj = [])
  /\ (forall r,
         status f = PLAYING -> In obj (objectsRef r) -> cond ->
         forall e, In e (collectCalls obj) -> In e (t_events (tick f r))).
Proof.
  intros Ha Hty Hd pp s prevZ p' cond.
  destruct (body_collision (laneCount f) (speed f * safeDeltaOf f)
              (safeDeltaOf f) pp (now f <? magnetEndTime f) u obj)
    as (o' & fe & (T & A & Co & Ti & Po) & Hpos & Hobj & Hev & Hlen & _
        & Hkeep & Hchg).
  change (loopBody (laneCount f) (speed f * safeDeltaOf f) (safeDeltaOf f) pp
            (now f <? magnetEndTime f) u obj) with s
    in Hpos, Hobj, Hev, Hlen, Hkeep, Hchg.
  fold prevZ in Hobj, Hev, Hkeep, Hchg. fold p' in Hpos.
  assert (Hsp : s_spawns s = []).
  { subst s. unfold bodyOf.
    destruct (body_fire_cases (laneCount f) (speed f * safeDeltaOf f)
                (safeDeltaOf f) pp (now f <? magnetEndTime f) u obj)
      as [(([E | E] & _) & _) | (_ & Hs & _)]; try exact Hs;
      rewrite E in Hd; discriminate. }
  assert (Hfe : fe = []).
  { rewrite Hsp in Hlen. now apply length_zero_iff_nil. }
  subst fe. cbn [app] in Hev.
  assert (Ha' : active o' = true) by congruence.
  assert (Hty' : type o' <> SHOP_PORTAL) by congruence.
  assert (Hd' : isDamageSource (type o') = false) by congruence.
  assert (Hcalls : collectCalls o' = collectCalls obj)
    by (unfold collectCalls; now rewrite T, Ti, Po).
  assert (Hcol : colorOr o' "#ffffff" = colorOr obj "#ffffff")
    by (unfold colorOr; now rewrite Co).
  pose proof (collision_pickup_cases pp prevZ o' Ha' Hty' Hd') as C.
  cbv zeta in C. rewrite T, Hpos, Hcalls, Hcol in C. fold cond in C.
  assert (Hk : c_keep (collision pp prevZ o') = true).
  { destruct (c_keep (collision pp prevZ o')) eqn:E; [reflexivity|].
    apply collision_keep in E. destruct E as (E & _). contradiction. }
  assert (Hevents : cond -> forall e, In e (collectCalls obj) ->
                    In e (s_events s)).
  { intros Hc e He. destruct C as [(_ & E) | (Hn & _)]; [|contradiction].
    rewrite Hev, E. cbn [c_events]. apply in_or_app. now left. }
  refine (conj Hsp (conj _ (conj _ (conj _ (conj _ (conj _ (conj _ _))))))).
  - rewrite Hobj. destruct C as [(Hc & E) | (Hn & E)]; rewrite E; cbn [c_obj].
    + split; [reflexivity | intros _; exact Hc].
    + split; [intro Hc; contradiction | intro H; congruence].
  - intro Hc. destruct C as [(_ & E) | (Hn & _)]; [|contradiction].
    rewrite Hev, Hchg, E. cbn [c_events c_changes].
    split; [reflexivity|]. now rewrite Bool.orb_true_r.
  - intro Hn. destruct C as [(Hc & _) | (_ & E)]; [contradiction|].
    now rewrite Hev, E.
  - rewrite Hkeep, Hk. cbn [andb]. unfold pastRemoval, REMOVE_DISTANCE.
    rewrite Bool.negb_true_iff. fold p'. apply gtb_le.
  - intro Hg. unfold collectCalls. rewrite Hg.
    exists (Num.orDefault (points obj) 50).
    split; [now destruct (targetIndex obj)|].
    unfold Num.orDefault. split.
    + now intros ->.
    + intros q ->. split; intro Hq.
      * apply Qeq_bool_iff in Hq. now rewrite Hq.
      * destruct (Qeq_bool q 0) eqn:E; [|reflexivity].
        apply Qeq_bool_iff in E. contradiction.
  - unfold collectCalls. intros [-> | [-> | [-> ->]]]; reflexivity.
  - intros r Hst Hin Hc e He.
    destruct (tick_registry f r Hst) as (_ & _ & _ & _ & Het).
    rewrite Het. apply in_flat_map.
    destruct (steps_covers (bodyOf f) (uuidNext r) (objectsRef r) obj Hin)
      as [u' Hs].
    exists (bodyOf f u' obj). split; [exact Hs|].
    destruct (body_handle_irrelevant (laneCount f) (speed f * safeDeltaOf f)
                (safeDeltaOf f) pp (now f <? magnetEndTime f) u' u obj)
      as (_ & E & _).
    unfold bodyOf. fold pp. rewrite E. now apply Hevents.
Qed.

Lemma pickup_collected_on_tick_witness :
  In (CollectGem 50)
     (t_events (tick Sample.quiet (Sample.refs [Sample.gemAt 0.5 (-1)] 0))).
Proof.
  assert (Ht : type (Sample.gemAt 0.5 (-1)) <> SHOP_PORTAL) by discriminate.
  pose proof (pickup_collected_on_tick Sample.quiet 100 (Sample.gemAt 0.5 (-1))
                eq_refl Ht eq_refl) as H.
  cbv zeta in H. destruct H as (_ & _ & _ & _ & _ & _ & _ & H).
  apply (H (Sample.refs [Sample.gemAt 0.5 (-1)] 0)).
  - reflexivity.
  - now left.
  - repeat split; vm_compute; reflexivity.
  - now left.
Defined.

(** ** The registry after a tick, object by object *)

Lemma steps_Forall2 (P : GameObject -> Step -> Prop) body u objs :
  (forall u' obj, P obj (body u' obj)) -> Forall2 P objs (steps body u objs).
Proof.
  intro H. revert u. induction objs as [|o rest IH]; intro u; cbn [steps].
  - constructor.
  - constructor; [apply H | apply IH].
Qed.

Lemma body_identity lc d sd pp mg u obj :
  id (s_obj (loopBody lc d sd pp mg u obj)) = id obj
  /\ type (s_obj (loopBody lc d sd pp mg u obj)) = type obj.
Proof.
  unfold loopBody. cbn zeta. cbn [s_obj].
  set (o4 := barrierLogic lc sd _).
  set (t := turretLogic u o4).
  set (a := alienLogic (u + List.length (f_spawns t)) (f_obj t)).
  destruct (collision_fields pp (at2 (position obj)) (f_obj a))
    as (Hid & Hty & _).
  cbv zeta in Hid, Hty. rewrite Hid, Hty.
  subst a t o4.
  unfold alienLogic, turretLogic, barrierLogic, droneLogic, magnetLogic.
  repeat case_if; auto.
Qed.

(** After a tick the registry is made of three runs.  First the objects that
    were registered before, each as its iteration left it (same handle, same
    type), in their old order, an object being dropped only if it is beyond
    forward coordinate 20 or a portal, and none of those kept being beyond 20.
    Then the missiles fired during the loop, in the order of their firers: an
    iteration fires nothing, or it is that of a Turret or an Alien and fires
    one active Missile.  Then what the planner spawned, active and no closer
    than the spawn-ahead distance. *)
Theorem registry_after_tick (f : Frame) (r : Refs) :
  status f = PLAYING ->
  let ss := steps (bodyOf f) (uuidNext r) (objectsRef r) in
  Forall2
    (fun obj s =>
       (exists u, s = bodyOf f u obj)
       /\ id (s_obj s) = id obj /\ type (s_obj s) = type obj
       /\ (s_keep s = true -> at2 (position (s_obj s)) <= 20)
       /\ (type obj <> SHOP_PORTAL -> at2 (position (s_obj s)) <= 20 ->
           s_keep s = true)
       /\ (s_spawns s = []
           \/ ((type obj = TURRET \/ type obj = ALIEN)
               /\ exists m, s_spawns s = [m] /\ type m = MISSILE
                            /\ active m = true
                            /\ at0 (position m) = at0 (position obj))))
    (objectsRef r) ss
  /\ exists spawned,
       objectsRef (t_refs (tick f r))
       = map s_obj (filter s_keep ss) ++ flat_map s_spawns ss ++ spawned
       /\ Forall (fun o => at2 (position o) <= -120 /\ active o = true) spawned.
Proof.
  intros Hst ss. split.
  - subst ss. apply steps_Forall2. intros u obj.
    refine (conj (ex_intro _ u eq_refl) _). unfold bodyOf.
    destruct (body_identity (laneCount f) (speed f * safeDeltaOf f)
                (safeDeltaOf f) (playerPosOf f) (now f <? magnetEndTime f) u obj)
      as (Hid & Hty).
    refine (conj Hid (conj Hty (conj _ (conj _ _)))).
    + apply body_kept_before_removal.
    + intros Hp Hz.
      destruct (body_shape (laneCount f) (speed f * safeDeltaOf f)
                  (safeDeltaOf f) (playerPosOf f) (now f <? magnetEndTime f)
                  u obj) as (o' & T & _ & _ & _ & Hk).
      cbv zeta in Hk. rewrite Hk.
      apply Bool.andb_true_iff. split.
      * destruct (c_keep (collision (playerPosOf f) (at2 (position obj)) o'))
          eqn:E; [reflexivity|].
        apply collision_keep in E. destruct E as (E & _). congruence.
      * apply Bool.negb_true_iff. now apply gtb_le.
    + destruct (body_fire_cases (laneCount f) (speed f * safeDeltaOf f)
                  (safeDeltaOf f) (playerPosOf f) (now f <? magnetEndTime f)
                  u obj) as [((Hf & _) & Hs & _) | (_ & Hs & _)].
      * right. split; [exact Hf|]. cbv zeta in Hs. rewrite Hs.
        eexists. split; [reflexivity|].
        destruct Hf as [-> | ->]; cbn; auto.
      * now left.
  - destruct (tick_registry f r Hst) as (spawned & Hreg & Hsp & _ & _).
    exists spawned. split.
    + fold ss in Hreg. rewrite Hreg. now rewrite <- app_assoc.
    + eapply Forall_impl; [|exact Hsp]. intros o [Hz Ha]. split; [|exact Ha].
      rewrite Hz. apply spawnZ_le.
Qed.

Lemma registry_after_tick_witness :
  exists spawned,
    objectsRef (t_refs (tick Sample.quiet
                          (Sample.refs [Sample.turretAt (-80.5)] 0)))
    = map s_obj (filter s_keep
                   (steps (bodyOf Sample.quiet) 100 [Sample.turretAt (-80.5)]))
      ++ flat_map s_spawns
           (steps (bodyOf Sample.quiet) 100 [Sample.turretAt (-80.5)])
      ++ spawned
    /\ Forall (fun o => at2 (position o) <= -120 /\ active o = true) spawned.
Proof.
  exact (proj2 (registry_after_tick Sample.quiet
                  (Sample.refs [Sample.turretAt (-80.5)] 0) eq_refl)).
Defined.

(** ** Resets and level transitions *)

(** Returning to the menu, or to play after a game over or a victory, clears
    the registry and the trackers (distance 0, letter threshold 200).  A
    level-up during play (to a level above 1) keeps exactly the objects
    whose forward coordinate is above -80, in order, appends one active
    ShopPortal at (0, 0, -100), keeps the distance and re-bases the letter
    threshold to distance - 120 + the level's letter interval; the spawn
    horizon is then exactly -100, so the planner's gate is open. *)
Theorem reset_and_level_up (st : GameStatus) (lvl : Z) (p : Prev) (r : Refs) :
  let '(r', p', _) := onStatusOrLevel st lvl p r in
  p' = mkPrev st lvl
  /\ (st = MENU \/ (st = PLAYING /\ (prevStatus p = GAME_OVER
                                     \/ prevStatus p = VICTORY)) ->
      objectsRef r' = [] /\ distanceTraveled r' = 0
      /\ nextLetterDistance r' == 200)
  /\ (st = PLAYING -> prevStatus p <> GAME_OVER -> prevStatus p <> VICTORY ->
      lvl <> prevLevel p -> (1 < lvl)%Z ->
      objectsRef r'
      = filter (fun obj => at2 (position obj) >? -80) (objectsRef r)
        ++ [shopPortal (uuidNext r)]
      /\ (forall o, In o (objectsRef r') ->
                    o = shopPortal (uuidNext r)
                    \/ (In o (objectsRef r) /\ -80 < at2 (position o)))
      /\ distanceTraveled r' = distanceTraveled r
      /\ nextLetterDistance r'
         == distanceTraveled r - 120 + getLetterInterval lvl
      /\ furthestZ (objectsRef r') = -100
      /\ spawnGate (objectsRef r') = true).
Proof.
  unfold onStatusOrLevel.
  destruct (GameStatus_beq st MENU
            || GameStatus_beq st PLAYING && GameStatus_beq (prevStatus p) GAME_OVER
            || GameStatus_beq st PLAYING && GameStatus_beq (prevStatus p) VICTORY)
    eqn:Ehard.
  - refine (conj eq_refl (conj _ _)).
    + intros _. cbn. repeat split; reflexivity.
    + intros -> Hg Hv _ _. exfalso. cbn in Ehard.
      destruct (prevStatus p); cbn in Ehard; congruence.
  - set (soft := negb (lvl =? prevLevel p)%Z && GameStatus_beq st PLAYING
                 && (lvl >? 1)%Z).
    assert (Hnot : st = MENU \/ (st = PLAYING /\ (prevStatus p = GAME_OVER
                                   \/ prevStatus p = VICTORY)) -> False).
    { intros [-> | [-> [E | E]]]; rewrite ?E in Ehard; cbn in Ehard;
        discriminate. }
    destruct soft eqn:Esoft; subst soft.
    + refine (conj eq_refl (conj _ _)); [intro H; destruct (Hnot H)|].
      intros _ _ _ _ _. cbn [objectsRef distanceTraveled nextLetterDistance].
      set (far := filter (fun obj => at2 (position obj) >? -80) (objectsRef r)).
      assert (Hin : forall o, In o (far ++ [shopPortal (uuidNext r)]) ->
                      o = shopPortal (uuidNext r)
                      \/ (In o (objectsRef r) /\ -80 < at2 (position o))).
      { intros o Ho. apply in_app_or in Ho. destruct Ho as [Ho | [<- | []]].
        - right. apply filter_In in Ho. destruct Ho as [Ho Hz].
          split; [exact Ho | now apply gtb_gt in Hz].
        - now left. }
      assert (Hstat : In (shopPortal (uuidNext r))
                         (filter isStatic (far ++ [shopPortal (uuidNext r)]))).
      { apply filter_In. split; [|reflexivity].
        apply in_or_app. right. now left. }
      assert (Hfz : furthestZ (far ++ [shopPortal (uuidNext r)]) = -100).
      { pose proof (furthestZ_least _ _ Hstat) as Hle.
        destruct (furthestZ_attained (far ++ [shopPortal (uuidNext r)]))
          as (o & Ho & E).
        { intro E. rewrite E in Hstat. contradiction. }
        apply filter_In in Ho. destruct Ho as [Ho _].
        destruct (Hin o Ho) as [-> | [_ Hz]].
        - rewrite E. reflexivity.
        - exfalso. rewrite E in Hle. cbn in Hle. lra. }
      refine (conj eq_refl (conj Hin (conj eq_refl (conj _ (conj Hfz _))))).
      * unfold SPAWN_DISTANCE. reflexivity.
      * unfold spawnGate. rewrite Hfz. reflexivity.
    + assert (Hsoft : st = PLAYING -> lvl <> prevLevel p -> (1 < lvl)%Z -> False).
      { intros -> Hl H1. apply Bool.andb_false_iff in Esoft.
        destruct Esoft as [E | E].
        - apply Bool.andb_false_iff in E. destruct E as [E | E]; [|discriminate].
          apply Bool.negb_false_iff, Z.eqb_eq in E. contradiction.
        - rewrite Z.gtb_ltb in E. apply Z.ltb_ge in E. lia. }
      destruct (GameStatus_beq st GAME_OVER || GameStatus_beq st VICTORY);
        (refine (conj eq_refl (conj _ _));
         [intro H; destruct (Hnot H)
         | intros H1 _ _ H2 H3; destruct (Hsoft H1 H2 H3)]).
Qed.

Lemma reset_and_level_up_witness :
  furthestZ
    (objectsRef
       (fst (fst (onStatusOrLevel PLAYING 2 (mkPrev PLAYING 1)
                    (Sample.refs [Sample.obstacle (-100); Sample.obstacle (-50)]
                       300)))))
  = -100.
Proof.
  pose proof (reset_and_level_up PLAYING 2 (mkPrev PLAYING 1)
                (Sample.refs [Sample.obstacle (-100); Sample.obstacle (-50)] 300))
    as H.
  destruct (onStatusOrLevel PLAYING 2 (mkPrev PLAYING 1)
              (Sample.refs [Sample.obstacle (-100); Sample.obstacle (-50)] 300))
    as [[r' p'] o].
  destruct H as (_ & _ & H). cbn [fst].
  destruct H as (_ & _ & _ & _ & H & _); try discriminate; try reflexivity.
  exact H.
Defined.

(** ** The store *)

Module StoreFacts.

Import Store.

Lemma includes_In l i : includes l i = true <-> In i l.
Proof.
  unfold includes. rewrite existsb_exists. split.
  - intros (x & Hin & E). apply Z.eqb_eq in E. now subst.
  - intro H. exists i. split; [exact H | apply Z.eqb_refl].
Qed.

Lemma includes_not_In l i : includes l i = false <-> ~ In i l.
Proof.
  rewrite <- includes_In. destruct (includes l i); split; congruence.
Qed.


End StoreFacts.



(** Collecting a letter.  An index already held changes nothing.  A new
    index is appended and pays 100 points into both scores, the speed
    following the total; the sixth index then either opens the next level
    (below the last level: one level up, two lanes more up to nine, the
    letters cleared, play resumed) or wins the game with 5000 points more. *)
Theorem collectLetter_awards_and_advances (s : Store.GameState) (i : Z) :
  let s' := Store.collectLetter i s in
  let full := List.length (Store.collectedLetters s) = 5%nat in
  (In i (Store.collectedLetters s) -> s' = s)
  /\ (~ In i (Store.collectedLetters s) ->
      Store.lives s' = Store.lives s
      /\ Store.gemsCollected s' = Store.gemsCollected s
      /\ (~ full ->
          Store.collectedLetters s' = Store.collectedLetters s ++ [i]
          /\ Store.score s' = Store.score s + 100
          /\ Store.totalScore s' = Store.totalScore s + 100
          /\ Store.speed s' = Store.calculateSpeed (Store.totalScore s + 100)
          /\ Store.status s' = Store.status s
          /\ Store.level s' = Store.level s
          /\ Store.laneCount s' = Store.laneCount s)
      /\ (full -> (Store.level s < Store.MAX_LEVEL)%Z ->
          Store.collectedLetters s' = []
          /\ Store.score s' = Store.score s + 100
          /\ Store.totalScore s' = Store.totalScore s + 100
          /\ Store.speed s' = Store.calculateSpeed (Store.totalScore s + 100)
          /\ Store.status s' = PLAYING
          /\ Store.level s' = (Store.level s + 1)%Z
          /\ Store.laneCount s' = Z.min (Store.laneCount s + 2) 9)
      /\ (full -> (Store.MAX_LEVEL <= Store.level s)%Z ->
          Store.collectedLetters s' = Store.collectedLetters s ++ [i]
          /\ Store.score s' = Store.score s + 100 + 5000
          /\ Store.totalScore s' = Store.totalScore s + 100 + 5000
          /\ Store.speed s'
             = Store.calculateSpeed (Store.totalScore s + 100 + 5000)
          /\ Store.status s' = VICTORY
          /\ Store.level s' = Store.level s
          /\ Store.laneCount s' = Store.laneCount s)).
Proof.
  cbv zeta. unfold Store.collectLetter. split.
  - intro H. apply StoreFacts.includes_In in H. now rewrite H.
  - intro H. apply StoreFacts.includes_not_In in H. rewrite H. cbn [negb].
    rewrite length_app. cbn [List.length Store.GEMINI_TARGET].
    destruct (Nat.eqb_spec (List.length (Store.collectedLetters s) + 1) 6)
      as [E | E].
    + assert (F : List.length (Store.collectedLetters s) = 5%nat) by lia.
      destruct (Z.ltb_spec (Store.level s) Store.MAX_LEVEL) as [L | L];
        cbn; (repeat split; try reflexivity); intros; try lia; try tauto;
        repeat split; reflexivity.
    + assert (F : List.length (Store.collectedLetters s) <> 5%nat) by lia.
      cbn; (repeat split; try reflexivity); intros; try lia; try tauto;
        repeat split; reflexivity.
Qed.

Lemma collectLetter_awards_and_advances_witness :
  Store.level
    (Store.collectLetter 5
       (Store.set_collectedLetters (Store.startGame (Store.initial []))
          [0; 1; 2; 3; 4]%Z))
  = 2%Z.
Proof.
  pose proof (collectLetter_awards_and_advances
                (Store.set_collectedLetters (Store.startGame (Store.initial []))
                   [0; 1; 2; 3; 4]%Z) 5%Z) as H.
  cbv zeta in H. destruct H as (_ & H).
  destruct H as (_ & _ & _ & H & _).
  - cbn. intros [|[|[|[|[|[]]]]]]; discriminate.
  - destruct H as (_ & _ & _ & _ & _ & H & _).
    + reflexivity.
    + reflexivity.
    + exact H.
Defined.

Lemma collectLetter_new (s : Store.GameState) (i : Z) :
  ~ In i (Store.collectedLetters s) ->
  List.length (Store.collectedLetters s) <> 5%nat ->
  Store.collectLetter i s
  = Store.set_collectedLetters (Store.scored s 100)
      (Store.collectedLetters s ++ [i]).
Proof.
  intros H F. unfold Store.collectLetter.
  apply StoreFacts.includes_not_In in H. rewrite H. cbn [negb].
  rewrite length_app. cbn [List.length Store.GEMINI_TARGET].
  destruct (Nat.eqb_spec (List.length (Store.collectedLetters s) + 1) 6);
    [lia | reflexivity].
Qed.

Lemma collectLetter_last (s : Store.GameState) (i : Z) :
  ~ In i (Store.collectedLetters s) ->
  List.length (Store.collectedLetters s) = 5%nat ->
  let s1 := Store.set_collectedLetters (Store.scored s 100)
              (Store.collectedLetters s ++ [i]) in
  Store.collectLetter i s
  = if (Store.level s <? Store.MAX_LEVEL)%Z then Store.advanceLevel s1
    else Store.set_speed
           (Store.set_totalScore
              (Store.set_score (Store.set_status s1 VICTORY)
                 (Store.score s1 + 5000))
              (Store.totalScore s1 + 5000))
           (Store.calculateSpeed (Store.totalScore s1 + 5000)).
Proof.
  intros H F. unfold Store.collectLetter.
  apply StoreFacts.includes_not_In in H. rewrite H. cbn [negb].
  rewrite length_app. cbn [List.length Store.GEMINI_TARGET]. rewrite F.
  reflexivity.
Qed.

Lemma collect_run (l : list Z) : forall s : Store.GameState,
  l <> [] -> NoDup (Store.collectedLetters s ++ l) ->
  (List.length (Store.collectedLetters s) + List.length l = 6)%nat ->
  let s' := fold_left (fun st i => Store.collectLetter i st) l s in
  Store.lives s' = Store.lives s
  /\ (if (Store.level s <? Store.MAX_LEVEL)%Z then
        Store.score s' == Store.score s + 100 * inject_Z (Z.of_nat (List.length l))
        /\ Store.totalScore s'
           == Store.totalScore s + 100 * inject_Z (Z.of_nat (List.length l))
        /\ Store.level s' = (Store.level s + 1)%Z
        /\ Store.laneCount s' = Z.min (Store.laneCount s + 2) 9
        /\ Store.collectedLetters s' = []
        /\ Store.status s' = PLAYING
      else
        Store.score s'
        == Store.score s + 100 * inject_Z (Z.of_nat (List.length l)) + 5000
        /\ Store.totalScore s'
           == Store.totalScore s
              + 100 * inject_Z (Z.of_nat (List.length l)) + 5000
        /\ Store.level s' = Store.level s
        /\ Store.laneCount s' = Store.laneCount s
        /\ Store.collectedLetters s' = Store.collectedLetters s ++ l
        /\ Store.status s' = VICTORY).
Proof.
  induction l as [| i l IH]; intros s Hne Hnd Hlen; [congruence|].
  assert (Hi : ~ In i (Store.collectedLetters s)).
  { intro Hin. apply NoDup_remove_2 in Hnd. apply Hnd.
    apply in_or_app. now left. }
  cbn [fold_left]. destruct l as [| j l].
  - cbn [List.length] in Hlen.
    assert (F : List.length (Store.collectedLetters s) = 5%nat) by lia.
    cbn [fold_left]. cbv zeta. rewrite (collectLetter_last s i Hi F).
    cbv zeta. destruct (Store.level s <? Store.MAX_LEVEL)%Z; cbn;
      repeat split; try reflexivity; ring.
  - cbn [List.length] in Hlen.
    assert (F : List.length (Store.collectedLetters s) <> 5%nat) by lia.
    rewrite (collectLetter_new s i Hi F).
    set (s1 := Store.set_collectedLetters (Store.scored s 100)
                 (Store.collectedLetters s ++ [i])).
    specialize (IH s1).
    assert (Hc1 : Store.collectedLetters s1 = Store.collectedLetters s ++ [i])
      by reflexivity.
    rewrite Hc1 in IH. rewrite <- app_assoc in IH. cbn [app] in IH.
    specialize (IH ltac:(discriminate) Hnd).
    rewrite length_app in IH. cbn [List.length] in IH.
    specialize (IH ltac:(cbn [List.length]; lia)). cbv zeta in IH.
    cbv zeta. destruct IH as (Hl & IH). split; [exact Hl|].
    change (Store.level s1) with (Store.level s) in IH.
    change (Store.laneCount s1) with (Store.laneCount s) in IH.
    change (Store.score s1) with (Store.score s + 100) in IH.
    change (Store.totalScore s1) with (Store.totalScore s + 100) in IH.
    destruct (Store.level s <? Store.MAX_LEVEL)%Z;
      destruct IH as (H1 & H2 & H3 & H4 & H5 & H6);
      (split; [|split; [|split; [|split; [|split]]]]); try assumption.
    all: try (rewrite H1 || rewrite H2).
    all: cbn [List.length]; rewrite !Nat2Z.inj_succ; unfold Z.succ;
      rewrite !inject_Z_plus; ring.
Qed.

(** Six distinct letter indices collected one after the other, from a state
    that holds none: 600 points; below the last level the store ends one
    level up with two more lanes (at most nine), the letters cleared and
    the game in play; at the last level it ends in victory with 5000 points
    more.  No life is lost or gained on the way. *)
Theorem six_distinct_letters_finish_level (s : Store.GameState) (l : list Z) :
  Store.collectedLetters s = [] -> NoDup l -> List.length l = 6%nat ->
  let s' := fold_left (fun st i => Store.collectLetter i st) l s in
  Store.lives s' = Store.lives s
  /\ ((Store.level s < Store.MAX_LEVEL)%Z ->
      Store.score s' == Store.score s + 600
      /\ Store.totalScore s' == Store.totalScore s + 600
      /\ Store.level s' = (Store.level s + 1)%Z
      /\ Store.laneCount s' = Z.min (Store.laneCount s + 2) 9
      /\ Store.collectedLetters s' = []
      /\ Store.status s' = PLAYING)
  /\ ((Store.MAX_LEVEL <= Store.level s)%Z ->
      Store.score s' == Store.score s + 5600
      /\ Store.totalScore s' == Store.totalScore s + 5600
      /\ Store.level s' = Store.level s
      /\ Store.laneCount s' = Store.laneCount s
      /\ Store.collectedLetters s' = l
      /\ Store.status s' = VICTORY).
Proof.
  intros Hc Hnd Hlen.
  pose proof (collect_run l s) as H. rewrite Hc in H. cbn [app List.length] in H.
  specialize (H ltac:(intros ->; discriminate) Hnd ltac:(lia)).
  cbv zeta in H. cbv zeta. rewrite Hlen in H. destruct H as (Hl & H).
  split; [exact Hl|]. split; intro L.
  - apply Z.ltb_lt in L. rewrite L in H.
    destruct H as (H1 & H2 & H3 & H4 & H5 & H6).
    repeat split; assumption.
  - apply Z.ltb_ge in L. rewrite L in H.
    destruct H as (H1 & H2 & H3 & H4 & H5 & H6).
    change (inject_Z (Z.of_nat 6)) with 6 in H1, H2.
    repeat split; try assumption; (rewrite H1 || rewrite H2); ring.
Qed.

Lemma six_distinct_letters_finish_level_witness :
  Store.laneCount
    (fold_left (fun st i => Store.collectLetter i st) [3; 0; 5; 1; 4; 2]%Z
       (Store.startGame (Store.initial [])))
  = 5%Z.
Proof.
  pose proof (six_distinct_letters_finish_level
                (Store.startGame (Store.initial [])) [3; 0; 5; 1; 4; 2]%Z) as H.
  cbv zeta in H.
  destruct H as (_ & H & _).
  - reflexivity.
  - repeat constructor; cbn; intuition discriminate.
  - reflexivity.
  - destruct H as (_ & _ & _ & H & _).
    + reflexivity.
    + exact H.
Defined.

Lemma takeDamage_unprotected (s : Store.GameState) (t : Q) :
  Store.isImmortalityActive s = false -> Store.shieldEndTime s <= t ->
  Store.takeDamage t s
  = if (Store.lives s >? 1)%Z then Store.set_lives s (Store.lives s - 1)%Z
    else Store.set_speed
           (Store.set_status (Store.set_lives s 0%Z) GAME_OVER) 0.
Proof.
  intros Hi Ht. unfold Store.takeDamage. rewrite Hi.
  apply ltb_ge in Ht. now rewrite Ht.
Qed.

Lemma damage_run (ts : list Q) : forall s : Store.GameState,
  Store.isImmortalityActive s = false ->
  Forall (fun t => Store.shieldEndTime s <= t) ts ->
  (0 <= Store.lives s)%Z ->
  let s' := fold_left (fun st t => Store.takeDamage t st) ts s in
  let n := Z.of_nat (List.length ts) in
  ((n < Store.lives s)%Z ->
   Store.lives s' = (Store.lives s - n)%Z
   /\ Store.status s' = Store.status s /\ Store.speed s' = Store.speed s)
  /\ ((0 < n)%Z -> (Store.lives s <= n)%Z ->
      Store.lives s' = 0%Z /\ Store.status s' = GAME_OVER
      /\ Store.speed s' = 0).
Proof.
  induction ts as [| t ts IH]; intros s Hi Hts Hl; cbv zeta.
  - cbn. split; [intros _; repeat split; lia | lia].
  - inversion Hts as [| ? ? Ht Hts']; subst.
    cbn [fold_left List.length]. rewrite Nat2Z.inj_succ.
    rewrite (takeDamage_unprotected s t Hi Ht).
    destruct (Z.gtb_spec (Store.lives s) 1) as [G | G].
    + specialize (IH (Store.set_lives s (Store.lives s - 1)%Z) Hi Hts').
      cbn [Store.lives Store.set_lives] in IH.
      specialize (IH ltac:(lia)). cbv zeta in IH. destruct IH as (A & B).
      split.
      * intro Hn. destruct A as (A1 & A2 & A3); [lia|].
        rewrite A1. repeat split; try assumption. lia.
      * intros _ Hn. apply B; lia.
    + set (s0 := Store.set_speed
                   (Store.set_status (Store.set_lives s 0%Z) GAME_OVER) 0).
      specialize (IH s0 Hi Hts' ltac:(cbn; lia)). cbv zeta in IH.
      destruct IH as (A & B). split; [lia|]. intros _ _.
      destruct ts as [| t' ts'].
      * cbn. repeat split.
      * apply B; cbn [List.length Store.lives s0 Store.set_lives
                        Store.set_speed Store.set_status]; lia.
Qed.

(** Damage.  While the immortality skill is active, or before the shield's
    end time (ten seconds after the shield was activated), a hit changes
    nothing.  Otherwise each hit costs one life: fewer hits than lives leave
    status and speed alone; the hit that takes the last life sets lives to 0,
    the status to GAME_OVER and the speed to 0, and later hits keep that. *)
Theorem unprotected_hits_end_the_game (s : Store.GameState) (ts : list Q) :
  Store.isImmortalityActive s = false ->
  Forall (fun t => Store.shieldEndTime s <= t) ts ->
  (1 <= Store.lives s)%Z ->
  let s' := fold_left (fun st t => Store.takeDamage t st) ts s in
  let n := Z.of_nat (List.length ts) in
  ((n < Store.lives s)%Z ->
   Store.lives s' = (Store.lives s - n)%Z
   /\ Store.status s' = Store.status s /\ Store.speed s' = Store.speed s)
  /\ ((Store.lives s <= n)%Z ->
      Store.lives s' = 0%Z /\ Store.status s' = GAME_OVER
      /\ Store.speed s' = 0)
  /\ (forall t0 t s0, t < t0 + Store.POWERUP_DURATION ->
      Store.takeDamage t (Store.activateShield t0 s0)
      = Store.activateShield t0 s0)
  /\ (forall t s0, Store.isImmortalityActive s0 = true ->
      Store.takeDamage t s0 = s0).
Proof.
  intros Hi Hts Hl. cbv zeta.
  destruct (damage_run ts s Hi Hts ltac:(lia)) as (A & B).
  split; [exact A|]. split; [intro Hn; apply B; lia|]. split.
  - intros t0 t s0 Ht. unfold Store.takeDamage.
    cbn [Store.shieldEndTime Store.activateShield Store.set_shieldEndTime].
    apply ltb_lt in Ht. rewrite Ht. now rewrite Bool.orb_true_r.
  - intros t s0 H. unfold Store.takeDamage. now rewrite H.
Qed.

Lemma unprotected_hits_end_the_game_witness :
  Store.status
    (fold_left (fun st t => Store.takeDamage t st) [1; 2; 3]
       (Store.startGame (Store.initial [])))
  = GAME_OVER.
Proof.
  pose proof (unprotected_hits_end_the_game
                (Store.startGame (Store.initial [])) [1; 2; 3]) as H.
  cbv zeta in H.
  destruct H as (_ & H & _).
  - reflexivity.
  - repeat constructor; cbn; discriminate.
  - cbn. lia.
  - destruct H as (_ & H & _).
    + cbn. lia.
    + exact H.
Defined.

(** The shop.  A purchase succeeds exactly when the spendable score covers
    the cost; a refused purchase changes nothing.  A purchase lowers the
    spendable score by the cost and leaves the total score, the speed, the
    status, the level and the lane count alone; of the lives it changes only
    what the item says: MAX_LIFE one more life and one more maximum, HEAL
    one more life up to the maximum. *)
Theorem purchase_spends_score_only
  (s : Store.GameState) (t : Store.Item) (c : Q) :
  let r := Store.buyItem t c s in
  (fst r = true <-> c <= Store.score s)
  /\ (fst r = false -> snd r = s)
  /\ (fst r = true ->
      Store.score (snd r) = Store.score s - c
      /\ Store.totalScore (snd r) = Store.totalScore s
      /\ Store.speed (snd r) = Store.speed s
      /\ Store.status (snd r) = Store.status s
      /\ Store.level (snd r) = Store.level s
      /\ Store.laneCount (snd r) = Store.laneCount s
      /\ Store.collectedLetters (snd r) = Store.collectedLetters s
      /\ match t with
         | Store.DOUBLE_JUMP =>
             Store.hasDoubleJump (snd r) = true
             /\ Store.hasImmortality (snd r) = Store.hasImmortality s
             /\ Store.lives (snd r) = Store.lives s
             /\ Store.maxLives (snd r) = Store.maxLives s
         | Store.MAX_LIFE =>
             Store.lives (snd r) = (Store.lives s + 1)%Z
             /\ Store.maxLives (snd r) = (Store.maxLives s + 1)%Z
             /\ Store.hasDoubleJump (snd r) = Store.hasDoubleJump s
             /\ Store.hasImmortality (snd r) = Store.hasImmortality s
         | Store.HEAL =>
             Store.lives (snd r)
             = Z.min (Store.lives s + 1) (Store.maxLives s)
             /\ Store.maxLives (snd r) = Store.maxLives s
             /\ Store.hasDoubleJump (snd r) = Store.hasDoubleJump s
             /\ Store.hasImmortality (snd r) = Store.hasImmortality s
         | Store.IMMORTAL =>
             Store.hasImmortality (snd r) = true
             /\ Store.hasDoubleJump (snd r) = Store.hasDoubleJump s
             /\ Store.lives (snd r) = Store.lives s
             /\ Store.maxLives (snd r) = Store.maxLives s
         end).
Proof.
  cbv zeta. unfold Store.buyItem.
  destruct (Store.score s >=? c) eqn:E; cbn [fst snd].
  - apply geb_ge in E. split; [tauto|]. split; [discriminate|]. intros _.
    destruct t; cbn; repeat split.
  - split.
    + split; [discriminate|]. intro H. apply geb_ge in H. congruence.
    + split; [reflexivity | discriminate].
Qed.

Lemma purchase_spends_score_only_witness :
  Store.lives
    (snd (Store.buyItem Store.HEAL 10
            (Store.set_lives
               (Store.set_score (Store.startGame (Store.initial [])) 50)
               2%Z)))
  = 3%Z.
Proof.
  pose proof (purchase_spends_score_only
                (Store.set_lives
                   (Store.set_score (Store.startGame (Store.initial [])) 50)
                   2%Z) Store.HEAL 10) as H.
  cbv zeta in H. destruct H as (_ & _ & H).
  destruct H as (_ & _ & _ & _ & _ & _ & _ & H & _).
  - reflexivity.
  - exact H.
Defined.

Lemma Qfloor_band (a : Q) (k : Z) :
  inject_Z k * 100 <= a -> a < (inject_Z k + 1) * 100 ->
  Qfloor (a / 100) = k.
Proof.
  intros Hlo Hhi.
  assert (L : inject_Z k <= a / 100).
  { apply Qle_shift_div_l; [reflexivity | exact Hlo]. }
  assert (U : a / 100 < inject_Z k + 1).
  { apply Qlt_shift_div_r; [reflexivity | exact Hhi]. }
  pose proof (Qfloor_le (a / 100)) as F1.
  pose proof (Qlt_floor (a / 100)) as F2.
  assert (A : (k < Qfloor (a / 100) + 1)%Z).
  { rewrite Zlt_Qlt. eapply Qle_lt_trans; [exact L | exact F2]. }
  assert (B : (Qfloor (a / 100) < k + 1)%Z).
  { rewrite Zlt_Qlt, inject_Z_plus.
    eapply Qle_lt_trans; [exact F1 | exact U]. }
  lia.
Qed.

(** The speed is a staircase of the total score: it never decreases when
    the total grows, it is the start speed (half the base run speed) below
    100 points, on the band from 100 k to 100 (k + 1) it is the start speed
    times 1 + k / 10, and 100 points more always add a tenth of the start
    speed. *)
Theorem speed_is_staircase_of_total (a b : Q) (k : Z) :
  (a <= b -> Store.calculateSpeed a <= Store.calculateSpeed b)
  /\ (inject_Z k * 100 <= a -> a < (inject_Z k + 1) * 100 ->
      Store.calculateSpeed a
      == Store.START_SPEED * (1 + inject_Z k * Store.SPEED_INCREMENT_PER_100))
  /\ (0 <= a -> a < 100 -> Store.calculateSpeed a == Store.RUN_SPEED_BASE / 2)
  /\ Store.calculateSpeed (a + 100)
     == Store.calculateSpeed a
        + Store.START_SPEED * Store.SPEED_INCREMENT_PER_100.
Proof.
  assert (Band : forall x j, inject_Z j * 100 <= x ->
                 x < (inject_Z j + 1) * 100 ->
                 Store.calculateSpeed x
                 == Store.START_SPEED
                    * (1 + inject_Z j * Store.SPEED_INCREMENT_PER_100)).
  { intros x j Hlo Hhi. unfold Store.calculateSpeed. cbv zeta.
    now rewrite (Qfloor_band x j Hlo Hhi). }
  split; [|split; [|split]].
  - intro Hab. unfold Store.calculateSpeed. cbv zeta.
    assert (F : (Qfloor (a / 100) <= Qfloor (b / 100))%Z).
    { apply Qfloor_resp_le. apply Qmult_le_compat_r; [exact Hab | discriminate]. }
    rewrite Zle_Qle in F.
    unfold Store.START_SPEED, Store.RUN_SPEED_BASE,
      Store.SPEED_INCREMENT_PER_100. lra.
  - apply Band.
  - intros Hlo Hhi. rewrite (Band a 0%Z).
    + reflexivity.
    + exact Hlo.
    + exact Hhi.
  - pose proof (Qfloor_le (a / 100)) as F1.
    pose proof (Qlt_floor (a / 100)) as F2.
    set (j := Qfloor (a / 100)) in *.
    assert (E : a == 100 * (a / 100))
      by (symmetry; apply Qmult_div_r; discriminate).
    rewrite inject_Z_plus in F2. change (inject_Z 1) with 1 in F2.
    set (q := a / 100) in *.
    assert (Hlo : inject_Z j * 100 <= a) by lra.
    assert (Hhi : a < (inject_Z j + 1) * 100) by lra.
    rewrite (Band (a + 100) (j + 1)%Z).
    + rewrite (Band a j Hlo Hhi). rewrite inject_Z_plus. ring.
    + rewrite inject_Z_plus. change (inject_Z 1) with 1. lra.
    + rewrite inject_Z_plus. change (inject_Z 1) with 1. lra.
Qed.

Lemma speed_is_staircase_of_total_witness :
  Store.calculateSpeed 250 == 13.5.
Proof.
  pose proof (speed_is_staircase_of_total 250 250 2%Z) as (_ & H & _).
  rewrite H.
  - reflexivity.
  - vm_compute. discriminate.
  - reflexivity.
Defined.

(** ** The leaderboard *)

Module BoardFacts.

Import Store.

Lemma insertEntry_perm e l : Permutation (insertEntry e l) (e :: l).
Proof.
  induction l as [| x rest IH]; cbn [insertEntry]; [reflexivity|].
  destruct (entryScore x >? entryScore e); [|reflexivity].
  rewrite IH. apply perm_swap.
Qed.

Lemma sortByScore_perm l : Permutation (sortByScore l) l.
Proof.
  unfold sortByScore. induction l as [| x rest IH]; cbn [fold_right];
    [reflexivity|].
  rewrite insertEntry_perm. now constructor.
Qed.

Lemma insertEntry_descending e l :
  descending l -> descending (insertEntry e l).
Proof.
  induction l as [| x rest IH]; intro D; cbn [insertEntry].
  - split; [intros y [] | exact I].
  - destruct D as (Dx & Dr).
    destruct (entryScore x >? entryScore e) eqn:G.
    + apply gtb_gt in G. split; [|now apply IH].
      intros y Hy.
      apply (Permutation_in _ (insertEntry_perm e rest)) in Hy.
      destruct Hy as [<- | Hy]; [now apply Qlt_le_weak | now apply Dx].
    + apply gtb_le in G. split; [|split; assumption].
      intros y [<- | Hy]; [exact G|].
      eapply Qle_trans; [apply Dx; exact Hy | exact G].
Qed.

Lemma sortByScore_descending l : descending (sortByScore l).
Proof.
  unfold sortByScore. induction l as [| x rest IH]; cbn [fold_right];
    [exact I | now apply insertEntry_descending].
Qed.

Lemma descending_app a : forall b,
  descending (a ++ b) ->
  descending a /\ descending b
  /\ forall x y, In x a -> In y b -> entryScore y <= entryScore x.
Proof.
  induction a as [| h a IH]; intros b D; cbn [app] in D.
  - repeat split; [exact D | intros x y []].
  - destruct D as (Dh & Dr). destruct (IH b Dr) as (Da & Db & Dab).
    split; [|split; [exact Db|]].
    + split; [|exact Da]. intros y Hy. apply Dh. apply in_or_app. now left.
    + intros x y [<- | Hx] Hy.
      * apply Dh. apply in_or_app. now right.
      * now apply Dab.
Qed.

End BoardFacts.

(** Saving a score.  The new board has at most five entries, in descending
    order of score; together with the entries cut off it is a rearrangement
    of the old board and the new entry, and no entry cut off scores more
    than one that is kept.  When the old board has at most five entries and
    the score saved is a high score by [isHighScore], the new entry is on
    the new board.  Nothing but the board changes. *)
Theorem saved_board_keeps_best_five
  (s : Store.GameState) (n : string) (now_ : Q) :
  let e := Store.mkEntry n (Store.score s) now_ in
  let s' := Store.saveScore n now_ s in
  let board := Store.leaderboard s' in
  (List.length board <= 5)%nat
  /\ descending board
  /\ (exists cut,
        Permutation (Store.leaderboard s ++ [e]) (board ++ cut)
        /\ forall x y, In x board -> In y cut ->
                       Store.entryScore y <= Store.entryScore x)
  /\ ((List.length (Store.leaderboard s) <= 5)%nat ->
      Store.isHighScore (Store.score s) s = true -> In e board)
  /\ Store.score s' = Store.score s /\ Store.status s' = Store.status s
  /\ Store.lives s' = Store.lives s /\ Store.level s' = Store.level s.
Proof.
  cbv zeta. cbn [Store.saveScore Store.leaderboard Store.set_leaderboard
                 Store.score Store.status Store.lives Store.level].
  set (e := Store.mkEntry n (Store.score s) now_).
  set (old := Store.leaderboard s).
  set (sorted := Store.sortByScore (old ++ [e])).
  pose proof (BoardFacts.sortByScore_perm (old ++ [e])) as P.
  pose proof (BoardFacts.sortByScore_descending (old ++ [e])) as D.
  fold sorted in P, D.
  pose proof (firstn_skipn 5 sorted) as FS.
  rewrite <- FS in D. apply BoardFacts.descending_app in D as (D1 & D2 & D12).
  split; [apply firstn_le_length|]. split; [exact D1|]. split.
  { exists (skipn 5 sorted). split; [|exact D12].
    rewrite FS. now symmetry. }
  split; [|repeat split].
  intros Hlen Hhigh. unfold Store.isHighScore in Hhigh. fold old in Hhigh.
  destruct (Store.score s <=? 0); [discriminate|].
  assert (Hsl : List.length sorted = S (List.length old)).
  { rewrite (Permutation_length P), length_app. cbn. lia. }
  destruct (Nat.ltb_spec (List.length old) 5) as [L | L].
  - rewrite firstn_all2 by lia.
    apply (Permutation_in _ (Permutation_sym P)). apply in_or_app.
    right. now left.
  - assert (L5 : List.length old = 5%nat) by lia.
    destruct old as [| a [| b [| c [| d [| m [| ? ?]]]]]] eqn:Eo;
      try discriminate L5.
    cbn [map last] in Hhigh. apply gtb_gt in Hhigh.
    destruct sorted as [| s1 [| s2 [| s3 [| s4 [| s5 [| z [| ? ?]]]]]]]
      eqn:Es; try discriminate Hsl.
    cbn [firstn skipn] in *.
    assert (He : In e ([s1; s2; s3; s4; s5] ++ [z])).
    { apply (Permutation_in _ (Permutation_sym P)). apply in_or_app.
      right. now left. }
    apply in_app_or in He. destruct He as [He | [Hz | []]]; [exact He|].
    subst z.
    exfalso.
    change [s1; s2; s3; s4; s5; e] with ([s1; s2; s3; s4; s5] ++ [e]) in P.
    apply Permutation_app_inv_r in P.
    assert (Hm : In m [s1; s2; s3; s4; s5]).
    { apply (Permutation_in _ (Permutation_sym P)). cbn. tauto. }
    specialize (D12 m e Hm ltac:(now left)).
    change (Store.entryScore e) with (Store.score s) in D12.
    apply (Qlt_irrefl (Store.score s)).
    eapply Qle_lt_trans; [exact D12 | exact Hhigh].
Qed.

Lemma saved_board_keeps_best_five_witness :
  In (Store.mkEntry "ada" 70 9)
     (Store.leaderboard
        (Store.saveScore "ada" 9
           (Store.set_score
              (Store.initial
                 [Store.mkEntry "a" 90 1; Store.mkEntry "b" 80 2;
                  Store.mkEntry "c" 60 3; Store.mkEntry "d" 50 4;
                  Store.mkEntry "e" 40 5])
              70))).
Proof.
  pose proof (saved_board_keeps_best_five
                (Store.set_score
                   (Store.initial
                      [Store.mkEntry "a" 90 1; Store.mkEntry "b" 80 2;
                       Store.mkEntry "c" 60 3; Store.mkEntry "d" 50 4;
                       Store.mkEntry "e" 40 5])
                   70) "ada" 9) as H.
  cbv zeta in H. destruct H as (_ & _ & _ & H & _).
  apply H.
  - cbn. lia.
  - vm_compute. reflexivity.
Defined.
